(** * log2excel: staged/production log alignment and the XLSX codec

    A shallow embedding of [log_to_excel.py] and [xlsx_writer.py].

    Conventions of the embedding:
    - a Python [str] is a [string]; its characters are modelled by [ascii];
    - list indices and line numbers are [nat]; a subscript that Python would
      reject with [IndexError] makes the model return [None];
    - [int | None] and [str | None] are [option nat] and [option string];
    - [str(n)] and the [{n}] of an f-string are stdpp's decimal [pretty]. *)

From stdpp Require Import base numbers option list sorting gmap strings pretty.
From Stdlib Require Import Ascii.

Local Open Scope string_scope.
Local Open Scope nat_scope.
Local Open Scope list_scope.

(** ** difflib.SequenceMatcher (isjunk=None, autojunk=False)

    [_align_logs] builds [SequenceMatcher(a=stg_lines, b=prd_lines,
    autojunk=False)]: no element is junk and no element is "popular", so
    [bjunk] is empty and [b2j] keeps every element of [b]. *)
Module Difflib.

(** [Match(a, b, size)] *)
Definition Match : Type := nat * nat * nat.

Inductive tag := equal | replace | delete | insert.

(** An opcode [(tag, i1, i2, j1, j2)]. *)
Record opcode := Opcode {
  op_tag : tag; op_i1 : nat; op_i2 : nat; op_j1 : nat; op_j2 : nat }.

Global Instance tag_eq_dec : EqDecision tag.
Proof. solve_decision. Defined.
Global Instance opcode_eq_dec : EqDecision opcode.
Proof. solve_decision. Defined.

(** [__chain_b]: [b2j[x]] lists the indices of [x] in [b], in increasing
    order ([setdefault(elt, []).append(i)] over [enumerate(b)]). *)
Definition chain_b_step (b2j : gmap string (list nat)) (ie : nat * string)
    : gmap string (list nat) :=
  <[ie.2 := default [] (b2j !! ie.2) ++ [ie.1]]> b2j.

Definition chain_b (b : list string) : gmap string (list nat) :=
  foldl chain_b_step ∅ (imap pair b).

(** [j2lenget(j-1, 0)]: for [j = 0] the key is [-1], never in the dict. *)
Definition j2lenget (j2len : gmap nat nat) (j : nat) : nat :=
  match j with
  | 0 => 0
  | S j' => default 0 (j2len !! j')
  end.

Section matcher.
Variables a b : list string.

  (** The state of the scan is [(besti, bestj, bestsize)]. *)

  (** The inner loop [for j in b2j.get(a[i], nothing)]. *)
Fixpoint flm_inner (blo bhi i : nat) (j2len : gmap nat nat) (js : list nat)
      (newj2len : gmap nat nat) (best : Match) : gmap nat nat * Match :=
    match js with
    | [] => (newj2len, best)
    | j :: js' =>
        if decide (j < blo) then flm_inner blo bhi i j2len js' newj2len best
        else if decide (bhi ≤ j) then (newj2len, best)
        else
          let k := j2lenget j2len j + 1 in
          let best' :=
            if decide (best.2 < k) then (i + 1 - k, j + 1 - k, k) else best in
          flm_inner blo bhi i j2len js' (<[j := k]> newj2len) best'
    end.

  (** The outer loop [for i in range(alo, ahi)], over the list of the [i]. *)
Fixpoint flm_outer (blo bhi : nat) (rng : list nat)
      (j2len : gmap nat nat) (best : Match) : option Match :=
    match rng with
    | [] => Some best
    | i :: rng' =>
        x ← a !! i;
        let '(newj2len, best') :=
          flm_inner blo bhi i j2len (default [] (chain_b b !! x)) ∅ best in
        flm_outer blo bhi rng' newj2len best'
    end.

  (** [a[i] == b[j]] *)
Definition same_at (i j : nat) : option bool :=
    x ← a !! i; y ← b !! j; Some (bool_decide (x = y)).

  (** [while besti > alo and bestj > blo and a[besti-1] == b[bestj-1]].
      The recursion is on [besti], which the loop decrements. *)
Fixpoint extend_left (alo blo besti bestj bestsize : nat) : option Match :=
    match besti with
    | 0 => Some (besti, bestj, bestsize)
    | S i' =>
        if decide (alo < besti ∧ blo < bestj) then
          same ← same_at i' (bestj - 1);
          if same : bool then extend_left alo blo i' (bestj - 1) (bestsize + 1)
          else Some (besti, bestj, bestsize)
        else Some (besti, bestj, bestsize)
    end.

  (** [while besti+bestsize < ahi and bestj+bestsize < bhi and
      a[besti+bestsize] == b[bestj+bestsize]].  [n] counts the elements of
      [a] left above the block, [ahi - (besti+bestsize)]; the test fails
      when none is left. *)
Fixpoint extend_right (ahi bhi besti bestj bestsize n : nat) : option Match :=
    match n with
    | 0 => Some (besti, bestj, bestsize)
    | S n' =>
        if decide (besti + bestsize < ahi ∧ bestj + bestsize < bhi) then
          same ← same_at (besti + bestsize) (bestj + bestsize);
          if same : bool then extend_right ahi bhi besti bestj (bestsize + 1) n'
          else Some (besti, bestj, bestsize)
        else Some (besti, bestj, bestsize)
    end.

  (** [find_longest_match(alo, ahi, blo, bhi)].  The two loops that absorb
      junk never run: [isbjunk] is false everywhere. *)
Definition find_longest_match (alo ahi blo bhi : nat) : option Match :=
    best ← flm_outer blo bhi (seq alo (ahi - alo)) ∅ (alo, blo, 0);
    let '(besti, bestj, bestsize) := best in
    best ← extend_left alo blo besti bestj bestsize;
    let '(besti, bestj, bestsize) := best in
    extend_right ahi bhi besti bestj bestsize (ahi - (besti + bestsize)).

  (** The [while queue:] loop of [get_matching_blocks].  [queue] is kept with
      its last element first, so [queue.pop()] takes the head and
      [queue.append] conses.  [None] on running out of [fuel]. *)
Fixpoint mb_loop (fuel : nat) (queue : list (nat * nat * nat * nat))
      (matching_blocks : list Match) : option (list Match) :=
    match fuel with
    | 0 => None
    | S fuel' =>
        match queue with
        | [] => Some matching_blocks
        | (alo, ahi, blo, bhi) :: queue' =>
            x ← find_longest_match alo ahi blo bhi;
            let '(i, j, k) := x in
            if decide (k ≠ 0) then
              let q1 := if decide (alo < i ∧ blo < j)
                        then (alo, i, blo, j) :: queue' else queue' in
              let q2 := if decide (i + k < ahi ∧ j + k < bhi)
                        then (i + k, ahi, j + k, bhi) :: q1 else q1 in
              mb_loop fuel' q2 (matching_blocks ++ [x])
            else mb_loop fuel' queue' matching_blocks
        end
    end.
End matcher.

(** Tuples compare lexicographically in [matching_blocks.sort()]. *)
Definition Match_le (x y : Match) : Prop :=
  x.1.1 < y.1.1 ∨ (x.1.1 = y.1.1 ∧
    (x.1.2 < y.1.2 ∨ (x.1.2 = y.1.2 ∧ x.2 ≤ y.2))).

Global Instance Match_le_dec : RelDecision Match_le.
Proof. intros x y. unfold Match_le. apply _. Defined.

(** The loop that collapses adjacent blocks; its state is
    [((i1, j1, k1), non_adjacent)]. *)
Definition collapse_step (st : Match * list Match) (x : Match)
    : Match * list Match :=
  let '((i1, j1, k1), non_adjacent) := st in
  let '(i2, j2, k2) := x in
  if decide (i1 + k1 = i2 ∧ j1 + k1 = j2) then ((i1, j1, k1 + k2), non_adjacent)
  else ((i2, j2, k2),
        if decide (k1 ≠ 0) then non_adjacent ++ [(i1, j1, k1)] else non_adjacent).

Definition collapse (la lb : nat) (matching_blocks : list Match) : list Match :=
  let '((i1, j1, k1), non_adjacent) :=
    foldl collapse_step ((0, 0, 0), []) matching_blocks in
  (if decide (k1 ≠ 0) then non_adjacent ++ [(i1, j1, k1)] else non_adjacent)
    ++ [(la, lb, 0)].

(** [get_matching_blocks()] *)
Definition get_matching_blocks (a b : list string) : option (list Match) :=
  let la := length a in
  let lb := length b in
  matching_blocks ← mb_loop a b (2 * la + 2) [(0, la, 0, lb)] [];
  Some (collapse la lb (merge_sort Match_le matching_blocks)).

(** The loop of [get_opcodes]; its state is [(i, j, answer)]. *)
Definition opcodes_step (st : nat * nat * list opcode) (x : Match)
    : nat * nat * list opcode :=
  let '(i, j, answer) := st in
  let '(ai, bj, size) := x in
  let answer1 :=
    if decide (i < ai ∧ j < bj) then answer ++ [Opcode replace i ai j bj]
    else if decide (i < ai) then answer ++ [Opcode delete i ai j bj]
    else if decide (j < bj) then answer ++ [Opcode insert i ai j bj]
    else answer in
  let answer2 :=
    if decide (size ≠ 0)
    then answer1 ++ [Opcode equal ai (ai + size) bj (bj + size)]
    else answer1 in
  (ai + size, bj + size, answer2).

Definition opcodes_of (blocks : list Match) : list opcode :=
  (foldl opcodes_step (0, 0, []) blocks).2.

(** [get_opcodes()] *)
Definition get_opcodes (a b : list string) : option (list opcode) :=
  opcodes_of <$> get_matching_blocks a b.

(** *** Geometry of the matching blocks

    Only the positions of the blocks matter to the aligner: it reads the
    texts itself.  [chain i0 j0 L i1 j1]: the blocks of [L] are non-empty,
    ascending and non-overlapping in both sequences, and lie between
    [(i0, j0)] and [(i1, j1)]. *)
Fixpoint chain (i0 j0 : nat) (L : list Match) (i1 j1 : nat) : Prop :=
  match L with
  | [] => i0 ≤ i1 ∧ j0 ≤ j1
  | (i, j, k) :: L' => i0 ≤ i ∧ j0 ≤ j ∧ 0 < k ∧ chain (i + k) (j + k) L' i1 j1
  end.

Lemma chain_le i0 j0 L i1 j1 : chain i0 j0 L i1 j1 → i0 ≤ i1 ∧ j0 ≤ j1.
Proof.
  revert i0 j0. induction L as [|[[i j] k] L IH]; simpl; intros i0 j0; [done|].
  intros (? & ? & ? & H%IH). lia.
Qed.

Lemma chain_weaken i0 j0 L i1 j1 i0' j0' i1' j1' :
  chain i0 j0 L i1 j1 → i0' ≤ i0 → j0' ≤ j0 → i1 ≤ i1' → j1 ≤ j1' →
  chain i0' j0' L i1' j1'.
Proof.
  revert i0 j0 i0' j0'. induction L as [|[[i j] k] L IH]; simpl.
  - lia.
  - intros i0 j0 i0' j0' (? & ? & ? & Hc) ????.
    repeat split; [lia..|]. eapply IH; eauto.
Qed.

Lemma chain_app i0 j0 L1 im jm L2 i1 j1 :
  chain i0 j0 L1 im jm → chain im jm L2 i1 j1 → chain i0 j0 (L1 ++ L2) i1 j1.
Proof.
  revert i0 j0. induction L1 as [|[[i j] k] L1 IH]; simpl; intros i0 j0.
  - intros [Ha Hb] Hc. eapply chain_weaken; eauto.
  - intros (? & ? & ? & Hc) H2. repeat split; [done..|]. by apply IH.
Qed.

Global Instance Match_le_trans : Transitive Match_le.
Proof. intros [[??]?] [[??]?] [[??]?]; unfold Match_le; simpl; lia. Qed.
Global Instance Match_le_antisymm : AntiSymm (=) Match_le.
Proof.
  intros [[??]?] [[??]?]; unfold Match_le; simpl; intros ??.
  repeat f_equal; lia.
Qed.
Global Instance Match_le_total : Total Match_le.
Proof. intros [[??]?] [[??]?]; unfold Match_le; simpl; lia. Qed.

Lemma chain_Sorted i0 j0 L i1 j1 : chain i0 j0 L i1 j1 → Sorted Match_le L.
Proof.
  revert i0 j0. induction L as [|[[i j] k] L IH]; simpl; intros i0 j0.
  - constructor.
  - intros (? & ? & ? & H). constructor; [by eapply IH|].
    destruct L as [|[[i' j'] k'] L]; constructor.
    simpl in H. unfold Match_le; simpl. lia.
Qed.

(** Sorting a permutation of a chain gives the chain. *)
Lemma sort_chain i0 j0 L i1 j1 X :
  chain i0 j0 L i1 j1 → X ≡ₚ L → merge_sort Match_le X = L.
Proof.
  intros HL HX. apply (Sorted_unique Match_le).
  - apply Sorted_merge_sort, _.
  - by eapply chain_Sorted.
  - by rewrite merge_sort_Permutation.
Qed.

Section matcher_bounds.
Variables a b : list string.

Lemma flm_inner_bounds alo blo bhi i j2len js newj2len best u :
    alo ≤ i → i < u →
    (∀ j k, j2len !! j = Some k → k ≤ i - alo ∧ k ≤ j + 1 - blo) →
    (∀ j k, newj2len !! j = Some k → k ≤ i + 1 - alo ∧ k ≤ j + 1 - blo) →
    (alo ≤ best.1.1 ∧ best.1.1 + best.2 ≤ u ∧
     blo ≤ best.1.2 ∧ best.1.2 + best.2 ≤ bhi) →
    let r := flm_inner blo bhi i j2len js newj2len best in
    (∀ j k, r.1 !! j = Some k → k ≤ i + 1 - alo ∧ k ≤ j + 1 - blo) ∧
    (alo ≤ r.2.1.1 ∧ r.2.1.1 + r.2.2 ≤ u ∧
     blo ≤ r.2.1.2 ∧ r.2.1.2 + r.2.2 ≤ bhi).
Proof.
    intros Hi Hu Hold. revert newj2len best.
    induction js as [|j js IH]; intros newj2len best Hnew Hbest; simpl; [done|].
    destruct (decide (j < blo)); [by apply IH|].
    destruct (decide (bhi ≤ j)); [done|].
    assert (j2lenget j2len j ≤ i - alo ∧ j2lenget j2len j ≤ j - blo) as [??].
    { destruct j as [|j']; simpl; [lia|].
      destruct (j2len !! j') as [k|] eqn:Hk; simpl; [|lia].
      apply Hold in Hk. lia. }
    apply IH.
    - intros j0 k0. rewrite lookup_insert.
      destruct (decide (j = j0)) as [->|]; [|by apply Hnew].
      intros [= <-]. lia.
    - destruct (decide (best.2 < j2lenget j2len j + 1)); simpl; [lia|done].
Qed.

Lemma flm_outer_bounds alo blo bhi n : ∀ i j2len best,
    alo ≤ i → i + n ≤ length a →
    (∀ j k, j2len !! j = Some k → k ≤ i - alo ∧ k ≤ j + 1 - blo) →
    (alo ≤ best.1.1 ∧ best.1.1 + best.2 ≤ i + n ∧
     blo ≤ best.1.2 ∧ best.1.2 + best.2 ≤ bhi) →
    ∃ r, flm_outer a b blo bhi (seq i n) j2len best = Some r ∧
      alo ≤ r.1.1 ∧ r.1.1 + r.2 ≤ i + n ∧ blo ≤ r.1.2 ∧ r.1.2 + r.2 ≤ bhi.
Proof.
    induction n as [|n IH]; intros i j2len best Hi Hn Hold Hbest; simpl.
    - eauto.
    - destruct (lookup_lt_is_Some_2 a i) as [x Hx]; [lia|].
      rewrite Hx; simpl.
      pose proof (flm_inner_bounds alo blo bhi i j2len
        (default [] (chain_b b !! x)) ∅ best (i + S n)) as Hin.
      destruct (flm_inner _ _ _ _ _ _ _) as [newj2len best'].
      destruct Hin as [Hnew Hbest']; [lia|lia|done| |done|].
      { intros j k. by rewrite lookup_empty. }
      destruct (IH (S i) newj2len best') as (r & -> & ?); [lia|lia| | |].
      + intros j k Hk. apply Hnew in Hk. simpl in Hk. lia.
      + simpl in *. lia.
      + exists r. split; [done|lia].
Qed.

Lemma same_at_is_Some i j :
    i < length a → j < length b → is_Some (same_at a b i j).
Proof.
    intros [x Hx]%lookup_lt_is_Some_2 [y Hy]%lookup_lt_is_Some_2.
    unfold same_at. rewrite Hx, Hy. simpl. eauto.
Qed.

Lemma extend_left_bounds alo blo besti : ∀ bestj bestsize,
    alo ≤ besti → blo ≤ bestj → besti ≤ length a → bestj ≤ length b →
    ∃ i j k, extend_left a b alo blo besti bestj bestsize = Some (i, j, k) ∧
      alo ≤ i ∧ blo ≤ j ∧ i + k = besti + bestsize ∧ j + k = bestj + bestsize ∧
      i ≤ besti.
Proof.
    induction besti as [|i' IH]; intros bestj bestsize ????; simpl.
    - eexists _, _, _. split; [done|lia].
    - destruct (decide _) as [[??]|]; [|eexists _, _, _; split; [done|lia]].
      destruct (same_at_is_Some i' (bestj - 1)) as [[|] ->]; [lia|lia| |]; simpl.
      + destruct (IH (bestj - 1) (bestsize + 1)) as (i & j & k & -> & ?);
          [lia..|].
        eexists _, _, _. split; [done|lia].
      + eexists _, _, _. split; [done|lia].
Qed.

Lemma extend_right_bounds ahi bhi besti bestj n : ∀ bestsize,
    ahi ≤ length a → bhi ≤ length b →
    besti + bestsize ≤ ahi → bestj + bestsize ≤ bhi →
    ∃ k, extend_right a b ahi bhi besti bestj bestsize n = Some (besti, bestj, k) ∧
      bestsize ≤ k ∧ besti + k ≤ ahi ∧ bestj + k ≤ bhi.
Proof.
    induction n as [|n IH]; intros bestsize ????; simpl.
    - eauto with lia.
    - destruct (decide _) as [[??]|]; [|eauto with lia].
      destruct (same_at_is_Some (besti + bestsize) (bestj + bestsize))
        as [[|] ->]; [lia|lia| |]; simpl; [|eauto with lia].
      destruct (IH (bestsize + 1)) as (k & -> & ?); [lia..|].
      eauto with lia.
Qed.

  (** [find_longest_match] returns, and its block lies in the window. *)
Lemma find_longest_match_bounds alo ahi blo bhi :
    alo ≤ ahi → ahi ≤ length a → blo ≤ bhi → bhi ≤ length b →
    ∃ i j k, find_longest_match a b alo ahi blo bhi = Some (i, j, k) ∧
      alo ≤ i ∧ i + k ≤ ahi ∧ blo ≤ j ∧ j + k ≤ bhi.
Proof.
    intros ????. unfold find_longest_match.
    destruct (flm_outer_bounds alo blo bhi (ahi - alo) alo ∅ (alo, blo, 0))
      as ([[i0 j0] k0] & -> & ?); simpl in *; [lia|lia| |lia|].
    { intros j k. by rewrite lookup_empty. }
    destruct (extend_left_bounds alo blo i0 j0 k0)
      as (i1 & j1 & k1 & -> & ?); [lia..|]; simpl.
    destruct (extend_right_bounds ahi bhi i1 j1 (ahi - (i1 + k1)) k1)
      as (k & -> & ?); [lia..|].
    eexists _, _, _. split; [done|lia].
Qed.
End matcher_bounds.

Section blocks.
Variables a b : list string.

  (** Twice the staged lines of the pending windows, plus one per window:
      it drops at every turn of the [while queue:] loop. *)
Definition queue_weight (queue : list (nat * nat * nat * nat)) : nat :=
    sum_list ((λ w, 2 * (w.1.1.2 - w.1.1.1) + 1) <$> queue).

Lemma queue_weight_cons alo ahi blo bhi queue :
    queue_weight ((alo, ahi, blo, bhi) :: queue)
    = 2 * (ahi - alo) + 1 + queue_weight queue.
Proof. done. Qed.

Definition window_ok (w : nat * nat * nat * nat) : Prop :=
    w.1.1.1 ≤ w.1.1.2 ∧ w.1.1.2 ≤ length a ∧ w.1.2 ≤ w.2 ∧ w.2 ≤ length b.

Definition window_chain (w : nat * nat * nat * nat) (L : list Match) : Prop :=
    chain w.1.1.1 w.1.2 L w.1.1.2 w.2.

  (** The loop returns; what it appends is, window by window, a chain inside
      the window, up to the order of discovery. *)
Lemma mb_loop_chains fuel : ∀ queue acc,
    queue_weight queue < fuel → Forall window_ok queue →
    ∃ Ls X, mb_loop a b fuel queue acc = Some (acc ++ X) ∧
      Forall2 window_chain queue Ls ∧ X ≡ₚ concat Ls.
Proof.
    induction fuel as [|fuel IH]; intros queue acc Hw Hok; [lia|].
    destruct queue as [|[[[alo ahi] blo] bhi] queue]; simpl.
    { exists [], []. by rewrite app_nil_r. }
    apply Forall_cons in Hok as [(?&?&?&?) Hok]; simpl in *.
    rewrite queue_weight_cons in Hw.
    destruct (find_longest_match_bounds a b alo ahi blo bhi)
      as (i & j & k & -> & ?); [done..|]; simpl.
    destruct (decide (k ≠ 0)) as [Hk|Hk].
    - set (q1 := if decide (alo < i ∧ blo < j)
                 then (alo, i, blo, j) :: queue else queue).
      set (q2 := if decide (i + k < ahi ∧ j + k < bhi)
                 then (i + k, ahi, j + k, bhi) :: q1 else q1).
      assert (Forall window_ok q1) as Hq1.
      { unfold q1. case_decide; [|done].
        apply Forall_cons. split; [|done]. unfold window_ok; simpl; lia. }
      assert (queue_weight q1 ≤ queue_weight queue + 2 * (i - alo) + 1 ∧
              (¬ (alo < i ∧ blo < j) → queue_weight q1 = queue_weight queue))
        as [Hw1 Hw1'].
      { unfold q1. case_decide; rewrite ?queue_weight_cons; lia. }
      destruct (IH q2 (acc ++ [(i, j, k)])) as (Ls & X & -> & HLs & HX).
      { unfold q2. case_decide; rewrite ?queue_weight_cons;
          [|destruct (decide (alo < i ∧ blo < j))]; lia. }
      { unfold q2. case_decide; [|done].
        apply Forall_cons. split; [|done]. unfold window_ok; simpl; lia. }
      (* split [Ls] into the right window, the left window and the rest *)
      assert (∃ Lr Ll Ls', chain (i + k) (j + k) Lr ahi bhi ∧
                chain alo blo Ll i j ∧ Forall2 window_chain queue Ls' ∧
                concat Ls ≡ₚ Lr ++ Ll ++ concat Ls') as
        (Lr & Ll & Ls' & HLr & HLl & HLs' & Hcat).
      { unfold q2, q1 in HLs.
        destruct (decide (i + k < ahi ∧ j + k < bhi));
          destruct (decide (alo < i ∧ blo < j)).
        - apply Forall2_cons_inv_l in HLs as (Lr & Ls1 & ? & HLs & ->).
          apply Forall2_cons_inv_l in HLs as (Ll & Ls' & ? & HLs & ->).
          exists Lr, Ll, Ls'. by rewrite !concat_cons.
        - apply Forall2_cons_inv_l in HLs as (Lr & Ls' & ? & HLs & ->).
          exists Lr, [], Ls'. simpl. repeat split; [done|lia|lia|done|done].
        - apply Forall2_cons_inv_l in HLs as (Ll & Ls' & ? & HLs & ->).
          exists [], Ll, Ls'. simpl. repeat split; [lia|lia|done|done|done].
        - exists [], [], Ls. simpl. repeat split; [lia..|done|done]. }
      exists ((Ll ++ (i, j, k) :: Lr) :: Ls'), ((i, j, k) :: X).
      split; [by rewrite <-app_assoc|]. split.
      + apply Forall2_cons. split; [|done]. unfold window_chain; simpl.
        eapply chain_app; [done|]. simpl. repeat split; [lia..|done].
      + rewrite concat_cons, HX, Hcat.
        rewrite <-!app_assoc. simpl. rewrite <-Permutation_middle.
        constructor. rewrite !app_assoc. apply Permutation_app_tail.
        apply Permutation_app_comm.
    - destruct (IH queue acc) as (Ls & X & -> & HLs & HX); [lia|done|].
      exists ([] :: Ls), X. split; [done|]. split; [|done].
      apply Forall2_cons. split; [|done]. unfold window_chain; simpl. lia.
Qed.

  (** The sorted blocks of the whole comparison form one chain. *)
Lemma sorted_blocks_chain :
    ∃ X, mb_loop a b (2 * length a + 2) [(0, length a, 0, length b)] [] = Some X ∧
      chain 0 0 (merge_sort Match_le X) (length a) (length b).
Proof.
    destruct (mb_loop_chains (2 * length a + 2)
      [(0, length a, 0, length b)] []) as (Ls & X & HX & HLs & Hperm).
    { rewrite queue_weight_cons. unfold queue_weight; simpl. lia. }
    { apply Forall_singleton. unfold window_ok; simpl. lia. }
    exists X. split; [done|].
    apply Forall2_cons_inv_l in HLs as (L & Ls' & HL & HLs & ->).
    apply Forall2_nil_inv_l in HLs as ->. simpl in Hperm.
    rewrite app_nil_r in Hperm.
    by rewrite (sort_chain 0 0 L (length a) (length b) X).
Qed.
End blocks.

(** Collapsing adjacent blocks keeps a chain a chain and ends it with the
    sentinel [(la, lb, 0)]. *)
Lemma collapse_step_chain la lb L : ∀ i1 j1 k1 non_adjacent pi pj,
  chain 0 0 non_adjacent pi pj → pi ≤ i1 → pj ≤ j1 →
  chain (i1 + k1) (j1 + k1) L la lb →
  ∃ i1' j1' k1' non_adjacent' pi' pj',
    foldl collapse_step ((i1, j1, k1), non_adjacent) L
      = ((i1', j1', k1'), non_adjacent') ∧
    chain 0 0 non_adjacent' pi' pj' ∧ pi' ≤ i1' ∧ pj' ≤ j1' ∧
    i1' + k1' ≤ la ∧ j1' + k1' ≤ lb.
Proof.
  induction L as [|[[i2 j2] k2] L IH]; intros i1 j1 k1 na pi pj Hna ?? HL; simpl.
  - simpl in HL. eexists _, _, _, _, _, _. split; [done|]. eauto with lia.
  - simpl in HL. destruct HL as (? & ? & ? & HL).
    destruct (decide (i1 + k1 = i2 ∧ j1 + k1 = j2)) as [[??]|].
    + eapply IH; eauto.
      replace (i1 + (k1 + k2)) with (i2 + k2) by lia.
      by replace (j1 + (k1 + k2)) with (j2 + k2) by lia.
    + destruct (decide (k1 ≠ 0)).
      * eapply (IH _ _ _ _ (i1 + k1) (j1 + k1)); eauto.
        eapply chain_app; [done|]. simpl. lia.
      * eapply (IH _ _ _ _ pi pj); eauto; lia.
Qed.

Lemma collapse_chain la lb L :
  chain 0 0 L la lb →
  ∃ L', collapse la lb L = L' ++ [(la, lb, 0)] ∧ chain 0 0 L' la lb.
Proof.
  intros HL. unfold collapse.
  destruct (collapse_step_chain la lb L 0 0 0 [] 0 0)
    as (i1 & j1 & k1 & na & pi & pj & -> & ? & ? & ? & ? & ?);
    [simpl; lia|done|done|done|].
  destruct (decide (k1 ≠ 0)).
  - eexists. split; [done|]. eapply chain_app; [done|]. simpl. lia.
  - eexists. split; [done|]. eapply chain_weaken; eauto; lia.
Qed.

(** [get_matching_blocks] returns a chain followed by the sentinel. *)
Lemma get_matching_blocks_chain a b :
  ∃ L, get_matching_blocks a b = Some (L ++ [(length a, length b, 0)]) ∧
    chain 0 0 L (length a) (length b).
Proof.
  unfold get_matching_blocks.
  destruct (sorted_blocks_chain a b) as (X & -> & HX); simpl.
  destruct (collapse_chain _ _ _ HX) as (L & -> & ?). eauto.
Qed.

(** *** Geometry of the opcodes

    [tiles i j ops i' j']: the opcodes follow one another from [(i, j)] to
    [(i', j')], each covering what its tag says. *)
Definition op_wf (op : opcode) : Prop :=
  match op_tag op with
  | equal => op_i1 op < op_i2 op ∧ op_j1 op < op_j2 op ∧
             op_i2 op - op_i1 op = op_j2 op - op_j1 op
  | replace => op_i1 op < op_i2 op ∧ op_j1 op < op_j2 op
  | delete => op_i1 op < op_i2 op ∧ op_j1 op = op_j2 op
  | insert => op_i1 op = op_i2 op ∧ op_j1 op < op_j2 op
  end.

Fixpoint tiles (i j : nat) (ops : list opcode) (i' j' : nat) : Prop :=
  match ops with
  | [] => i = i' ∧ j = j'
  | op :: ops' =>
      op_i1 op = i ∧ op_j1 op = j ∧ op_wf op ∧
      tiles (op_i2 op) (op_j2 op) ops' i' j'
  end.

Lemma tiles_app i j ops1 im jm ops2 i' j' :
  tiles i j ops1 im jm → tiles im jm ops2 i' j' → tiles i j (ops1 ++ ops2) i' j'.
Proof.
  revert i j. induction ops1 as [|op ops1 IH]; simpl; intros i j.
  - by intros [-> ->].
  - intros (? & ? & ? & Ht) H2. repeat split; [done..|]. by apply IH.
Qed.

Lemma tiles_le i j ops i' j' : tiles i j ops i' j' → i ≤ i' ∧ j ≤ j'.
Proof.
  revert i j. induction ops as [|op ops IH]; simpl; intros i j; [lia|].
  intros (<- & <- & Hwf & Ht%IH). unfold op_wf in Hwf.
  destruct (op_tag op); lia.
Qed.

Lemma opcodes_step_tiles i j answer ai bj size :
  i ≤ ai → j ≤ bj →
  ∃ new, opcodes_step (i, j, answer) (ai, bj, size)
           = (ai + size, bj + size, answer ++ new) ∧
    tiles i j new (ai + size) (bj + size).
Proof.
  intros ??. unfold opcodes_step.
  assert (∃ new1,
    (if decide (i < ai ∧ j < bj) then answer ++ [Opcode replace i ai j bj]
     else if decide (i < ai) then answer ++ [Opcode delete i ai j bj]
     else if decide (j < bj) then answer ++ [Opcode insert i ai j bj]
     else answer) = answer ++ new1 ∧ tiles i j new1 ai bj) as (new1 & -> & H1).
  { repeat case_decide.
    - eexists [_]. split; [done|]. simpl. unfold op_wf; simpl. lia.
    - eexists [_]. split; [done|]. simpl. unfold op_wf; simpl. lia.
    - eexists [_]. split; [done|]. simpl. unfold op_wf; simpl. lia.
    - exists []. rewrite app_nil_r. split; [done|]. simpl. lia. }
  destruct (decide (size ≠ 0)).
  - eexists. rewrite <-app_assoc. split; [done|].
    eapply tiles_app; [done|]. simpl. unfold op_wf; simpl. lia.
  - exists new1. split; [done|].
    by replace (ai + size) with ai by lia; replace (bj + size) with bj by lia.
Qed.

Lemma opcodes_fold_tiles L i1 j1 : ∀ i j answer,
  chain i j L i1 j1 →
  ∃ i' j' new, foldl opcodes_step (i, j, answer) L = (i', j', answer ++ new) ∧
    tiles i j new i' j' ∧ i' ≤ i1 ∧ j' ≤ j1.
Proof.
  induction L as [|[[ai bj] size] L IH]; intros i j answer HL;
    simpl in HL; cbn [foldl].
  - destruct HL. exists i, j, []. by rewrite app_nil_r.
  - destruct HL as (? & ? & ? & HL).
    destruct (opcodes_step_tiles i j answer ai bj size) as (new & -> & Hn);
      [done..|].
    destruct (IH _ _ (answer ++ new) HL) as (i' & j' & new' & -> & Hn' & ?).
    exists i', j', (new ++ new'). rewrite <-app_assoc. split; [done|].
    split; [|done]. by eapply tiles_app.
Qed.

(** [get_opcodes] returns, and its opcodes tile both sequences. *)
Lemma get_opcodes_tiles a b :
  ∃ ops, get_opcodes a b = Some ops ∧ tiles 0 0 ops (length a) (length b).
Proof.
  unfold get_opcodes.
  destruct (get_matching_blocks_chain a b) as (L & -> & HL); simpl.
  eexists. split; [done|]. unfold opcodes_of. rewrite foldl_app; cbn [foldl].
  destruct (opcodes_fold_tiles L _ _ 0 0 [] HL) as (i' & j' & new & -> & ? & ? & ?).
  destruct (opcodes_step_tiles i' j' ([] ++ new) (length a) (length b) 0)
    as (new' & -> & Hn'); [done..|]; simpl.
  rewrite !Nat.add_0_r in Hn'. by eapply tiles_app.
Qed.

(** *** [b2j] *)
Lemma chain_b_snoc b x :
  chain_b (b ++ [x]) = chain_b_step (chain_b b) (length b, x).
Proof.
  unfold chain_b. rewrite imap_app, foldl_app. simpl.
  by rewrite Nat.add_0_r.
Qed.

Lemma filter_lookup_snoc (b : list string) y x (l : list nat) :
  Forall (λ j, j < length b) l →
  filter (λ j, (b ++ [y]) !! j = Some x) l = filter (λ j, b !! j = Some x) l.
Proof.
  induction 1 as [|j l Hj _ IH]; [done|].
  rewrite !filter_cons, IH, lookup_app_l by done.
  by destruct (decide (b !! j = Some x)).
Qed.

(** [b2j.get(x, nothing)] is the ascending list of the positions of [x]. *)
Lemma chain_b_lookup b x :
  default [] (chain_b b !! x)
  = filter (λ j, b !! j = Some x) (seq 0 (length b)).
Proof.
  induction b as [|y b IH] using rev_ind; [done|].
  rewrite chain_b_snoc, length_app, Nat.add_1_r, seq_S, filter_app; simpl.
  rewrite filter_lookup_snoc
    by (apply Forall_forall; intros j ?%elem_of_seq; lia).
  unfold chain_b_step; simpl. rewrite lookup_insert.
  destruct (decide (y = x)) as [->|Hne]; simpl.
  - rewrite IH, filter_cons_True; [done|]. by rewrite list_lookup_middle.
  - rewrite IH, filter_cons_False, app_nil_r; [done|].
    rewrite list_lookup_middle by done. congruence.
Qed.

(** The positions of [b[i]] in [b]: some below [i], then [i], then some above. *)
Lemma chain_b_split b i x :
  b !! i = Some x →
  ∃ js1 js2, default [] (chain_b b !! x) = js1 ++ i :: js2 ∧
    Forall (λ j, j < i) js1 ∧ Forall (λ j, i < j) js2.
Proof.
  intros Hx. pose proof (lookup_lt_Some _ _ _ Hx) as Hi.
  rewrite chain_b_lookup.
  replace (length b) with (i + S (length b - S i)) by lia.
  rewrite seq_app, filter_app; simpl. rewrite filter_cons_True by done.
  eexists _, _. split; [done|].
  split; apply Forall_forall; intros j [_ ?%elem_of_seq]%list_elem_of_filter; lia.
Qed.

(** *** Comparing a sequence with itself *)
Section identity.
Variable a : list string.

  (** Positions that cannot beat the best block leave it alone. *)
Lemma flm_inner_keep blo bhi i j2len js : ∀ newj2len best,
    Forall (λ j, j2lenget j2len j + 1 ≤ best.2) js →
    (flm_inner blo bhi i j2len js newj2len best).2 = best.
Proof.
    induction js as [|j js IH]; intros newj2len best Hjs; simpl; [done|].
    apply Forall_cons in Hjs as [Hj Hjs].
    destruct (decide (j < blo)); [by apply IH|].
    destruct (decide (bhi ≤ j)); [done|].
    rewrite decide_False by lia. by apply IH.
Qed.

Lemma flm_inner_app blo bhi i j2len js1 js2 : ∀ newj2len best,
    Forall (λ j, j < bhi) js1 →
    flm_inner blo bhi i j2len (js1 ++ js2) newj2len best
    = flm_inner blo bhi i j2len js2
        (flm_inner blo bhi i j2len js1 newj2len best).1
        (flm_inner blo bhi i j2len js1 newj2len best).2.
Proof.
    induction js1 as [|j js1 IH]; intros newj2len best Hjs; simpl; [done|].
    apply Forall_cons in Hjs as [Hj Hjs].
    destruct (decide (j < blo)); [by apply IH|].
    destruct (decide (bhi ≤ j)); [lia|]. by apply IH.
Qed.

  (** Row [i] of the scan of [a] against itself: the diagonal wins. *)
Lemma flm_inner_diag i x j2len :
    a !! i = Some x →
    (∀ j k, j2len !! j = Some k → k ≤ i ∧ k ≤ j + 1) →
    j2lenget j2len i = i →
    (flm_inner 0 (length a) i j2len (default [] (chain_b a !! x)) ∅ (0, 0, i)).2
    = (0, 0, i + 1).
Proof.
    intros Hx Hold Hdiag. pose proof (lookup_lt_Some _ _ _ Hx) as Hi.
    assert (∀ j, j2lenget j2len j ≤ i ∧ j2lenget j2len j ≤ j) as Hget.
    { intros [|j]; simpl; [lia|].
      destruct (j2len !! j) as [k|] eqn:Hk; simpl; [|lia].
      apply Hold in Hk. lia. }
    destruct (chain_b_split a i x Hx) as (js1 & js2 & -> & Hjs1 & Hjs2).
    rewrite (flm_inner_app _ _ _ _ js1 (i :: js2))
      by (eapply Forall_impl; [exact Hjs1|]; simpl; intros; lia).
    rewrite (flm_inner_keep _ _ _ _ js1).
    2:{ eapply Forall_impl; [exact Hjs1|]. simpl.
        intros j ?. specialize (Hget j). lia. }
    simpl. rewrite decide_False by lia. rewrite Hdiag.
    rewrite decide_True by lia.
    rewrite flm_inner_keep.
    - by rewrite Nat.sub_diag.
    - apply Forall_forall. intros j _. simpl. specialize (Hget j). lia.
Qed.

Lemma flm_inner_diag_len i x j2len :
    a !! i = Some x →
    j2lenget j2len i = i →
    j2lenget
      (flm_inner 0 (length a) i j2len (default [] (chain_b a !! x)) ∅ (0, 0, i)).1
      (S i) = S i.
Proof.
    intros Hx Hdiag. pose proof (lookup_lt_Some _ _ _ Hx) as Hi.
    destruct (chain_b_split a i x Hx) as (js1 & js2 & -> & Hjs1 & Hjs2).
    rewrite (flm_inner_app _ _ _ _ js1 (i :: js2))
      by (eapply Forall_impl; [exact Hjs1|]; simpl; intros; lia).
    simpl. rewrite decide_False by lia. rewrite Hdiag.
    generalize (flm_inner 0 (length a) i j2len js1 ∅ (0, 0, i)).2.
    generalize (flm_inner 0 (length a) i j2len js1 ∅ (0, 0, i)).1.
    intros m best.
    set (best' := if decide (best.2 < i + 1) then _ else _). clearbody best'.
    assert (<[i:=i + 1]> m !! i = Some (i + 1)) as Hm by apply lookup_insert_eq.
    revert Hm. generalize (<[i:=i + 1]> m). clear m. revert best'.
    induction js2 as [|j js2 IH]; intros best' m Hm; simpl.
    - rewrite Hm. simpl. lia.
    - apply Forall_cons in Hjs2 as [Hj Hjs2].
      destruct (decide (j < 0)); [lia|].
      destruct (decide (length a ≤ j)); simpl; [rewrite Hm; simpl; lia|].
      apply IH; [done|]. rewrite lookup_insert_ne by lia. done.
Qed.

Lemma flm_outer_diag n : ∀ i j2len,
    i + n ≤ length a →
    (∀ j k, j2len !! j = Some k → k ≤ i ∧ k ≤ j + 1) →
    j2lenget j2len i = i →
    flm_outer a a 0 (length a) (seq i n) j2len (0, 0, i) = Some (0, 0, i + n).
Proof.
    induction n as [|n IH]; intros i j2len Hn Hold Hdiag; simpl.
    - by rewrite Nat.add_0_r.
    - destruct (lookup_lt_is_Some_2 a i) as [x Hx]; [lia|].
      rewrite Hx; simpl.
      pose proof (flm_inner_diag i x j2len Hx Hold Hdiag) as Hbest.
      pose proof (flm_inner_diag_len i x j2len Hx Hdiag) as Hlen.
      pose proof (flm_inner_bounds 0 0 (length a) i j2len
        (default [] (chain_b a !! x)) ∅ (0, 0, i) (i + 1)) as Hin.
      destruct (flm_inner _ _ _ _ _ _ _) as [newj2len best'].
      simpl in Hbest, Hlen. subst best'.
      replace (i + 1) with (S i) by lia.
      rewrite IH; [f_equal; f_equal; lia|lia| |done].
      destruct Hin as [Hnew _]; [lia|lia| | |simpl; lia|].
      + intros j k Hk. apply Hold in Hk. lia.
      + intros j k. by rewrite lookup_empty.
      + intros j k Hk. apply Hnew in Hk. simpl in Hk. lia.
Qed.

Lemma find_longest_match_diag :
    find_longest_match a a 0 (length a) 0 (length a) = Some (0, 0, length a).
Proof.
    unfold find_longest_match. rewrite Nat.sub_0_r.
    rewrite (flm_outer_diag (length a) 0 ∅); [|lia| |done].
    - simpl. by rewrite Nat.sub_diag.
    - intros j k. by rewrite lookup_empty.
Qed.

  (** A non-empty sequence compared with itself is one [equal] run. *)
Lemma get_opcodes_diag :
    get_opcodes a a =
      Some (if decide (length a ≠ 0)
            then [Opcode equal 0 (length a) 0 (length a)] else []).
Proof.
    unfold get_opcodes, get_matching_blocks.
    replace (2 * length a + 2) with (S (S (2 * length a))) by lia.
    cbn [mb_loop]. rewrite find_longest_match_diag. simpl.
    destruct (decide (length a ≠ 0)) as [Hn|Hn]; simpl.
    - rewrite !decide_False by lia. simpl.
      unfold collapse, opcodes_of. simpl.
      rewrite decide_True by done. simpl.
      rewrite !decide_False by lia. by rewrite decide_True by done.
    - unfold collapse, opcodes_of. simpl.
      by rewrite !decide_False by lia.
Qed.
End identity.

End Difflib.

Import Difflib.

(** ** log_to_excel.py: the sequence aligner *)

(** One aligned row [(stg_line, prd_line, stg_no, prd_no)]. *)
Record LinePair := mkLinePair {
  stg_line : string; prd_line : string;
  stg_no : option nat; prd_no : option nat }.

Global Instance LinePair_eq_dec : EqDecision LinePair.
Proof. solve_decision. Defined.

Section align.
Variables stg_lines prd_lines : list string.

  (** [tag == "equal"]: over [zip(range(i1, i2), range(j1, j2))]. *)
Definition emit_equal (i1 i2 j1 j2 : nat) : option (list LinePair) :=
    mapM (λ sp : nat * nat,
            s ← stg_lines !! sp.1; p ← prd_lines !! sp.2;
            Some (mkLinePair s p (Some (sp.1 + 1)) (Some (sp.2 + 1))))
         (zip (seq i1 (i2 - i1)) (seq j1 (j2 - j1))).

  (** [tag == "replace"]: [span = max(i2 - i1, j2 - j1)] rows. *)
Definition emit_replace (i1 i2 j1 j2 : nat) : option (list LinePair) :=
    let span := (i2 - i1) `max` (j2 - j1) in
    mapM (λ offset,
            let s_idx := i1 + offset in
            let p_idx := j1 + offset in
            stg_line ← (if decide (s_idx < i2) then stg_lines !! s_idx else Some "");
            prd_line ← (if decide (p_idx < j2) then prd_lines !! p_idx else Some "");
            let stg_no := if decide (s_idx < i2) then Some (s_idx + 1) else None in
            let prd_no := if decide (p_idx < j2) then Some (p_idx + 1) else None in
            Some (mkLinePair stg_line prd_line stg_no prd_no))
         (seq 0 span).

  (** [tag == "delete"] *)
Definition emit_delete (i1 i2 : nat) : option (list LinePair) :=
    mapM (λ s_idx, s ← stg_lines !! s_idx;
                   Some (mkLinePair s "" (Some (s_idx + 1)) None))
         (seq i1 (i2 - i1)).

  (** [tag == "insert"] *)
Definition emit_insert (j1 j2 : nat) : option (list LinePair) :=
    mapM (λ p_idx, p ← prd_lines !! p_idx;
                   Some (mkLinePair "" p None (Some (p_idx + 1))))
         (seq j1 (j2 - j1)).

  (** The body of [for tag, i1, i2, j1, j2 in matcher.get_opcodes()]. *)
Definition emit_run (op : opcode) : option (list LinePair) :=
    match op_tag op with
    | equal => emit_equal (op_i1 op) (op_i2 op) (op_j1 op) (op_j2 op)
    | replace => emit_replace (op_i1 op) (op_i2 op) (op_j1 op) (op_j2 op)
    | delete => emit_delete (op_i1 op) (op_i2 op)
    | insert => emit_insert (op_j1 op) (op_j2 op)
    end.

Definition _align_logs : option (list LinePair) :=
    ops ← get_opcodes stg_lines prd_lines;
    runs ← mapM emit_run ops;
    Some (concat runs).
End align.

(** The staged, resp. production, lines an alignment carries, with their
    line numbers: the rows whose line number on that side is present. *)
Definition stg_side (aligned : list LinePair) : list (nat * string) :=
  omap (λ p, (λ n, (n, stg_line p)) <$> stg_no p) aligned.
Definition prd_side (aligned : list LinePair) : list (nat * string) :=
  omap (λ p, (λ n, (n, prd_line p)) <$> prd_no p) aligned.

(** [enumerate(lines, start=1)] *)
Definition numbered (lines : list string) : list (nat * string) :=
  imap (λ i x, (i + 1, x)) lines.

(** What row [k] of a run carries for one side, where the run covers
    [lines[lo:hi]]: line [lo + k] and its 1-based number inside the range,
    the empty string and no number beyond it. *)
Definition side_ok (lines : list string) (lo hi k : nat)
    (text : string) (no : option nat) : Prop :=
  if decide (lo + k < hi) then no = Some (lo + k + 1) ∧ lines !! (lo + k) = Some text
  else no = None ∧ text = "".

Definition run_ok (stg_lines prd_lines : list string) (op : opcode)
    (run : list LinePair) : Prop :=
  length run = (op_i2 op - op_i1 op) `max` (op_j2 op - op_j1 op) ∧
  ∀ k p, run !! k = Some p →
    side_ok stg_lines (op_i1 op) (op_i2 op) k (stg_line p) (stg_no p) ∧
    side_ok prd_lines (op_j1 op) (op_j2 op) k (prd_line p) (prd_no p).

Example align_abc_axc :
  _align_logs ["a"; "b"; "c"] ["a"; "x"; "c"]
  = Some [mkLinePair "a" "a" (Some 1) (Some 1);
          mkLinePair "b" "x" (Some 2) (Some 2);
          mkLinePair "c" "c" (Some 3) (Some 3)].
Proof. vm_compute. reflexivity. Qed.

Example align_ab_a :
  _align_logs ["a"; "b"] ["a"]
  = Some [mkLinePair "a" "a" (Some 1) (Some 1);
          mkLinePair "b" "" (Some 2) None].
Proof. vm_compute. reflexivity. Qed.

Example align_padding :
  _align_logs ["a"; "b"; "c"; "d"] ["a"; "x"; "d"]
  = Some [mkLinePair "a" "a" (Some 1) (Some 1);
          mkLinePair "b" "x" (Some 2) (Some 2);
          mkLinePair "c" "" (Some 3) None;
          mkLinePair "d" "d" (Some 4) (Some 3)].
Proof. vm_compute. reflexivity. Qed.

(** *** Every run is what its opcode says *)

Lemma mapM_lookup_spec {A B} (f : A → option B) (l : list A) :
  (∀ k x, l !! k = Some x → is_Some (f x)) →
  ∃ run, mapM f l = Some run ∧ length run = length l ∧
    ∀ k y, run !! k = Some y → ∃ x, l !! k = Some x ∧ f x = Some y.
Proof.
  intros Hf.
  destruct (mapM_is_Some_2 f l) as [run Hrun].
  { apply Forall_lookup. intros k x Hx. by eapply Hf. }
  exists run. split; [done|]. apply mapM_Some_1 in Hrun.
  split; [symmetry; by eapply Forall2_length|].
  intros k y Hy.
  destruct (Forall2_lookup_r _ _ _ _ _ Hrun Hy) as (x & ? & ?). eauto.
Qed.

(** Open the [mapM] of the goal with [mapM_lookup_spec]. *)
Ltac mapM_spec run Hlen Hrun :=
  match goal with
  | |- context [mapM ?f ?l] =>
      destruct (mapM_lookup_spec f l) as (run & -> & Hlen & Hrun);
        [|eexists; split; [done|]; split]
  end.

Lemma side_ok_out lines lo hi k : hi ≤ lo + k → side_ok lines lo hi k "" None.
Proof. intros. unfold side_ok. by rewrite decide_False by lia. Qed.

Lemma side_ok_in lines lo hi k text :
  lo + k < hi → lines !! (lo + k) = Some text →
  side_ok lines lo hi k text (Some (lo + k + 1)).
Proof. intros. unfold side_ok. by rewrite decide_True by lia. Qed.

Ltac side_ok_tac :=
  (apply side_ok_in; [lia|done]) || (apply side_ok_out; lia).

Lemma emit_run_ok stg_lines prd_lines op :
  op_wf op → op_i2 op ≤ length stg_lines → op_j2 op ≤ length prd_lines →
  ∃ run, emit_run stg_lines prd_lines op = Some run ∧
    run_ok stg_lines prd_lines op run.
Proof.
  destruct op as [t i1 i2 j1 j2]. unfold op_wf, emit_run, run_ok; simpl.
  intros Hwf Hi Hj. destruct t.
  - (* equal *)
    destruct Hwf as (? & ? & ?). unfold emit_equal.
    mapM_spec run Hlen Hrun.
    + intros k [s p] (s' & p' & [= <- <-] & [-> ?]%lookup_seq & [-> ?]%lookup_seq)
        %lookup_zip_with_Some; simpl.
      destruct (lookup_lt_is_Some_2 stg_lines (i1 + k)) as [x ->]; [lia|].
      destruct (lookup_lt_is_Some_2 prd_lines (j1 + k)) as [y ->]; [lia|].
      simpl. eauto.
    + rewrite Hlen, length_zip, !length_seq. lia.
    + intros k p' (sp & Hsp & Hp)%Hrun.
      apply lookup_zip_with_Some in Hsp
        as (s' & p'' & -> & [-> ?]%lookup_seq & [-> ?]%lookup_seq).
      simpl in Hp.
      destruct (stg_lines !! (i1 + k)) as [x|] eqn:Hx; [|done].
      destruct (prd_lines !! (j1 + k)) as [y|] eqn:Hy; [|done].
      simpl in Hp. injection Hp as <-. simpl.
      split; side_ok_tac.
  - (* replace *)
    destruct Hwf as (? & ?). unfold emit_replace.
    mapM_spec run Hlen Hrun.
    + intros k offset [-> ?]%lookup_seq; simpl.
      destruct (decide (i1 + k < i2)), (decide (j1 + k < j2)); simpl;
        try (destruct (lookup_lt_is_Some_2 stg_lines (i1 + k)) as [x ->]; [lia|]);
        try (destruct (lookup_lt_is_Some_2 prd_lines (j1 + k)) as [y ->]; [lia|]);
        simpl; eauto.
    + by rewrite Hlen, length_seq.
    + intros k p' (offset & [-> ?]%lookup_seq & Hp)%Hrun. simpl in Hp.
      destruct (decide (i1 + k < i2)), (decide (j1 + k < j2)); simpl in Hp;
        try (destruct (stg_lines !! (i1 + k)) as [x|] eqn:Hx; [|done]);
        try (destruct (prd_lines !! (j1 + k)) as [y|] eqn:Hy; [|done]);
        simpl in Hp; injection Hp as <-; simpl;
        split; side_ok_tac.
  - (* delete *)
    destruct Hwf as (? & ?). unfold emit_delete.
    mapM_spec run Hlen Hrun.
    + intros k s_idx [-> ?]%lookup_seq; simpl.
      destruct (lookup_lt_is_Some_2 stg_lines (i1 + k)) as [x ->]; [lia|].
      simpl. eauto.
    + rewrite Hlen, length_seq. lia.
    + intros k p' (offset & [-> ?]%lookup_seq & Hp)%Hrun. simpl in Hp.
      destruct (stg_lines !! (i1 + k)) as [x|] eqn:Hx; [|done].
      simpl in Hp; injection Hp as <-; simpl.
      split; side_ok_tac.
  - (* insert *)
    destruct Hwf as (? & ?). unfold emit_insert.
    mapM_spec run Hlen Hrun.
    + intros k s_idx [-> ?]%lookup_seq; simpl.
      destruct (lookup_lt_is_Some_2 prd_lines (j1 + k)) as [x ->]; [lia|].
      simpl. eauto.
    + rewrite Hlen, length_seq. lia.
    + intros k p' (offset & [-> ?]%lookup_seq & Hp)%Hrun. simpl in Hp.
      destruct (prd_lines !! (j1 + k)) as [x|] eqn:Hx; [|done].
      simpl in Hp; injection Hp as <-; simpl.
      split; side_ok_tac.
Qed.

(** The runs of a tiling: all of them are emitted. *)
Lemma emit_runs_ok stg_lines prd_lines ops : ∀ i j,
  tiles i j ops (length stg_lines) (length prd_lines) →
  ∃ runs, mapM (emit_run stg_lines prd_lines) ops = Some runs ∧
    Forall2 (run_ok stg_lines prd_lines) ops runs.
Proof.
  induction ops as [|op ops IH]; intros i j Ht.
  - exists []. by split; [|constructor].
  - destruct Ht as (<- & <- & Hwf & Ht).
    pose proof (tiles_le _ _ _ _ _ Ht) as [??].
    destruct (emit_run_ok stg_lines prd_lines op) as (run & Hrun & ?); [done..|].
    destruct (IH _ _ Ht) as (runs & Hruns & ?).
    exists (run :: runs). split; [|by constructor].
    apply mapM_Some_2. constructor; [done|]. by apply mapM_Some_1.
Qed.

(** [_align_logs] returns for any two sequences: it is the concatenation of
    the runs of a tiling. *)
Lemma align_logs_runs stg_lines prd_lines :
  ∃ ops runs,
    get_opcodes stg_lines prd_lines = Some ops ∧
    tiles 0 0 ops (length stg_lines) (length prd_lines) ∧
    mapM (emit_run stg_lines prd_lines) ops = Some runs ∧
    Forall2 (run_ok stg_lines prd_lines) ops runs ∧
    _align_logs stg_lines prd_lines = Some (concat runs).
Proof.
  destruct (get_opcodes_tiles stg_lines prd_lines) as (ops & Hops & Ht).
  destruct (emit_runs_ok _ _ _ _ _ Ht) as (runs & Hruns & ?).
  exists ops, runs. repeat split; [done..|].
  unfold _align_logs. rewrite Hops; simpl. by rewrite Hruns.
Qed.

Lemma tiles_wf i j ops i' j' : tiles i j ops i' j' → Forall op_wf ops.
Proof.
  revert i j. induction ops as [|op ops IH]; intros i j; [constructor|].
  intros (_ & _ & ? & Ht). constructor; [done|]. by eapply IH.
Qed.

(** *** The sides of an alignment *)

(** The lines [lines[lo:lo+n]] with their 1-based numbers. *)
Definition numbered_from (lines : list string) (lo n : nat) : list (nat * string) :=
  (λ i, (i + 1, default "" (lines !! i))) <$> seq lo n.

Lemma numbered_from_all lines : numbered_from lines 0 (length lines) = numbered lines.
Proof.
  apply list_eq. intros i. unfold numbered_from, numbered.
  rewrite list_lookup_fmap, list_lookup_imap.
  destruct (decide (i < length lines)) as [Hi|Hi].
  - rewrite lookup_seq_lt by done.
    destruct (lookup_lt_is_Some_2 lines i Hi) as [x Hx]. simpl.
    by rewrite Hx.
  - rewrite lookup_seq_ge, lookup_ge_None_2 by lia. done.
Qed.

Lemma numbered_from_app lines lo n m :
  numbered_from lines lo (n + m)
  = numbered_from lines lo n ++ numbered_from lines (lo + n) m.
Proof. unfold numbered_from. by rewrite seq_app, fmap_app. Qed.

(** One side of a run: the lines of its range, in order. *)
Lemma side_of_run (side : LinePair → string * option nat) lines hi run : ∀ lo,
  (∀ k p, run !! k = Some p → side_ok lines lo hi k (side p).1 (side p).2) →
  hi - lo ≤ length run →
  omap (λ p, (λ n, (n, (side p).1)) <$> (side p).2) run
  = numbered_from lines lo (hi - lo).
Proof.
  induction run as [|p run IH]; intros lo Hrun Hlen; simpl in *.
  - by replace (hi - lo) with 0 by lia.
  - pose proof (Hrun 0 p eq_refl) as H0. unfold side_ok in H0.
    rewrite Nat.add_0_r in H0.
    assert (∀ k q, run !! k = Some q →
              side_ok lines (S lo) hi k (side q).1 (side q).2) as Hrun'.
    { intros k q Hq. specialize (Hrun (S k) q Hq). unfold side_ok in *.
      replace (S lo + k) with (lo + S k) by lia. done. }
    destruct (decide (lo < hi)) as [Hlo|Hlo].
    + destruct H0 as [-> Hx]. simpl.
      replace (hi - lo) with (1 + (hi - S lo)) by lia.
      rewrite numbered_from_app. unfold numbered_from at 1; simpl.
      rewrite Hx; simpl. f_equal.
      replace (lo + 1) with (S lo) by lia. apply IH; [done|lia].
    + destruct H0 as [-> _]. simpl.
      trans (numbered_from lines (S lo) (hi - S lo)); [apply IH; [done|lia]|].
      replace (hi - S lo) with 0 by lia. by replace (hi - lo) with 0 by lia.
Qed.

Lemma stg_side_run stg_lines prd_lines op run :
  run_ok stg_lines prd_lines op run →
  stg_side run = numbered_from stg_lines (op_i1 op) (op_i2 op - op_i1 op).
Proof.
  intros [Hlen Hrun].
  apply (side_of_run (λ p, (stg_line p, stg_no p))); simpl; [|lia].
  intros k p Hp. by apply Hrun.
Qed.

Lemma prd_side_run stg_lines prd_lines op run :
  run_ok stg_lines prd_lines op run →
  prd_side run = numbered_from prd_lines (op_j1 op) (op_j2 op - op_j1 op).
Proof.
  intros [Hlen Hrun].
  apply (side_of_run (λ p, (prd_line p, prd_no p))); simpl; [|lia].
  intros k p Hp. by apply Hrun.
Qed.

Lemma sides_of_runs stg_lines prd_lines i' j' ops : ∀ i j runs,
  tiles i j ops i' j' →
  Forall2 (run_ok stg_lines prd_lines) ops runs →
  stg_side (concat runs) = numbered_from stg_lines i (i' - i) ∧
  prd_side (concat runs) = numbered_from prd_lines j (j' - j).
Proof.
  induction ops as [|op ops IH]; intros i j runs Ht Hruns.
  - apply Forall2_nil_inv_l in Hruns as ->. destruct Ht as [-> ->].
    by rewrite !Nat.sub_diag.
  - apply Forall2_cons_inv_l in Hruns as (run & runs' & Hrun & Hruns & ->).
    destruct Ht as (<- & <- & Hwf & Ht).
    pose proof (tiles_le _ _ _ _ _ Ht) as [??].
    destruct (IH _ _ _ Ht Hruns) as [IHs IHp].
    assert (op_i1 op ≤ op_i2 op ∧ op_j1 op ≤ op_j2 op) as [??].
    { unfold op_wf in Hwf. destruct (op_tag op); lia. }
    unfold stg_side, prd_side in *. rewrite concat_cons, !omap_app.
    rewrite IHs, IHp.
    fold (stg_side run) (prd_side run).
    rewrite (stg_side_run _ _ _ _ Hrun), (prd_side_run _ _ _ _ Hrun).
    replace (i' - op_i1 op) with ((op_i2 op - op_i1 op) + (i' - op_i2 op)) by lia.
    replace (j' - op_j1 op) with ((op_j2 op - op_j1 op) + (j' - op_j2 op)) by lia.
    rewrite !numbered_from_app.
    replace (op_i1 op + (op_i2 op - op_i1 op)) with (op_i2 op) by lia.
    by replace (op_j1 op + (op_j2 op - op_j1 op)) with (op_j2 op) by lia.
Qed.

(** C10. For every pair of input sequences, the rows of the alignment whose
    staged line number is present are, in order, the staged lines numbered
    from 1 to [len(a)], and the rows whose production line number is present
    are the production lines numbered from 1 to [len(b)]: every source line
    appears exactly once. *)
Theorem align_sides_complete (stg_lines prd_lines : list string) :
  ∃ aligned, _align_logs stg_lines prd_lines = Some aligned ∧
    stg_side aligned = numbered stg_lines ∧
    prd_side aligned = numbered prd_lines.
Proof.
  destruct (align_logs_runs stg_lines prd_lines)
    as (ops & runs & _ & Ht & _ & Hruns & Halign).
  exists (concat runs). split; [done|].
  destruct (sides_of_runs _ _ _ _ _ _ _ _ Ht Hruns) as [Hs Hp].
  by rewrite Hs, Hp, !Nat.sub_0_r, !numbered_from_all.
Qed.

Lemma Forall2_with_Forall {A B} (P : A → Prop) (R Q : A → B → Prop) l k :
  Forall P l → Forall2 R l k → (∀ x y, P x → R x y → Q x y) → Forall2 Q l k.
Proof.
  intros HP HR HQ. revert HP.
  induction HR; intros [??]%Forall_cons || intros _; constructor; auto.
Qed.

(** C2. For every pair of input sequences, every [replace] opcode covering
    [ia] staged and [ib] production lines makes [_align_logs] emit a run of
    exactly [max(ia, ib)] rows; row [k] carries, on each side, the source
    line and its 1-based number while [k] is inside that side's range and
    the empty string with no line number beyond it. *)
Theorem replace_run_max (stg_lines prd_lines : list string) :
  ∃ ops runs,
    get_opcodes stg_lines prd_lines = Some ops ∧
    mapM (emit_run stg_lines prd_lines) ops = Some runs ∧
    _align_logs stg_lines prd_lines = Some (concat runs) ∧
    Forall2 (λ op run,
      op_tag op = replace →
      let ia := op_i2 op - op_i1 op in
      let ib := op_j2 op - op_j1 op in
      0 < ia ∧ 0 < ib ∧ length run = ia `max` ib ∧
      ∀ k, k < ia `max` ib →
        ∃ p, run !! k = Some p ∧
          (if decide (k < ia)
           then stg_lines !! (op_i1 op + k) = Some (stg_line p) ∧
                stg_no p = Some (op_i1 op + k + 1)
           else stg_line p = "" ∧ stg_no p = None) ∧
          (if decide (k < ib)
           then prd_lines !! (op_j1 op + k) = Some (prd_line p) ∧
                prd_no p = Some (op_j1 op + k + 1)
           else prd_line p = "" ∧ prd_no p = None)) ops runs.
Proof.
  destruct (align_logs_runs stg_lines prd_lines)
    as (ops & runs & Hops & Ht & Hm & Hruns & Halign).
  exists ops, runs. do 3 (split; [done|]).
  eapply Forall2_with_Forall; [exact (tiles_wf _ _ _ _ _ Ht)|exact Hruns|].
  intros op run Hop [Hlen Hrun] Htag. unfold op_wf in Hop. rewrite Htag in Hop.
  simpl. split; [lia|]. split; [lia|]. split; [done|].
  intros k Hk. destruct (lookup_lt_is_Some_2 run k) as [p Hp]; [lia|].
  exists p. split; [done|]. destruct (Hrun k p Hp) as [Hs Hpr].
  unfold side_ok in Hs, Hpr.
  split.
  - destruct (decide (k < op_i2 op - op_i1 op)).
    + rewrite decide_True in Hs by lia. by destruct Hs.
    + rewrite decide_False in Hs by lia. by destruct Hs.
  - destruct (decide (k < op_j2 op - op_j1 op)).
    + rewrite decide_True in Hpr by lia. by destruct Hpr.
    + rewrite decide_False in Hpr by lia. by destruct Hpr.
Qed.

Lemma Forall2_Forall_with {A B} (P : A → Prop) (R : A → B → Prop)
    (Q : B → Prop) l k :
  Forall P l → Forall2 R l k → (∀ x y, P x → R x y → Q y) → Forall Q k.
Proof.
  intros HP HR HQ. revert HP.
  induction HR; intros [??]%Forall_cons || intros _; constructor; eauto.
Qed.

(** What one row says about one side: a line number [n] comes with the text
    of source line [n], and a side without line number is a gap with the
    empty text. *)
Definition side_sound (lines : list string) (text : string) (no : option nat)
    : Prop :=
  match no with
  | Some n => 1 ≤ n ∧ lines !! (n - 1) = Some text
  | None => text = ""
  end.

Lemma side_ok_sound lines lo hi k text no :
  side_ok lines lo hi k text no → side_sound lines text no.
Proof.
  unfold side_ok, side_sound. case_decide.
  - intros [-> ?]. split; [lia|]. by replace (lo + k + 1 - 1) with (lo + k) by lia.
  - by intros [-> ->].
Qed.

(** C6 (as amended). For every pair of input sequences and every row the
    aligner produces: at least one side contributed a source line (its line
    number is present); a side's line number, when present, is the 1-based
    number of the source line whose text the row carries, and a side without
    line number carries the empty string; so at least one of the two texts
    is non-empty as soon as no input line is the empty string. *)
Theorem align_rows_sound (stg_lines prd_lines : list string) :
  ∃ aligned, _align_logs stg_lines prd_lines = Some aligned ∧
    Forall (λ p,
      (is_Some (stg_no p) ∨ is_Some (prd_no p)) ∧
      side_sound stg_lines (stg_line p) (stg_no p) ∧
      side_sound prd_lines (prd_line p) (prd_no p) ∧
      ("" ∉ stg_lines → "" ∉ prd_lines → stg_line p ≠ "" ∨ prd_line p ≠ ""))
    aligned.
Proof.
  destruct (align_logs_runs stg_lines prd_lines)
    as (ops & runs & Hops & Ht & Hm & Hruns & Halign).
  exists (concat runs). split; [done|]. apply Forall_concat.
  eapply Forall2_Forall_with; [exact (tiles_wf _ _ _ _ _ Ht)|exact Hruns|].
  intros op run Hwf [Hlen Hrun]. apply Forall_lookup. intros k p Hp.
  destruct (Hrun k p Hp) as [Hs Hpr].
  pose proof (lookup_lt_Some _ _ _ Hp) as Hk. rewrite Hlen in Hk.
  assert (is_Some (stg_no p) ∨ is_Some (prd_no p)) as Hsome.
  { unfold side_ok in Hs, Hpr.
    destruct (decide (k < op_i2 op - op_i1 op)).
    - left. rewrite decide_True in Hs by lia. destruct Hs as [-> _]. eauto.
    - right. rewrite decide_True in Hpr by lia. destruct Hpr as [-> _]. eauto. }
  apply side_ok_sound in Hs, Hpr. repeat split; [done..|].
  intros Hns Hnp. unfold side_sound in Hs, Hpr.
  destruct Hsome as [[n Hn]|[n Hn]]; rewrite Hn in *.
  - left. intros Htext. rewrite Htext in Hs. destruct Hs as [_ Hs].
    by apply list_elem_of_lookup_2 in Hs.
  - right. intros Htext. rewrite Htext in Hpr. destruct Hpr as [_ Hpr].
    by apply list_elem_of_lookup_2 in Hpr.
Qed.

(** C6 (as stated) fails on a blank line: the staged log [start, "", end]
    against the production log [start, end] gives a row whose two texts are
    empty, although neither input is empty. *)
Lemma align_blank_line_row :
  _align_logs ["start"; ""; "end"] ["start"; "end"]
  = Some [mkLinePair "start" "start" (Some 1) (Some 1);
          mkLinePair "" "" (Some 2) None;
          mkLinePair "end" "end" (Some 3) (Some 2)] ∧
  stg_line (mkLinePair "" "" (Some 2) None) = "" ∧
  prd_line (mkLinePair "" "" (Some 2) None) = "" ∧
  ["start"; ""; "end"] ≠ [] ∧ ["start"; "end"] ≠ [].
Proof. split; [vm_compute; reflexivity|done]. Qed.

(** C7. For every sequence [a], aligning [a] with itself yields exactly
    [len(a)] rows; row [i] (from 0) has the text [a[i]] on both sides and
    both line numbers equal to [i + 1]. *)
Theorem align_self (a : list string) :
  _align_logs a a
  = Some (imap (λ i x, mkLinePair x x (Some (i + 1)) (Some (i + 1))) a).
Proof.
  unfold _align_logs. rewrite get_opcodes_diag.
  destruct (decide (length a ≠ 0)) as [Hn|Hn]; simpl.
  - destruct (emit_run_ok a a (Opcode equal 0 (length a) 0 (length a)))
      as (run & -> & Hlen & Hrun); simpl in *.
    { unfold op_wf; simpl. lia. }
    { done. } { done. }
    rewrite app_nil_r. f_equal. apply list_eq. intros k.
    rewrite list_lookup_imap.
    destruct (decide (k < length a)) as [Hk|Hk].
    + destruct (lookup_lt_is_Some_2 run k) as [p Hp]; [lia|].
      destruct (Hrun k p Hp) as [Hs Hpr]. unfold side_ok in Hs, Hpr.
      rewrite decide_True in Hs, Hpr by lia. simpl in Hs, Hpr.
      destruct Hs as [? Hs], Hpr as [? Hpr]. rewrite Hp, Hs. simpl.
      destruct p as [s p sn pn]; simpl in *. congruence.
    + rewrite !lookup_ge_None_2 by lia. done.
  - destruct a; [done|]. simpl in Hn. lia.
Qed.

(** ** Python strings *)

Definition LF : ascii := ascii_of_nat 10.
Definition CR : ascii := ascii_of_nat 13.
Definition TAB : ascii := ascii_of_nat 9.
Definition QUOTE : ascii := ascii_of_nat 34.

(** [str.replace(old, new)] for a one-character [old]. *)
Fixpoint str_replace (old : ascii) (new : string) (s : string) : string :=
  match s with
  | EmptyString => EmptyString
  | String c s' =>
      if decide (c = old) then new +:+ str_replace old new s'
      else String c (str_replace old new s')
  end.

(** The characters [str.strip()] removes (code points below 256). *)
Definition is_py_space (c : ascii) : bool :=
  let n := nat_of_ascii c in
  bool_decide (9 ≤ n ≤ 13 ∨ 28 ≤ n ≤ 32 ∨ n = 133 ∨ n = 160).

Fixpoint str_lstrip (s : string) : string :=
  match s with
  | EmptyString => EmptyString
  | String c s' => if is_py_space c then str_lstrip s' else s
  end.

(** [str.strip()] *)
Definition str_strip (s : string) : string :=
  String.rev (str_lstrip (String.rev (str_lstrip s))).

(** [s[:n]] for [n >= 0]. *)
Fixpoint str_take (n : nat) (s : string) : string :=
  match n, s with
  | S n', String c s' => String c (str_take n' s')
  | _, _ => EmptyString
  end.

(** [s[:n]] for any integer [n]: a negative [n] counts from the end. *)
Definition str_prefix (n : Z) (s : string) : string :=
  if decide (0 ≤ n)%Z then str_take (Z.to_nat n) s
  else str_take (String.length s - Z.to_nat (- n)) s.

(** Python's truth value of a [str] and of a [str | None]. *)
Definition truthy (s : string) : bool := bool_decide (s ≠ "").
Definition truthy_opt (o : option string) : bool :=
  match o with Some s => truthy s | None => false end.

(** ** Errors *)

Inductive error :=
  | IndexError
  | ValueError (msg : string)
  | FileNotFoundError (msg : string)
  | KeyError (key : string)        (* a missing dict key or attribute *)
  | NoSuchMember (part : string)   (* [KeyError]: "There is no item named
                                      'part' in the archive" *)
  | ParseError
  | OutOfFuel.                     (* a loop bound of the model was reached *)

Inductive result (A : Type) :=
  | Ok (a : A)
  | Err (e : error).
Arguments Ok {A} a.
Arguments Err {A} e.

Definition rbind {A B} (m : result A) (f : A → result B) : result B :=
  match m with Ok a => f a | Err e => Err e end.

Notation "x ←r m ; k" := (rbind m (λ x, k))
  (at level 20, m at level 100, k at level 200, right associativity,
   only parsing).

(** The first error of a loop ends it. *)
Fixpoint rmapM {A B} (f : A → result B) (l : list A) : result (list B) :=
  match l with
  | [] => Ok []
  | x :: l' => y ←r f x; ys ←r rmapM f l'; Ok (y :: ys)
  end.

Definition of_option {A} (e : error) (o : option A) : result A :=
  match o with Some a => Ok a | None => Err e end.

(** ** xlsx_writer.py *)

Record CellValue := mkCell {
  value : string; formula : option string; data_type : option string }.

(** [CellValue()] *)
Definition empty_cell : CellValue := mkCell "" None None.

Record SheetData := mkSheet {
  sheet_name : string; sheet_rows : list (list CellValue) }.

Global Instance CellValue_eq_dec : EqDecision CellValue.
Proof. solve_decision. Defined.

(** The [while index:] loop of [_column_letter]; [index] shrinks at every
    turn, so [fuel = index] turns are enough ([None]: out of fuel). *)
Fixpoint column_letter_loop (fuel index : nat) (letters : list ascii)
    : option (list ascii) :=
  if decide (index = 0) then Some letters
  else match fuel with
       | 0 => None
       | S fuel' =>
           let remainder := (index - 1) `mod` 26 in
           column_letter_loop fuel' ((index - 1) `div` 26)
             (letters ++ [ascii_of_nat (65 + remainder)])
       end.

Definition _column_letter (index : nat) : result string :=
  if decide (index < 1) then Err (ValueError "Column index must be positive")
  else of_option OutOfFuel
         (String.string_of_list_ascii ∘ reverse
            <$> column_letter_loop index index []).

Example column_letter_examples :
  _column_letter 1 = Ok "A" ∧ _column_letter 26 = Ok "Z" ∧
  _column_letter 27 = Ok "AA" ∧ _column_letter 703 = Ok "AAA" ∧
  _column_letter 0 = Err (ValueError "Column index must be positive").
Proof. repeat split; vm_compute; reflexivity. Qed.

(** *** XML parts

    An XML part is modelled by the element tree its text denotes, with
    ElementTree's qualified names ([{uri}local]).  In a part as _written_,
    the text and the attribute values of an element are the characters of
    the file (escaped); [fromstring] below decodes them.  Whitespace between
    elements, the XML declaration and [xmlns] declarations are not kept. *)
#[local] Unset Elimination Schemes.
Inductive Element :=
  Elem (tag : string) (attrib : list (string * string))
       (text : option string) (children : list Element).

#[local] Set Elimination Schemes.

Definition tag_of (e : Element) : string := let 'Elem t _ _ _ := e in t.
Definition attrib_of (e : Element) : list (string * string) :=
  let 'Elem _ a _ _ := e in a.
Definition text_of (e : Element) : option string := let 'Elem _ _ x _ := e in x.
Definition children_of (e : Element) : list Element :=
  let 'Elem _ _ _ c := e in c.

Definition NS_MAIN : string :=
  "http://schemas.openxmlformats.org/spreadsheetml/2006/main".
Definition NS_DOC_REL : string :=
  "http://schemas.openxmlformats.org/officeDocument/2006/relationships".
Definition NS_PKG_REL : string :=
  "http://schemas.openxmlformats.org/package/2006/relationships".
Definition NS_CONTENT_TYPES : string :=
  "http://schemas.openxmlformats.org/package/2006/content-types".
Definition NS_XML : string := "http://www.w3.org/XML/1998/namespace".

(** The qualified name [{ns}local]. *)
Definition qname (ns local : string) : string := "{" +:+ ns +:+ "}" +:+ local.

(** [xml.sax.saxutils.escape] *)
Definition escape (data : string) : string :=
  str_replace "<" "&lt;" (str_replace ">" "&gt;" (str_replace "&" "&amp;" data)).

(** [f"{_column_letter(col_index)}{row_index}"] *)
Definition cell_ref_of (col_index row_index : nat) : result string :=
  letters ←r _column_letter col_index; Ok (letters +:+ pretty row_index).

(** The lines [_build_sheet_xml] appends for one cell, as elements: nothing
    for a cell with neither value nor formula; [<c r t><f/><v/></c>] for a
    formula cell; [<c r t="inlineStr"><is><t/></is></c>] otherwise. *)
Definition build_cell (row_index col_index : nat) (cell : CellValue)
    : result (list Element) :=
  if negb (truthy (value cell)) && negb (truthy_opt (formula cell)) then Ok []
  else
    cell_ref ←r cell_ref_of col_index row_index;
    if truthy_opt (formula cell) then
      let attrs := [("r", cell_ref)] ++
        (if truthy_opt (data_type cell)
         then [("t", default "" (data_type cell))] else []) in
      Ok [Elem (qname NS_MAIN "c") attrs None
            ([Elem (qname NS_MAIN "f") []
                (Some (escape (default "" (formula cell)))) []] ++
             (if truthy (value cell)
              then [Elem (qname NS_MAIN "v") [] (Some (escape (value cell))) []]
              else []))]
    else
      let escaped := str_replace LF "&#10;" (escape (value cell)) in
      let preserve :=
        if bool_decide (str_strip (value cell) ≠ value cell)
        then [(qname NS_XML "space", "preserve")] else [] in
      Ok [Elem (qname NS_MAIN "c") [("r", cell_ref); ("t", "inlineStr")] None
            [Elem (qname NS_MAIN "is") [] None
               [Elem (qname NS_MAIN "t") preserve (Some escaped) []]]].

(** [enumerate(l, start=1)] *)
Definition enumerate1 {A} (l : list A) : list (nat * A) := imap (λ i x, (i + 1, x)) l.

(** One [<row>] of [_build_sheet_xml]. *)
Definition build_row (max_cols : nat) (row_index : nat) (row : list CellValue)
    : result Element :=
  let attrs := [("r", pretty row_index); ("spans", "1:" +:+ pretty max_cols)] in
  let has_values :=
    existsb (λ cell, truthy (value cell) || truthy_opt (formula cell)) row in
  if negb has_values then Ok (Elem (qname NS_MAIN "row") attrs None [])
  else
    cells ←r rmapM (λ ic, build_cell row_index ic.1 ic.2) (enumerate1 row);
    Ok (Elem (qname NS_MAIN "row") attrs None (concat cells)).

Definition _build_sheet_xml (sheet : SheetData) : result Element :=
  let max_cols := max_list (length <$> sheet_rows sheet) in
  let max_cols := if decide (max_cols = 0) then 1 else max_cols in
  rows ←r rmapM (λ ir, build_row max_cols ir.1 ir.2) (enumerate1 (sheet_rows sheet));
  Ok (Elem (qname NS_MAIN "worksheet") [] None
        [Elem (qname NS_MAIN "sheetData") [] None rows]).

Definition _build_workbook_xml (sheet_names : list string) : Element :=
  Elem (qname NS_MAIN "workbook") [] None
    [Elem (qname NS_MAIN "sheets") [] None
       ((λ ix : nat * string,
           Elem (qname NS_MAIN "sheet")
             [("name", escape ix.2); ("sheetId", pretty ix.1);
              (qname NS_DOC_REL "id", "rId" +:+ pretty ix.1)] None [])
        <$> enumerate1 sheet_names)].

Definition _build_content_types_xml (sheet_count : nat) : Element :=
  let override (part ct : string) :=
    Elem (qname NS_CONTENT_TYPES "Override")
      [("PartName", part); ("ContentType", ct)] None [] in
  let default_ (ext ct : string) :=
    Elem (qname NS_CONTENT_TYPES "Default")
      [("Extension", ext); ("ContentType", ct)] None [] in
  Elem (qname NS_CONTENT_TYPES "Types") [] None
    ([default_ "rels" "application/vnd.openxmlformats-package.relationships+xml";
      default_ "xml" "application/xml";
      override "/xl/workbook.xml"
        "application/vnd.openxmlformats-officedocument.spreadsheetml.sheet.main+xml"]
     ++ ((λ index : nat,
            override ("/xl/worksheets/sheet" +:+ pretty index +:+ ".xml")
              "application/vnd.openxmlformats-officedocument.spreadsheetml.worksheet+xml")
         <$> seq 1 sheet_count)
     ++ [override "/xl/styles.xml"
           "application/vnd.openxmlformats-officedocument.spreadsheetml.styles+xml"]).

Definition relationship (id type target : string) : Element :=
  Elem (qname NS_PKG_REL "Relationship")
    [("Id", id); ("Type", type); ("Target", target)] None [].

Definition _build_root_rels_xml : Element :=
  Elem (qname NS_PKG_REL "Relationships") [] None
    [relationship "rId1" (NS_DOC_REL +:+ "/officeDocument") "xl/workbook.xml"].

Definition _build_workbook_rels_xml (sheet_count : nat) : Element :=
  Elem (qname NS_PKG_REL "Relationships") [] None
    (((λ index : nat,
         relationship ("rId" +:+ pretty index) (NS_DOC_REL +:+ "/worksheet")
           ("worksheets/sheet" +:+ pretty index +:+ ".xml"))
      <$> seq 1 sheet_count)
     ++ [relationship ("rId" +:+ pretty (sheet_count + 1))
           (NS_DOC_REL +:+ "/styles") "styles.xml"]).

Definition _build_styles_xml : Element :=
  let el (t : string) (a : list (string * string)) (c : list Element) :=
    Elem (qname NS_MAIN t) a None c in
  el "styleSheet" []
    [el "fonts" [("count", "1")]
       [el "font" []
          [el "sz" [("val", "11")] []; el "color" [("theme", "1")] [];
           el "name" [("val", "Calibri")] []; el "family" [("val", "2")] []]];
     el "fills" [("count", "2")]
       [el "fill" [] [el "patternFill" [("patternType", "none")] []];
        el "fill" [] [el "patternFill" [("patternType", "gray125")] []]];
     el "borders" [("count", "1")]
       [el "border" []
          [el "left" [] []; el "right" [] []; el "top" [] [];
           el "bottom" [] []; el "diagonal" [] []]];
     el "cellStyleXfs" [("count", "1")]
       [el "xf" [("numFmtId", "0"); ("fontId", "0"); ("fillId", "0");
                 ("borderId", "0")] []];
     el "cellXfs" [("count", "1")]
       [el "xf" [("numFmtId", "0"); ("fontId", "0"); ("fillId", "0");
                 ("borderId", "0"); ("xfId", "0")] []];
     el "cellStyles" [("count", "1")]
       [el "cellStyle" [("name", "Normal"); ("xfId", "0"); ("builtinId", "0")] []]].

(** A zip archive: its members by name. *)
Abbreviation ZipFile := (gmap string Element).

(** [zf.writestr(name, data)] *)
Definition writestr (name : string) (data : Element) (zf : ZipFile) : ZipFile :=
  <[name := data]> zf.

(** [write_xlsx]: the archive it writes at [path], or the error it raises.
    Nothing is written before every part is built. *)
Definition write_xlsx (sheets : list SheetData) : result ZipFile :=
  if decide (sheets = [])
  then Err (ValueError "Workbook must contain at least one sheet")
  else
    sheet_xml_data ←r rmapM _build_sheet_xml sheets;
    let workbook_xml := _build_workbook_xml (sheet_name <$> sheets) in
    let content_types_xml := _build_content_types_xml (length sheets) in
    let root_rels_xml := _build_root_rels_xml in
    let workbook_rels_xml := _build_workbook_rels_xml (length sheets) in
    let styles_xml := _build_styles_xml in
    let zf :=
      writestr "xl/styles.xml" styles_xml
        (writestr "xl/_rels/workbook.xml.rels" workbook_rels_xml
           (writestr "xl/workbook.xml" workbook_xml
              (writestr "_rels/.rels" root_rels_xml
                 (writestr "[Content_Types].xml" content_types_xml ∅)))) in
    Ok (foldl (λ zf id,
                 writestr ("xl/worksheets/sheet" +:+ pretty id.1 +:+ ".xml") id.2 zf)
              zf (enumerate1 sheet_xml_data)).

(** ** Reading XML parts (xml.etree.ElementTree) *)

(** A character XML 1.0 allows (code points below 256). *)
Definition xml_char (c : ascii) : bool :=
  let n := nat_of_ascii c in bool_decide (32 ≤ n ∨ n = 9 ∨ n = 10 ∨ n = 13).

(** The references the model resolves: the five predefined entities and
    the character reference the writer emits.  Any other reference is
    outside the model and reads as an error. *)
Definition xml_reference (name : string) : option ascii :=
  if decide (name = "amp") then Some "&"%char
  else if decide (name = "lt") then Some "<"%char
  else if decide (name = "gt") then Some ">"%char
  else if decide (name = "quot") then Some QUOTE
  else if decide (name = "apos") then Some "'"%char
  else if decide (name = "#10") then Some LF
  else None.

(** What the parser hands over for a run of characters of the file: inside
    a reference ([ref = Some name]) up to its [;]; otherwise a [<] or a stray
    control character is an error, a carriage return (with a line feed that
    follows it) reads as one line feed, and, in an attribute value
    ([attr = true]), a quote ends the value too early and a literal tab or
    line break reads as a space. *)
Fixpoint xml_decode (attr : bool) (ref : option string) (s : string)
    : option string :=
  match s with
  | EmptyString => match ref with None => Some EmptyString | Some _ => None end
  | String c s' =>
      match ref with
      | Some name =>
          if decide (c = ";"%char) then
            d ← xml_reference name; r ← xml_decode attr None s';
            Some (String d r)
          else xml_decode attr (Some (name +:+ String c EmptyString)) s'
      | None =>
          if decide (c = "&"%char) then xml_decode attr (Some EmptyString) s'
          else if decide (c = "<"%char) then None
          else if attr && bool_decide (c = QUOTE) then None
          else if decide (c = CR) then
            let nl := if attr then " "%char else LF in
            match s' with
            | String c' s'' =>
                if decide (c' = LF) then String nl <$> xml_decode attr None s''
                else String nl <$> xml_decode attr None s'
            | EmptyString => Some (String nl EmptyString)
            end
          else if attr && bool_decide (c = LF ∨ c = TAB) then
            String " "%char <$> xml_decode attr None s'
          else if xml_char c then String c <$> xml_decode attr None s'
          else None
      end
  end.

Definition xml_chardata : string → option string := xml_decode false None.
Definition xml_attvalue : string → option string := xml_decode true None.

(** [ET.fromstring] on a part as written: every attribute value and every
    text is decoded; an element without text, or with empty text, has
    [.text] [None]. *)
Fixpoint decode_element (e : Element) : option Element :=
  let 'Elem t a x c := e in
  a' ← mapM (λ kv : string * string, v ← xml_attvalue kv.2; Some (kv.1, v)) a;
  x' ← match x with
       | None => Some None
       | Some s => (λ d, if decide (d = "") then None else Some d) <$> xml_chardata s
       end;
  c' ← (fix go (l : list Element) : option (list Element) :=
          match l with
          | [] => Some []
          | e' :: l' => d ← decode_element e'; ds ← go l'; Some (d :: ds)
          end) c;
  Some (Elem t a' x' c').

Definition fromstring (data : Element) : result Element :=
  of_option ParseError (decode_element data).

(** [elem.get(key)] *)
Definition attr_get (key : string) (e : Element) : option string :=
  (λ ikv : nat * (string * string), ikv.2.2)
    <$> list_find (λ kv, kv.1 = key) (attrib_of e).

(** [elem.attrib[key]] *)
Definition attr_item (key : string) (e : Element) : result string :=
  of_option (KeyError key) (attr_get key e).

(** [elem.findall(tag)] and [elem.find(tag)]: the children with that tag. *)
Definition findall (tag : string) (e : Element) : list Element :=
  filter (λ c, tag_of c = tag) (children_of e).
Definition find (tag : string) (e : Element) : option Element :=
  head (findall tag e).

(** The descendants of an element, in document order. *)
Fixpoint descendants (e : Element) : list Element :=
  let 'Elem _ _ _ c := e in
  (fix go (l : list Element) : list Element :=
     match l with
     | [] => []
     | e' :: l' => e' :: descendants e' ++ go l'
     end) c.

(** [elem.findall(".//tag")] and [elem.find(".//tag")] *)
Definition findall_desc (tag : string) (e : Element) : list Element :=
  filter (λ c, tag_of c = tag) (descendants e).
Definition find_desc (tag : string) (e : Element) : option Element :=
  head (findall_desc tag e).

(** ** log_to_excel.py: decoding an archive *)

(** [ch.isalpha()] and [.upper()], on the letters of ASCII; other letters are
    outside the model. *)
Definition is_alpha (c : ascii) : bool :=
  let n := nat_of_ascii c in bool_decide (65 ≤ n ≤ 90 ∨ 97 ≤ n ≤ 122).
Definition upper (c : ascii) : ascii :=
  let n := nat_of_ascii c in
  if bool_decide (97 ≤ n ≤ 122) then ascii_of_nat (n - 32) else c.

Definition _column_index_from_ref (cell_ref : string) : nat :=
  let letters := filter (λ ch, is_alpha ch = true) (String.list_ascii_of_string cell_ref) in
  foldl (λ index char, index * 26 + (nat_of_ascii char - nat_of_ascii "A" + 1))
        0 (upper <$> letters).

(** [int(s)] for an optional sign and decimal digits between white space;
    [None] is [ValueError]. *)
Definition py_int (s : string) : option Z :=
  let digits (l : list ascii) : option Z :=
    if decide (l = []) then None
    else foldl (λ acc c, n ← acc; d ← Ascii.is_nat c; Some (10 * n + Z.of_nat d)%Z)
               (Some 0%Z) l in
  match String.list_ascii_of_string (str_strip s) with
  | "-"%char :: l => Z.opp <$> digits l
  | "+"%char :: l => digits l
  | l => digits l
  end.

(** [cells[k] = v] on a [dict], which keeps the order of first insertion. *)
Fixpoint dict_set {V} (k : nat) (v : V) (d : list (nat * V)) : list (nat * V) :=
  match d with
  | [] => [(k, v)]
  | (k', v') :: d' =>
      if decide (k' = k) then (k, v) :: d' else (k', v') :: dict_set k v d'
  end.

(** A loop whose body may raise. *)
Fixpoint rfoldl {A B} (f : A → B → result A) (a : A) (l : list B) : result A :=
  match l with
  | [] => Ok a
  | x :: l' => a' ←r f a x; rfoldl f a' l'
  end.

(** The body of [for cell in row.findall("s:c", ns)]; the state is
    [(cells, max_col)]. *)
Definition parse_cell (shared_strings : list string)
    (st : list (nat * CellValue) * nat) (cell : Element)
    : result (list (nat * CellValue) * nat) :=
  let '(cells, max_col) := st in
  let cell_ref := attr_get "r" cell in
  if negb (truthy_opt cell_ref) then Ok st
  else
    let col_index := _column_index_from_ref (default "" cell_ref) in
    let data_type := attr_get "t" cell in
    let formula_node := find (qname NS_MAIN "f") cell in
    let formula := formula_node ≫= text_of in
    let value_node := find (qname NS_MAIN "v") cell in
    text ←r
      (if bool_decide (data_type = Some "s") && bool_decide (is_Some value_node)
       then
         idx ←r of_option (ValueError "invalid literal for int()")
                  (py_int (let t := default "" (value_node ≫= text_of) in
                           if truthy t then t else "0"));
         Ok (if decide (0 ≤ idx < Z.of_nat (length shared_strings))%Z
             then default "" (shared_strings !! Z.to_nat idx) else "")
       else if bool_decide (data_type = Some "inlineStr") then
         Ok match find_desc (qname NS_MAIN "t") cell with
            | None => ""
            | Some t_node => default "" (text_of t_node)
            end
       else
         Ok match value_node with
            | Some v => default "" (text_of v)
            | None => ""
            end);
    Ok (dict_set col_index (mkCell text formula data_type) cells,
        max_col `max` col_index).

(** [row_values[col_index - 1] = cell_value]: index [-1] is the last slot. *)
Definition fill_row (max_col : nat) (cells : list (nat * CellValue))
    : list CellValue :=
  foldl (λ row_values kc,
           let i := if decide (kc.1 = 0) then max_col - 1 else kc.1 - 1 in
           <[i := kc.2]> row_values)
        (replicate max_col empty_cell) cells.

Definition parse_row (shared_strings : list string) (row : Element)
    : result (list CellValue) :=
  st ←r rfoldl (parse_cell shared_strings) ([], 0) (findall (qname NS_MAIN "c") row);
  let '(cells, max_col) := st in
  if decide (max_col = 0) then Ok [] else Ok (fill_row max_col cells).

Definition _parse_sheet_rows (xml_bytes : Element) (shared_strings : list string)
    : result (list (list CellValue)) :=
  root ←r fromstring xml_bytes;
  rmapM (parse_row shared_strings)
    (findall (qname NS_MAIN "sheetData") root
       ≫= findall (qname NS_MAIN "row")).

(** ** Facts about strings, escaping and decoding *)

Lemma app_String c s t : String c s +:+ t = String c (s +:+ t).
Proof. done. Qed.

Lemma app_Empty t : "" +:+ t = t.
Proof. done. Qed.

(** Unfold a literal prefix. *)
Ltac str_cons := rewrite ?app_String, ?app_Empty.

Lemma str_app_assoc s t u : (s +:+ t) +:+ u = s +:+ (t +:+ u).
Proof. induction s as [|c s IH]; [done|]. by rewrite !app_String, IH. Qed.

Lemma str_length_app s t :
  String.length (s +:+ t) = String.length s + String.length t.
Proof. induction s as [|c s IH]; [done|]. rewrite app_String. simpl. by rewrite IH. Qed.

Lemma list_ascii_app s t :
  String.list_ascii_of_string (s +:+ t)
  = String.list_ascii_of_string s ++ String.list_ascii_of_string t.
Proof. induction s as [|c s IH]; [done|]. rewrite app_String. simpl. by rewrite IH. Qed.

Lemma str_replace_app old new s1 s2 :
  str_replace old new (s1 +:+ s2)
  = str_replace old new s1 +:+ str_replace old new s2.
Proof.
  induction s1 as [|c s1 IH]; [done|].
  rewrite app_String. simpl. rewrite IH.
  destruct (decide (c = old)); [|done].
  by rewrite str_app_assoc.
Qed.

Lemma str_replace_eq old new s :
  str_replace old new (String old s) = new +:+ str_replace old new s.
Proof. simpl. by rewrite decide_True. Qed.

Lemma str_replace_ne old new c s :
  c ≠ old → str_replace old new (String c s) = String c (str_replace old new s).
Proof. intros. simpl. by rewrite decide_False. Qed.

(** What [escape], followed or not by [.replace("\n", "&#10;")], writes for
    one character. *)
Definition escaped_char (newlines : bool) (c : ascii) : string :=
  if decide (c = "&"%char) then "&amp;"
  else if decide (c = ">"%char) then "&gt;"
  else if decide (c = "<"%char) then "&lt;"
  else if newlines && bool_decide (c = LF) then "&#10;"
  else String c "".

Lemma escape_String c s : escape (String c s) = escaped_char false c +:+ escape s.
Proof.
  unfold escape, escaped_char.
  destruct (decide (c = "&"%char)) as [->|].
  { by rewrite str_replace_eq, !str_replace_app. }
  rewrite (str_replace_ne "&") by done.
  destruct (decide (c = ">"%char)) as [->|].
  { by rewrite str_replace_eq, !str_replace_app. }
  rewrite (str_replace_ne ">") by done.
  destruct (decide (c = "<"%char)) as [->|].
  { by rewrite str_replace_eq. }
  by rewrite (str_replace_ne "<") by done.
Qed.

Lemma escape_newlines_String c s :
  str_replace LF "&#10;" (escape (String c s))
  = escaped_char true c +:+ str_replace LF "&#10;" (escape s).
Proof.
  rewrite escape_String, str_replace_app. f_equal.
  unfold escaped_char.
  repeat (case_decide; [subst; done|]). simpl.
  by rewrite decide_False.
Qed.

(** The characters the XML layer carries unchanged in element text: tab,
    line feed and everything from the space on (a carriage return would
    come back as a line feed, another control character is not XML). *)
Definition plain_char (c : ascii) : bool :=
  let n := nat_of_ascii c in bool_decide (32 ≤ n ∨ n = 9 ∨ n = 10).
Definition xml_plain (s : string) : bool :=
  forallb plain_char (String.list_ascii_of_string s).

(** ... and in an attribute value written between double quotes without
    escaping. *)
Definition attr_char (c : ascii) : bool :=
  let n := nat_of_ascii c in
  bool_decide (32 ≤ n ∧ c ≠ "&"%char ∧ c ≠ "<"%char ∧ c ≠ QUOTE).
Definition attr_plain (s : string) : bool :=
  forallb attr_char (String.list_ascii_of_string s).

Lemma xml_plain_String c s :
  xml_plain (String c s) = true ↔ plain_char c = true ∧ xml_plain s = true.
Proof. unfold xml_plain; simpl. by rewrite andb_true_iff. Qed.

Lemma attr_plain_String c s :
  attr_plain (String c s) = true ↔ attr_char c = true ∧ attr_plain s = true.
Proof. unfold attr_plain; simpl. by rewrite andb_true_iff. Qed.

Lemma attr_plain_app s t :
  attr_plain s = true → attr_plain t = true → attr_plain (s +:+ t) = true.
Proof.
  induction s as [|c s IH]; [done|]. rewrite app_String, !attr_plain_String.
  intros [??] ?. auto.
Qed.

Lemma xml_decode_escaped newlines c s :
  plain_char c = true →
  xml_decode false None (escaped_char newlines c +:+ s)
  = String c <$> xml_decode false None s.
Proof.
  intros Hc. unfold escaped_char.
  destruct (decide (c = "&"%char)) as [->|?].
  { str_cons. simpl. by destruct (xml_decode false None s). }
  destruct (decide (c = ">"%char)) as [->|?].
  { str_cons. simpl. by destruct (xml_decode false None s). }
  destruct (decide (c = "<"%char)) as [->|?].
  { str_cons. simpl. by destruct (xml_decode false None s). }
  destruct (newlines && bool_decide (c = LF)) eqn:Hn.
  { apply andb_true_iff in Hn as [_ ->%bool_decide_eq_true].
    str_cons. simpl. by destruct (xml_decode false None s). }
  str_cons. simpl. rewrite !decide_False by done.
  assert (c ≠ CR) as Hcr.
  { intros ->. by vm_compute in Hc. }
  rewrite decide_False by done.
  assert (xml_char c = true) as ->; [|done].
  unfold plain_char in Hc. unfold xml_char.
  apply bool_decide_eq_true in Hc. apply bool_decide_eq_true. lia.
Qed.

(** Element text written through [escape] reads back unchanged. *)
Lemma chardata_escape s :
  xml_plain s = true → xml_chardata (escape s) = Some s.
Proof.
  unfold xml_chardata. induction s as [|c s IH]; [done|].
  intros [Hc Hs]%xml_plain_String.
  rewrite escape_String, xml_decode_escaped, IH by auto. done.
Qed.

Lemma chardata_escape_newlines s :
  xml_plain s = true →
  xml_chardata (str_replace LF "&#10;" (escape s)) = Some s.
Proof.
  unfold xml_chardata. induction s as [|c s IH]; [done|].
  intros [Hc Hs]%xml_plain_String.
  rewrite escape_newlines_String, xml_decode_escaped, IH by auto. done.
Qed.

(** A plain attribute value reads back unchanged. *)
Lemma attvalue_plain s : attr_plain s = true → xml_attvalue s = Some s.
Proof.
  unfold xml_attvalue. induction s as [|c s IH]; [done|].
  intros [Hc Hs]%attr_plain_String. simpl.
  unfold attr_char in Hc. apply bool_decide_eq_true in Hc as (Hge & ? & ? & ?).
  assert (c ≠ CR ∧ c ≠ LF ∧ c ≠ TAB) as (? & ? & ?).
  { repeat split; intros ->; vm_compute in Hge; lia. }
  rewrite !decide_False by done.
  rewrite (bool_decide_eq_false_2 (c = QUOTE)) by done. simpl.
  rewrite bool_decide_eq_false_2 by (by intros [?|?]).
  assert (xml_char c = true) as ->.
  { unfold xml_char. apply bool_decide_eq_true. lia. }
  by rewrite IH.
Qed.

(** *** Decimal numbers and column letters *)

Definition is_digit (c : ascii) : bool :=
  let n := nat_of_ascii c in bool_decide (48 ≤ n ≤ 57).
Definition all_digits (s : string) : bool :=
  forallb is_digit (String.list_ascii_of_string s).

Lemma pretty_N_go_digits x : ∀ s,
  all_digits s = true → all_digits (pretty_N_go x s) = true.
Proof.
  induction (N.lt_wf_0 x) as [x _ IH]; intros s Hs.
  destruct (decide (x = 0)%N) as [->|Hx]; [by rewrite pretty_N_go_0|].
  rewrite pretty_N_go_step by lia. apply IH.
  - apply N.div_lt; lia.
  - unfold all_digits in *; simpl. rewrite Hs, andb_true_r.
    unfold pretty_N_char. by repeat case_match.
Qed.

Lemma pretty_nat_digits (n : nat) : all_digits (pretty n) = true.
Proof.
  unfold pretty, pretty_nat, pretty, pretty_N.
  case_decide; [done|]. by apply pretty_N_go_digits.
Qed.

Lemma digit_attr_char c : is_digit c = true → attr_char c = true.
Proof.
  unfold is_digit, attr_char. intros H%bool_decide_eq_true.
  apply bool_decide_eq_true. repeat split; [lia|..]; intros ->; vm_compute in H; lia.
Qed.

Lemma digit_not_alpha c : is_digit c = true → is_alpha c = false.
Proof.
  unfold is_digit, is_alpha. intros H%bool_decide_eq_true.
  apply bool_decide_eq_false. lia.
Qed.

Lemma all_digits_attr_plain s : all_digits s = true → attr_plain s = true.
Proof.
  unfold all_digits, attr_plain. rewrite !forallb_forall.
  intros H c Hc. by apply digit_attr_char, H.
Qed.

Definition is_upper (c : ascii) : bool :=
  let n := nat_of_ascii c in bool_decide (65 ≤ n ≤ 90).

(** The value of column letters read from the least significant one. *)
Definition letters_value (l : list ascii) : nat :=
  foldr (λ c acc, (nat_of_ascii c - 64) + 26 * acc) 0 l.

Lemma column_letter_loop_spec fuel : ∀ index letters,
  index ≤ fuel →
  ∃ l, column_letter_loop fuel index letters = Some (letters ++ l) ∧
    forallb is_upper l = true ∧ letters_value l = index.
Proof.
  induction fuel as [|fuel IH]; intros index letters Hfuel.
  - exists []. simpl. rewrite decide_True by lia. rewrite app_nil_r.
    repeat split; simpl; lia.
  - cbn [column_letter_loop]. destruct (decide (index = 0)) as [->|Hi].
    { exists []. by rewrite app_nil_r. }
    pose proof (Nat.mod_upper_bound (index - 1) 26) as Hr.
    pose proof (Nat.div_mod_eq (index - 1) 26) as Hq.
    assert (nat_of_ascii (ascii_of_nat (65 + (index - 1) `mod` 26))
            = 65 + (index - 1) `mod` 26) as Hcode.
    { apply nat_ascii_embedding. lia. }
    set (ch := ascii_of_nat (65 + (index - 1) `mod` 26)) in *. clearbody ch.
    destruct (IH ((index - 1) `div` 26) (letters ++ [ch]))
      as (l & -> & Hup & Hval).
    { assert ((index - 1) `div` 26 ≤ index - 1); [|lia].
      apply Nat.Div0.div_le_upper_bound. lia. }
    exists (ch :: l). rewrite <-app_assoc. split; [done|].
    split; simpl.
    + rewrite Hup, andb_true_r. unfold is_upper. rewrite Hcode.
      apply bool_decide_eq_true. lia.
    + rewrite Hcode, Hval. lia.
Qed.

(** [_column_letter] returns for every positive index. *)
Lemma column_letter_Ok index :
  1 ≤ index →
  ∃ l, _column_letter index = Ok (String.string_of_list_ascii (reverse l)) ∧
    forallb is_upper l = true ∧ letters_value l = index.
Proof.
  intros Hi. unfold _column_letter. rewrite decide_False by lia.
  destruct (column_letter_loop_spec index index []) as (l & -> & ? & ?); [done|].
  exists l. done.
Qed.

Lemma upper_is_alpha c : is_upper c = true → is_alpha c = true ∧ upper c = c.
Proof.
  unfold is_upper, is_alpha, upper. intros H%bool_decide_eq_true. split.
  - apply bool_decide_eq_true. lia.
  - rewrite bool_decide_eq_false_2; [done|lia].
Qed.

Lemma foldl_letters_value l :
  foldl (λ index char, index * 26 + (nat_of_ascii char - nat_of_ascii "A" + 1))
        0 (reverse l) = letters_value l ∨ ¬ forallb is_upper l = true.
Proof.
  destruct (forallb is_upper l) eqn:Hup; [left|by right].
  induction l as [|c l IH]; [done|].
  simpl in Hup. apply andb_true_iff in Hup as [Hc Hup].
  rewrite reverse_cons, foldl_app. simpl. rewrite IH by done.
  unfold is_upper in Hc. apply bool_decide_eq_true in Hc.
  change (nat_of_ascii "A") with 65. lia.
Qed.

(** The column index read back from a cell reference. *)
Lemma column_index_of_ref l (row_index : nat) :
  forallb is_upper l = true →
  _column_index_from_ref
    (String.string_of_list_ascii (reverse l) +:+ pretty row_index)
  = letters_value l.
Proof.
  intros Hup. unfold _column_index_from_ref.
  rewrite list_ascii_app, String.list_ascii_of_string_of_list_ascii, filter_app.
  assert (filter (λ ch, is_alpha ch = true)
            (String.list_ascii_of_string (pretty row_index)) = []) as ->.
  { pose proof (pretty_nat_digits row_index) as Hd. unfold all_digits in Hd.
    induction (String.list_ascii_of_string (pretty row_index)) as [|c k IH];
      [done|].
    simpl in Hd. apply andb_true_iff in Hd as [Hc Hd].
    rewrite filter_cons_False; [by apply IH|].
    rewrite (digit_not_alpha _ Hc). done. }
  rewrite app_nil_r.
  assert (upper <$> filter (λ ch, is_alpha ch = true) (reverse l) = reverse l)
    as ->.
  { assert (Forall (λ c, is_upper c = true) (reverse l)) as Hall.
    { apply Forall_reverse, Forall_forall. intros c Hc.
      rewrite forallb_forall in Hup. apply Hup. by apply list_elem_of_In. }
    induction Hall as [|c k Hc _ IH]; [done|].
    destruct (upper_is_alpha c Hc) as [Ha Hu].
    rewrite filter_cons_True by done. rewrite fmap_cons, Hu. by f_equal. }
  destruct (foldl_letters_value l) as [->|]; done.
Qed.

(** *** One cell, written and read back *)

Global Instance qname_inj ns : Inj (=) (=) (qname ns).
Proof.
  intros a b H. unfold qname in H.
  by do 3 apply (inj (String.app _)) in H.
Qed.

(** Decide the comparisons of qualified names of one namespace. *)
Ltac tag_cases :=
  repeat match goal with
  | |- context [decide (qname ?n ?a = qname ?n ?b)] =>
      destruct (decide (qname n a = qname n b)) as [?Heq|?Hne];
        [try (by apply (inj (qname n)) in Heq)|try (by destruct Hne)]
  end.

(** A cell that is written: it has a value or a formula. *)
Definition nonempty (cell : CellValue) : bool :=
  truthy (value cell) || truthy_opt (formula cell).

(** The texts of a cell that the XML layer carries unchanged, and a type
    hint of a formula cell that neither breaks the [t] attribute nor makes
    the reader look for the value elsewhere than in [<v>]. *)
Definition cell_ok (cell : CellValue) : bool :=
  xml_plain (value cell) && xml_plain (default "" (formula cell)) &&
  (if truthy_opt (formula cell) && truthy_opt (data_type cell)
   then attr_plain (default "" (data_type cell)) &&
        negb (bool_decide (data_type cell = Some "s")) &&
        negb (bool_decide (data_type cell = Some "inlineStr"))
   else true).

(** What a written cell reads back as. *)
Definition parsed (cell : CellValue) : CellValue :=
  if truthy_opt (formula cell)
  then mkCell (value cell) (formula cell)
         (if truthy_opt (data_type cell) then data_type cell else None)
  else mkCell (value cell) None (Some "inlineStr").

Lemma truthy_opt_Some o :
  truthy_opt o = true → ∃ s, o = Some s ∧ s ≠ "".
Proof.
  destruct o as [s|]; [|done]. unfold truthy_opt, truthy.
  intros H%bool_decide_eq_true. eauto.
Qed.

Lemma cell_ref_Ok col row_index :
  1 ≤ col →
  ∃ ref, cell_ref_of col row_index = Ok ref ∧ ref ≠ "" ∧
    attr_plain ref = true ∧ _column_index_from_ref ref = col.
Proof.
  intros Hcol. destruct (column_letter_Ok col Hcol) as (l & Hl & Hup & Hval).
  unfold cell_ref_of. rewrite Hl. simpl. eexists. split; [done|].
  split; [|split].
  - destruct l as [|c l]; [simpl in Hval; lia|].
    rewrite reverse_cons. intros Hempty.
    apply (f_equal String.length) in Hempty. rewrite str_length_app in Hempty.
    assert (String.length (String.string_of_list_ascii (reverse l ++ [c])) ≠ 0);
      [|simpl in *; lia].
    destruct (reverse l); simpl; lia.
  - apply attr_plain_app; [|apply all_digits_attr_plain, pretty_nat_digits].
    unfold attr_plain. rewrite String.list_ascii_of_string_of_list_ascii.
    apply forallb_forall. intros c Hc%list_elem_of_In.
    rewrite elem_of_reverse in Hc.
    rewrite forallb_forall in Hup. apply list_elem_of_In, Hup in Hc.
    unfold is_upper in Hc. apply bool_decide_eq_true in Hc.
    apply bool_decide_eq_true.
    repeat split; [lia|..]; intros ->; vm_compute in Hc; lia.
  - by rewrite column_index_of_ref.
Qed.

Lemma build_cell_empty r col cell :
  nonempty cell = false → build_cell r col cell = Ok [].
Proof. unfold nonempty, build_cell. by intros [-> ->]%orb_false_iff. Qed.

Lemma truthy_true s : truthy s = true → s ≠ "".
Proof. by intros ?%bool_decide_eq_true. Qed.

Lemma truthy_false s : truthy s = false → s = "".
Proof. intros H%bool_decide_eq_false. by destruct (decide (s = "")). Qed.

(** The two halves of reading a written cell back: the element decodes,
    and the decoded element parses. *)
Ltac decode_cell :=
  simpl; rewrite ?attvalue_plain by done; simpl;
  rewrite ?chardata_escape, ?chardata_escape_newlines by done; simpl;
  by rewrite ?decide_False by done.

Arguments py_int : simpl never.

Ltac parse_cell_tac Htr Hidx :=
  unfold parse_cell, attr_get, find, findall, find_desc, findall_desc;
  cbn -[py_int _column_index_from_ref];
  tag_cases;
  repeat (rewrite decide_True by done || rewrite decide_False by done);
  cbn -[py_int _column_index_from_ref];
  rewrite ?bool_decide_eq_false_2 by done;
  cbn -[py_int _column_index_from_ref];
  rewrite Htr; cbn -[py_int _column_index_from_ref]; by rewrite Hidx.

Lemma build_cell_parse r col cell ss st :
  1 ≤ col → cell_ok cell = true → nonempty cell = true →
  ∃ e e', build_cell r col cell = Ok [e] ∧ decode_element e = Some e' ∧
    tag_of e' = qname NS_MAIN "c" ∧
    parse_cell ss st e' = Ok (dict_set col (parsed cell) st.1, st.2 `max` col).
Proof.
  intros Hcol Hok Hne.
  destruct (cell_ref_Ok col r Hcol) as (ref & Href & Hrne & Hplain & Hidx).
  assert (truthy ref = true) as Htr by (by apply bool_decide_eq_true).
  unfold cell_ok in Hok. apply andb_true_iff in Hok as [Hok Hdt].
  apply andb_true_iff in Hok as [Hv Hf].
  unfold build_cell. unfold nonempty in Hne.
  apply orb_true_iff in Hne.
  assert (negb (truthy (value cell)) && negb (truthy_opt (formula cell)) = false) as ->.
  { destruct Hne as [-> | ->]; [done|]. by rewrite andb_false_r. }
  rewrite Href. cbn [rbind]. unfold parsed.
  destruct st as [cells max_col].
  destruct (truthy_opt (formula cell)) eqn:Htf.
  - destruct (truthy_opt_Some _ Htf) as (f & Hfeq & Hfne).
    rewrite Hfeq in *. simpl in Hf, Hdt.
    destruct (truthy_opt (data_type cell)) eqn:Htd;
      destruct (truthy (value cell)) eqn:Htv;
      try (pose proof (truthy_true _ Htv) as Hvne);
      try (pose proof (truthy_false _ Htv) as Hve).
    + destruct (truthy_opt_Some _ Htd) as (dt & Hdteq & Hdtne).
      rewrite Hdteq in *. simpl in Hdt.
      apply andb_true_iff in Hdt as [Hdt Hdt2].
      apply andb_true_iff in Hdt as [Hdt0 Hdt1].
      apply negb_true_iff, bool_decide_eq_false in Hdt1, Hdt2.
      eexists _, _. split; [done|]. split; [decode_cell|]. split; [done|].
      parse_cell_tac Htr Hidx.
    + destruct (truthy_opt_Some _ Htd) as (dt & Hdteq & Hdtne).
      rewrite Hdteq in *. simpl in Hdt.
      apply andb_true_iff in Hdt as [Hdt Hdt2].
      apply andb_true_iff in Hdt as [Hdt0 Hdt1].
      apply negb_true_iff, bool_decide_eq_false in Hdt1, Hdt2.
      eexists _, _. split; [done|]. split; [decode_cell|]. split; [done|].
      rewrite Hve. parse_cell_tac Htr Hidx.
    + eexists _, _. split; [done|]. split; [decode_cell|]. split; [done|].
      parse_cell_tac Htr Hidx.
    + eexists _, _. split; [done|]. split; [decode_cell|]. split; [done|].
      rewrite Hve. parse_cell_tac Htr Hidx.
  - destruct Hne as [Htv|]; [|done].
    pose proof (truthy_true _ Htv) as Hvne.
    destruct (bool_decide (str_strip (value cell) ≠ value cell));
      (eexists _, _; split; [done|]; split; [decode_cell|]; split; [done|];
       parse_cell_tac Htr Hidx).
Qed.

(** *** One row, written and read back *)

Lemma rmapM_app {A B} (f : A → result B) l1 l2 ys1 ys2 :
  rmapM f l1 = Ok ys1 → rmapM f l2 = Ok ys2 →
  rmapM f (l1 ++ l2) = Ok (ys1 ++ ys2).
Proof.
  revert ys1. induction l1 as [|x l1 IH]; intros ys1; simpl.
  - by intros [= <-] ->.
  - destruct (f x) as [y|]; [|done]. simpl.
    destruct (rmapM f l1) as [ys|]; [|done]. simpl.
    intros [= <-] H2. by rewrite (IH ys eq_refl H2).
Qed.

Lemma rfoldl_app {A B} (f : A → B → result A) a l1 l2 :
  rfoldl f a (l1 ++ l2) = rbind (rfoldl f a l1) (λ a', rfoldl f a' l2).
Proof.
  revert a. induction l1 as [|x l1 IH]; intros a; simpl; [done|].
  destruct (f a x); simpl; [apply IH|done].
Qed.

(** The children of an element are decoded one after the other. *)
Lemma decode_element_unfold t a x c :
  decode_element (Elem t a x c) =
    a' ← mapM (λ kv : string * string, v ← xml_attvalue kv.2; Some (kv.1, v)) a;
    x' ← match x with
         | None => Some None
         | Some s => (λ d, if decide (d = "") then None else Some d) <$> xml_chardata s
         end;
    c' ← mapM decode_element c;
    Some (Elem t a' x' c').
Proof.
  assert ((fix go (l : list Element) : option (list Element) :=
             match l with
             | [] => Some []
             | e' :: l' => d ← decode_element e'; ds ← go l'; Some (d :: ds)
             end) c = mapM decode_element c) as Hgo.
  { induction c as [|e c IH]; [done|].
    simpl. destruct (decode_element e); simpl; [|done]. by rewrite IH. }
  simpl. by rewrite Hgo.
Qed.

(** The cells of a row that are written, with their 1-based columns, as
    they read back; and the last column that is written. *)
Definition row_entries (row : list CellValue) : list (nat * CellValue) :=
  omap (λ ic : nat * CellValue,
          if nonempty ic.2 then Some (ic.1, parsed ic.2) else None)
       (enumerate1 row).
Definition row_max_col (row : list CellValue) : nat :=
  foldl (λ m (ic : nat * CellValue), if nonempty ic.2 then m `max` ic.1 else m)
        0 (enumerate1 row).

Lemma enumerate1_snoc {A} (l : list A) x :
  enumerate1 (l ++ [x]) = enumerate1 l ++ [(length l + 1, x)].
Proof. unfold enumerate1. rewrite imap_app. simpl. by rewrite Nat.add_0_r. Qed.

Lemma row_entries_snoc row cell :
  row_entries (row ++ [cell])
  = row_entries row ++
      (if nonempty cell then [(length row + 1, parsed cell)] else []).
Proof.
  unfold row_entries. rewrite enumerate1_snoc, omap_app. simpl.
  by destruct (nonempty cell).
Qed.

Lemma row_max_col_snoc row cell :
  row_max_col (row ++ [cell])
  = if nonempty cell then row_max_col row `max` (length row + 1)
    else row_max_col row.
Proof. unfold row_max_col. by rewrite enumerate1_snoc, foldl_app. Qed.

Lemma row_max_col_le row : row_max_col row ≤ length row.
Proof.
  induction row as [|cell row IH] using rev_ind; [done|].
  rewrite row_max_col_snoc, length_app. simpl. destruct (nonempty cell); lia.
Qed.

Lemma row_entries_keys row :
  Forall (λ kc : nat * CellValue, 1 ≤ kc.1 ≤ row_max_col row) (row_entries row).
Proof.
  induction row as [|cell row IH] using rev_ind; [constructor|].
  rewrite row_entries_snoc, row_max_col_snoc.
  pose proof (row_max_col_le row).
  apply Forall_app. split.
  - eapply Forall_impl; [exact IH|]. simpl. intros. destruct (nonempty cell); lia.
  - destruct (nonempty cell); repeat constructor; simpl; lia.
Qed.

Lemma dict_set_fresh {V} (k : nat) (v : V) d :
  Forall (λ kc : nat * V, kc.1 ≠ k) d → dict_set k v d = d ++ [(k, v)].
Proof.
  induction 1 as [|[k' v'] d Hk _ IH]; [done|].
  simpl in *. rewrite decide_False by done. by rewrite IH.
Qed.

Lemma build_cells_parse r row :
  Forall (λ cell, cell_ok cell = true) row →
  ∃ els els',
    rmapM (λ ic : nat * CellValue, build_cell r ic.1 ic.2) (enumerate1 row)
      = Ok els ∧
    mapM decode_element (concat els) = Some els' ∧
    (row_max_col row = 0 → concat els = []) ∧
    Forall (λ e, tag_of e = qname NS_MAIN "c") els' ∧
    ∀ ss, rfoldl (parse_cell ss) ([], 0) els'
          = Ok (row_entries row, row_max_col row).
Proof.
  induction row as [|cell row IH] using rev_ind; intros Hok.
  { exists [], []. by repeat split. }
  apply Forall_app in Hok as [Hrow [Hcell _]%Forall_cons].
  destruct (IH Hrow) as (els & els' & Hels & Hdec & Hnil & Htags & Hparse).
  rewrite enumerate1_snoc, row_entries_snoc, row_max_col_snoc.
  destruct (nonempty cell) eqn:Hne.
  - destruct (build_cell_parse r (length row + 1) cell [] ([], 0))
      as (e & e' & He & Hde & Hte & _); [lia|done|done|].
    exists (els ++ [[e]]), (els' ++ [e']). split; [|split; [|split; [|split]]].
    + apply rmapM_app; [done|]. simpl. by rewrite He.
    + rewrite concat_app. simpl. apply mapM_Some_2, Forall2_app.
      * by apply mapM_Some_1.
      * by repeat constructor.
    + lia.
    + apply Forall_app. by repeat constructor.
    + intros ss.
      destruct (build_cell_parse r (length row + 1) cell ss
                  (row_entries row, row_max_col row))
        as (e1 & e1' & He1 & Hde1 & _ & Hp); [lia|done|done|].
      rewrite He in He1. injection He1 as <-.
      rewrite Hde in Hde1. injection Hde1 as <-.
      rewrite rfoldl_app, Hparse. cbn [rbind rfoldl]. rewrite Hp. simpl.
      rewrite dict_set_fresh; [done|].
      eapply Forall_impl; [apply row_entries_keys|]. simpl.
      pose proof (row_max_col_le row). intros. lia.
  - exists (els ++ [[]]), els'. split; [|split; [|split; [|split]]].
    + apply rmapM_app; [done|]. simpl. by rewrite build_cell_empty.
    + rewrite concat_app. simpl. by rewrite app_nil_r.
    + intros H0. rewrite concat_app. simpl. rewrite app_nil_r. by apply Hnil.
    + done.
    + intros ss. by rewrite app_nil_r.
Qed.

Lemma lookup_resize_default {A} (l : list A) n x i :
  resize n x l !! i = if decide (i < n) then Some (default x (l !! i)) else None.
Proof.
  rewrite resize_spec. destruct (decide (i < n)).
  - destruct (decide (i < length l)) as [Hi|Hi].
    + rewrite lookup_app_l by (rewrite length_take; lia).
      rewrite lookup_take_lt by done.
      by destruct (lookup_lt_is_Some_2 l i Hi) as [y ->].
    + rewrite lookup_app_r by (rewrite length_take; lia).
      rewrite lookup_replicate_2 by (rewrite length_take; lia).
      by rewrite lookup_ge_None_2 by lia.
  - apply lookup_ge_None_2. rewrite length_app, length_take, length_replicate. lia.
Qed.

(** What a cell reads back as, written or not. *)
Definition read_back (cell : CellValue) : CellValue :=
  if nonempty cell then parsed cell else empty_cell.

(** Filling the row puts every written cell at its column. *)
Lemma fill_row_entries row : ∀ max_col,
  row_max_col row ≤ max_col →
  fill_row max_col (row_entries row)
  = resize max_col empty_cell (read_back <$> row).
Proof.
  unfold fill_row.
  induction row as [|cell row IH] using rev_ind; intros max_col Hmax.
  { change (read_back <$> []) with (@nil CellValue). by rewrite resize_nil. }
  rewrite row_max_col_snoc in Hmax.
  rewrite row_entries_snoc, foldl_app, IH by (destruct (nonempty cell); lia).
  assert (read_back cell = if nonempty cell then parsed cell else empty_cell)
    as Hrb by done.
  assert (∀ i, ((read_back <$> row) ++ [read_back cell]) !! i
               = if decide (i = length row) then Some (read_back cell)
                 else (read_back <$> row) !! i) as Hsnoc.
  { intros i. destruct (decide (i = length row)) as [->|].
    - by rewrite lookup_app_r, length_fmap, Nat.sub_diag by (by rewrite length_fmap).
    - destruct (decide (i < length row)).
      + by rewrite lookup_app_l by (by rewrite length_fmap).
      + rewrite !lookup_ge_None_2; [done|..];
          rewrite ?length_app, length_fmap; simpl; lia. }
  apply list_eq. intros i.
  rewrite fmap_app, (lookup_resize_default (_ ++ _)), Hsnoc.
  change (read_back <$> [cell]) with [read_back cell] in *.
  destruct (nonempty cell) eqn:Hne; cbn [foldl fst snd].
  - rewrite decide_False by lia.
    replace (length row + 1 - 1) with (length row) by lia.
    destruct (decide (i = length row)) as [->|Hi].
    + rewrite list_lookup_insert_eq by (rewrite length_resize; lia).
      rewrite decide_True by lia. by rewrite Hrb.
    + rewrite list_lookup_insert_ne by done.
      by rewrite lookup_resize_default.
  - rewrite lookup_resize_default. case_decide; [|done]. f_equal.
    destruct (decide (i = length row)) as [->|]; [|done].
    by rewrite Hrb, lookup_ge_None_2 by (by rewrite length_fmap).
Qed.

(** What a written row reads back as. *)
Definition row_image (row : list CellValue) : list CellValue :=
  if decide (row_max_col row = 0) then []
  else resize (row_max_col row) empty_cell (read_back <$> row).

Lemma row_max_col_0 row :
  row_max_col row = 0 ↔ Forall (λ cell, nonempty cell = false) row.
Proof.
  induction row as [|cell row IH] using rev_ind; [by split; [constructor|]|].
  rewrite row_max_col_snoc, Forall_app, Forall_singleton, <-IH.
  destruct (nonempty cell); split; [lia|by intros [_ ?]|done|by intros [? _]].
Qed.

Lemma has_values_max_col row :
  existsb (λ cell, truthy (value cell) || truthy_opt (formula cell)) row
  = negb (bool_decide (row_max_col row = 0)).
Proof.
  destruct (existsb _ row) eqn:Hex.
  - apply existsb_exists in Hex as (cell & Hin & Hcell). symmetry.
    apply negb_true_iff, bool_decide_eq_false. rewrite row_max_col_0.
    rewrite Forall_forall. intros Hall.
    apply list_elem_of_In, Hall in Hin. unfold nonempty in Hin. congruence.
  - symmetry. apply negb_false_iff, bool_decide_eq_true, row_max_col_0.
    apply Forall_forall. intros cell Hin%list_elem_of_In.
    destruct (nonempty cell) eqn:Hne; [|done].
    assert (existsb (λ cell, truthy (value cell) || truthy_opt (formula cell)) row
            = true); [|congruence].
    apply existsb_exists. eauto.
Qed.

Lemma build_row_parse max_cols r row ss :
  Forall (λ cell, cell_ok cell = true) row →
  ∃ e e', build_row max_cols r row = Ok e ∧ decode_element e = Some e' ∧
    tag_of e' = qname NS_MAIN "row" ∧ parse_row ss e' = Ok (row_image row).
Proof.
  intros Hok.
  destruct (build_cells_parse r row Hok)
    as (els & els' & Hels & Hdec & Hnil & Htags & Hparse).
  assert (attr_plain (pretty r) = true ∧
          attr_plain ("1:" +:+ pretty max_cols) = true) as [Hr Hspans].
  { split; [|apply attr_plain_app; [done|]];
      apply all_digits_attr_plain, pretty_nat_digits. }
  assert (findall (qname NS_MAIN "c")
            (Elem (qname NS_MAIN "row")
               [("r", pretty r); ("spans", "1:" +:+ pretty max_cols)] None els')
          = els') as Hall.
  { unfold findall; simpl. clear -Htags.
    induction Htags as [|e k He _ IH]; [done|].
    by rewrite filter_cons_True, IH by done. }
  unfold build_row. rewrite has_values_max_col.
  destruct (decide (row_max_col row = 0)) as [H0|H0].
  - rewrite bool_decide_eq_true_2 by done. simpl.
    eexists _, _. split; [done|]. split.
    { rewrite decode_element_unfold. simpl.
      by rewrite !attvalue_plain by done. }
    split; [done|]. unfold parse_row, findall, row_image. simpl.
    by rewrite decide_True by done.
  - rewrite bool_decide_eq_false_2 by done. simpl. rewrite Hels. simpl.
    eexists _, _. split; [done|]. split.
    { rewrite decode_element_unfold. simpl.
      rewrite !attvalue_plain by done. simpl. by rewrite Hdec. }
    split; [done|]. unfold parse_row. rewrite Hall, Hparse. simpl.
    unfold row_image. rewrite !decide_False by done.
    by rewrite fill_row_entries.
Qed.

(** *** One sheet, written and read back *)

Lemma build_rows_parse max_cols (l : list (nat * list CellValue)) :
  Forall (λ ir, Forall (λ cell, cell_ok cell = true) ir.2) l →
  ∃ els els',
    rmapM (λ ir : nat * list CellValue, build_row max_cols ir.1 ir.2) l = Ok els ∧
    mapM decode_element els = Some els' ∧
    Forall (λ e, tag_of e = qname NS_MAIN "row") els' ∧
    ∀ ss, rmapM (parse_row ss) els' = Ok ((λ ir, row_image ir.2) <$> l).
Proof.
  induction 1 as [|[r row] l Hrow _ (els & els' & Hels & Hdec & Htags & Hparse)].
  { exists [], []. by repeat split. }
  destruct (build_row_parse max_cols r row [] Hrow)
    as (e & e' & He & Hde & Hte & _).
  exists (e :: els), (e' :: els'). simpl in *.
  rewrite He, Hels, Hde, Hdec. simpl. repeat split; [by constructor|].
  intros ss.
  destruct (build_row_parse max_cols r row ss Hrow)
    as (e1 & e1' & He1 & Hde1 & _ & Hp).
  rewrite He in He1. injection He1 as <-.
  rewrite Hde in Hde1. injection Hde1 as <-.
  by rewrite Hp, Hparse.
Qed.

Lemma mapM_singleton {A B} (f : A → option B) x :
  mapM f [x] = y ← f x; Some [y].
Proof. simpl. by destruct (f x). Qed.

Lemma enumerate1_snd {A} (l : list A) : (λ ix, ix.2) <$> enumerate1 l = l.
Proof.
  apply list_eq. intros i. unfold enumerate1.
  rewrite list_lookup_fmap, list_lookup_imap. by destruct (l !! i).
Qed.

(** The texts of every cell of a sheet are carried by the XML layer. *)
Definition sheet_ok (sheet : SheetData) : bool :=
  forallb (forallb cell_ok) (sheet_rows sheet).

Lemma build_sheet_parse sheet :
  sheet_ok sheet = true →
  ∃ xml, _build_sheet_xml sheet = Ok xml ∧
    ∀ ss, _parse_sheet_rows xml ss = Ok (row_image <$> sheet_rows sheet).
Proof.
  intros Hok. unfold _build_sheet_xml.
  set (max_cols := if decide (max_list (length <$> sheet_rows sheet) = 0)
                   then 1 else max_list (length <$> sheet_rows sheet)).
  destruct (build_rows_parse max_cols (enumerate1 (sheet_rows sheet)))
    as (els & els' & -> & Hdec & Htags & Hparse).
  { unfold sheet_ok in Hok. rewrite forallb_forall in Hok.
    apply Forall_forall. intros [r row] Hin. simpl.
    assert (row ∈ sheet_rows sheet) as Hrow%list_elem_of_In%Hok.
    { rewrite <-(enumerate1_snd (sheet_rows sheet)).
      apply list_elem_of_fmap. by exists (r, row). }
    rewrite forallb_forall in Hrow. apply Forall_forall.
    intros cell Hcell%list_elem_of_In. by apply Hrow. }
  simpl. eexists. split; [done|]. intros ss.
  unfold _parse_sheet_rows, fromstring.
  rewrite decode_element_unfold, mapM_singleton, decode_element_unfold.
  simpl. rewrite Hdec. simpl.
  rewrite app_nil_r.
  assert (findall (qname NS_MAIN "row")
            (Elem (qname NS_MAIN "sheetData") [] None els') = els') as ->.
  { unfold findall; simpl. clear -Htags.
    induction Htags as [|e k He _ IH]; [done|].
    by rewrite filter_cons_True, IH by done. }
  rewrite Hparse. f_equal.
  rewrite <-(enumerate1_snd (sheet_rows sheet)) at 2.
  by rewrite <-list_fmap_compose.
Qed.










(** The XML layer itself changes a carriage return: it reads back as a line
    feed. *)
Example carriage_return_read_back :
  ∃ xml,
    _build_sheet_xml
      (mkSheet "S" [[mkCell (String "a" (String CR (String "b" ""))) None None]])
      = Ok xml ∧
    _parse_sheet_rows xml []
      = Ok [[mkCell (String "a" (String LF (String "b" ""))) None
               (Some "inlineStr")]].
Proof. eexists. split; [vm_compute; reflexivity|]. vm_compute. reflexivity. Qed.

(** *** The writer never fails on a non-empty workbook *)

Lemma rmapM_Ok {A B} (f : A → result B) (l : list A) :
  Forall (λ x, ∃ y, f x = Ok y) l → ∃ ys, rmapM f l = Ok ys.
Proof.
  induction 1 as [|x l [y Hy] _ [ys Hys]]; simpl; [by eexists|].
  rewrite Hy, Hys. simpl. by eexists.
Qed.

Lemma enumerate1_pos {A} (l : list A) :
  Forall (λ ix : nat * A, 1 ≤ ix.1) (enumerate1 l).
Proof.
  apply Forall_lookup. intros i [n x]. unfold enumerate1.
  rewrite list_lookup_imap. destruct (l !! i); [|done].
  intros [= <- <-]. simpl. lia.
Qed.

Lemma build_cell_Ok r col cell : 1 ≤ col → ∃ els, build_cell r col cell = Ok els.
Proof.
  intros Hcol. unfold build_cell.
  destruct (cell_ref_Ok col r Hcol) as (ref & -> & _).
  destruct (_ && _); [by eexists|]. simpl.
  destruct (truthy_opt (formula cell)); by eexists.
Qed.

Lemma build_row_Ok max_cols r row : ∃ e, build_row max_cols r row = Ok e.
Proof.
  unfold build_row. destruct (negb _); [by eexists|].
  destruct (rmapM_Ok (λ ic : nat * CellValue, build_cell r ic.1 ic.2)
              (enumerate1 row)) as [els ->]; [|by eexists].
  eapply Forall_impl; [apply enumerate1_pos|].
  intros [col cell] ?. by apply build_cell_Ok.
Qed.

Lemma build_sheet_xml_Ok sheet : ∃ xml, _build_sheet_xml sheet = Ok xml.
Proof.
  unfold _build_sheet_xml.
  match goal with
  | |- context [rmapM ?f ?l] => destruct (rmapM_Ok f l) as [els ->]
  end; [|by eexists].
  apply Forall_forall. intros [r row] _. apply build_row_Ok.
Qed.

(** C9. Encoding an empty sheet list fails with the [ValueError] of the
    check; encoding a non-empty sheet list passes the check and returns
    the archive. *)
Theorem write_xlsx_empty_check :
  write_xlsx [] = Err (ValueError "Workbook must contain at least one sheet") ∧
  ∀ (sheet : SheetData) (sheets : list SheetData),
    ∃ zf, write_xlsx (sheet :: sheets) = Ok zf.
Proof.
  split; [done|]. intros sheet sheets. unfold write_xlsx.
  rewrite decide_False by done.
  destruct (rmapM_Ok _build_sheet_xml (sheet :: sheets)) as [els ->];
    [|by eexists].
  apply Forall_forall. intros s _. apply build_sheet_xml_Ok.
Qed.

(** ** log_to_excel.py: the report assembler *)

(** The world the program runs in: the entries of each directory (their
    names, in the order [glob] yields them), what [_read_log_lines] returns
    for the path of each log file, and the zip archive at each path. *)
Record World := mkWorld {
  w_dirs : gmap string (list string);
  w_logs : gmap string (list string);
  w_archives : gmap string ZipFile }.

Record LogPair := mkLogPair {
  base_name : string; stg_host : string; prd_host : string;
  stg_path : string; prd_path : string }.

(** [_read_log_lines(path)]; a path that cannot be opened raises. *)
Definition _read_log_lines (w : World) (path : string) : result (list string) :=
  of_option (FileNotFoundError path) (w_logs w !! path).

Definition DQ : string := String QUOTE "".

Definition SHEET_NAME_FORMULA : string :=
  "RIGHT(CELL(" +:+ DQ +:+ "filename" +:+ DQ +:+ ",A1),LEN(CELL(" +:+ DQ +:+
  "filename" +:+ DQ +:+ ",A1))-FIND(" +:+ DQ +:+ "]" +:+ DQ +:+ ",CELL(" +:+
  DQ +:+ "filename" +:+ DQ +:+ ",A1)))".

(** The annotation of a row whose texts differ (the literal of the source,
    as its UTF-8 bytes). *)
Definition NOTE_DIFFERS : string := "差異あり".

Definition _build_header_rows (pair : LogPair) : list (list CellValue) :=
  [ [mkCell "InfoOne延命プロジェクト" None None;
     empty_cell; empty_cell; empty_cell; empty_cell];
    [mkCell "オンプレ単体テスト（NewSTG基盤）" None None;
     empty_cell; empty_cell; empty_cell; empty_cell];
    [empty_cell; empty_cell; empty_cell; empty_cell; empty_cell];
    [empty_cell; mkCell "対象サーバ" None None; mkCell "備考" None None;
     empty_cell; empty_cell];
    [empty_cell; mkCell "" (Some SHEET_NAME_FORMULA) (Some "str");
     empty_cell; empty_cell; empty_cell];
    [empty_cell; empty_cell; empty_cell; empty_cell; empty_cell];
    [empty_cell;
     mkCell ("現行サーバ（" +:+ stg_host pair +:+ "）") None None;
     mkCell "差分有無" None None;
     mkCell ("新基盤（" +:+ prd_host pair +:+ "）") None None;
     mkCell "備考" None None] ].

(** The row [rows.append([...])] adds for one aligned pair, at spreadsheet
    row [current_row]. *)
Definition data_row (current_row : nat) (p : LinePair) : list CellValue :=
  let match_flag := if decide (stg_line p = prd_line p) then "1" else "0" in
  let note := if decide (match_flag = "1") then "" else NOTE_DIFFERS in
  [empty_cell;
   mkCell (stg_line p) None None;
   mkCell match_flag
     (Some ("B" +:+ pretty current_row +:+ "=D" +:+ pretty current_row))
     (Some "b");
   mkCell (prd_line p) None None;
   mkCell note None None].

(** The body of [for stg_line, prd_line, *_ in aligned]; the state is
    [(rows, current_row)]. *)
Definition rows_step (st : list (list CellValue) * nat) (p : LinePair)
    : list (list CellValue) * nat :=
  (st.1 ++ [data_row st.2 p], st.2 + 1).

Definition _build_rows_for_pair (w : World) (pair : LogPair)
    : result (list (list CellValue)) :=
  stg_lines ←r _read_log_lines w (stg_path pair);
  prd_lines ←r _read_log_lines w (prd_path pair);
  aligned ←r of_option IndexError (_align_logs stg_lines prd_lines);
  let rows := _build_header_rows pair in
  let current_row := length rows + 1 in
  Ok (foldl rows_step (rows, current_row) aligned).1.

Lemma rows_step_fold aligned : ∀ (rows : list (list CellValue)) current_row,
  (foldl rows_step (rows, current_row) aligned).1
  = rows ++ imap (λ k p, data_row (current_row + k) p) aligned.
Proof.
  induction aligned as [|q aligned IH]; intros rows current_row; simpl.
  { by rewrite app_nil_r. }
  unfold rows_step at 2. simpl. rewrite IH, <-app_assoc. simpl.
  rewrite Nat.add_0_r. do 2 f_equal. apply imap_ext. intros k p _. simpl.
  f_equal. lia.
Qed.

Example cell_ref_B_D (r : nat) :
  cell_ref_of 2 r = Ok ("B" +:+ pretty r) ∧ cell_ref_of 4 r = Ok ("D" +:+ pretty r).
Proof. done. Qed.

(** C3. For every pair whose two logs are read, the sheet rows are the 7
    header rows followed by one row per aligned pair.  The row of aligned
    pair [k] (from 0) stands at index [7 + k], that is at spreadsheet row
    [8 + k], and is [blank, staged text, match cell, production text, note]:
    the match cell shows ["1"] if the two texts are equal and ["0"]
    otherwise, is typed ["b"], and its formula compares the reference of
    column 2 (B) with that of column 4 (D) at that same spreadsheet row; the
    note is the annotation exactly when the texts differ and empty
    otherwise. *)
Theorem build_rows_match_cells (w : World) (pair : LogPair)
    (stg_lines prd_lines : list string) :
  w_logs w !! stg_path pair = Some stg_lines →
  w_logs w !! prd_path pair = Some prd_lines →
  ∃ aligned rows,
    _align_logs stg_lines prd_lines = Some aligned ∧
    _build_rows_for_pair w pair = Ok rows ∧
    length rows = 7 + length aligned ∧
    take 7 rows = _build_header_rows pair ∧
    ∀ k p, aligned !! k = Some p →
      ∃ refB refD,
        cell_ref_of 2 (7 + k + 1) = Ok refB ∧
        cell_ref_of 4 (7 + k + 1) = Ok refD ∧
        rows !! (7 + k) = Some
          [empty_cell;
           mkCell (stg_line p) None None;
           mkCell (if decide (stg_line p = prd_line p) then "1" else "0")
                  (Some (refB +:+ "=" +:+ refD)) (Some "b");
           mkCell (prd_line p) None None;
           mkCell (if decide (stg_line p = prd_line p) then "" else NOTE_DIFFERS)
                  None None].
Proof.
  intros Hstg Hprd.
  destruct (align_logs_runs stg_lines prd_lines)
    as (ops & runs & _ & _ & _ & _ & Halign).
  set (aligned := concat runs) in *.
  exists aligned. eexists. split; [done|].
  unfold _build_rows_for_pair, _read_log_lines.
  rewrite Hstg, Hprd. simpl. rewrite Halign. simpl.
  rewrite (rows_step_fold aligned (_build_header_rows pair)).
  split; [done|]. split; [|split].
  - rewrite length_app, length_imap. done.
  - done.
  - intros k p Hp. exists ("B" +:+ pretty (7 + k + 1)), ("D" +:+ pretty (7 + k + 1)).
    split; [done|]. split; [done|].
    rewrite lookup_app_r by (simpl; lia).
    match goal with
    | |- _ !! ?i = _ => replace i with k by (simpl; lia)
    end.
    rewrite list_lookup_imap, Hp. simpl. unfold data_row.
    replace (S (S (S (S (S (S (S (S k)))))))) with (7 + k + 1) by lia.
    rewrite str_app_assoc.
    destruct (decide (stg_line p = prd_line p)); simpl; done.
Qed.

(** The logs [a, b] and [a] of the end-to-end scenario. *)
Definition example_world : World :=
  mkWorld {[ "ref" := ["diff_host1s.log"; "diff_host1p.log"; "notes.txt"] ]}
          {[ "ref/diff_host1s.log" := ["a"; "b"];
             "ref/diff_host1p.log" := ["a"] ]}
          ∅.

Definition example_pair : LogPair :=
  mkLogPair "host1" "host1s" "host1p" "ref/diff_host1s.log" "ref/diff_host1p.log".

Lemma build_rows_match_cells_witness :
  ∃ aligned rows,
    _align_logs ["a"; "b"] ["a"] = Some aligned ∧
    _build_rows_for_pair example_world example_pair = Ok rows ∧
    length rows = 7 + length aligned ∧
    take 7 rows = _build_header_rows example_pair ∧
    ∀ k p, aligned !! k = Some p →
      ∃ refB refD,
        cell_ref_of 2 (7 + k + 1) = Ok refB ∧
        cell_ref_of 4 (7 + k + 1) = Ok refD ∧
        rows !! (7 + k) = Some
          [empty_cell;
           mkCell (stg_line p) None None;
           mkCell (if decide (stg_line p = prd_line p) then "1" else "0")
                  (Some (refB +:+ "=" +:+ refD)) (Some "b");
           mkCell (prd_line p) None None;
           mkCell (if decide (stg_line p = prd_line p) then "" else NOTE_DIFFERS)
                  None None].
Proof.
  apply (build_rows_match_cells example_world example_pair ["a"; "b"] ["a"]);
    vm_compute; reflexivity.
Defined.

Example build_rows_ab_a :
  (λ rows, drop 7 rows) <$>
    match _build_rows_for_pair example_world example_pair with
    | Ok rows => Some rows | Err _ => None end
  = Some [ [empty_cell; mkCell "a" None None;
            mkCell "1" (Some "B8=D8") (Some "b"); mkCell "a" None None;
            mkCell "" None None];
           [empty_cell; mkCell "b" None None;
            mkCell "0" (Some "B9=D9") (Some "b"); mkCell "" None None;
            mkCell NOTE_DIFFERS None None] ].
Proof. vm_compute. reflexivity. Qed.

(** ** Sheet names *)

(** [f".v{counter}"] *)
Definition suffix_of (counter : N) : string := ".v" +:+ pretty counter.

(** [base_name[:max_len] + suffix] with [max_len = 31 - len(suffix)]. *)
Definition candidate_name (base_name : string) (counter : N) : string :=
  let suffix := suffix_of counter in
  let max_len := (31 - Z.of_nat (String.length suffix))%Z in
  str_prefix max_len base_name +:+ suffix.

(** The [while True:] loop; [None] of fuel is [Err OutOfFuel]. *)
Fixpoint unique_name_loop (fuel : nat) (base_name : string)
    (used_names : gset string) (counter : N) : result (string * gset string) :=
  match fuel with
  | 0 => Err OutOfFuel
  | S fuel' =>
      let candidate := candidate_name base_name counter in
      if decide (candidate ∉ used_names)
      then Ok (candidate, {[candidate]} ∪ used_names)
      else unique_name_loop fuel' base_name used_names (counter + 1)
  end.

(** [_make_unique_sheet_name]: the name, and [used_names] after the call.
    The loop is given one turn more than there are used names. *)
Definition _make_unique_sheet_name (base_name : string)
    (used_names : gset string) : result (string * gset string) :=
  if decide (base_name ∉ used_names)
  then Ok (base_name, {[base_name]} ∪ used_names)
  else unique_name_loop (size used_names + 1) base_name used_names 2.

Example unique_names_v2_v3 :
  _make_unique_sheet_name "host1" ∅ = Ok ("host1", {["host1"]}) ∧
  _make_unique_sheet_name "host1" {["host1"]}
    = Ok ("host1.v2", {["host1.v2"; "host1"]}) ∧
  (fst <$> match _make_unique_sheet_name "0123456789012345678901234567890"
                   {["0123456789012345678901234567890";
                     "0123456789012345678901234567.v2"]} with
           | Ok r => Some r | Err _ => None end)
    = Some "0123456789012345678901234567.v3".
Proof. repeat split; vm_compute; reflexivity. Qed.

Lemma pretty_N_digits (x : N) : all_digits (pretty x) = true.
Proof.
  unfold pretty, pretty_N. case_decide; [done|]. by apply pretty_N_go_digits.
Qed.

Lemma all_digits_dot p s : all_digits (p +:+ String "." s) = false.
Proof.
  unfold all_digits. rewrite list_ascii_app. simpl.
  induction (String.list_ascii_of_string p) as [|c l IH]; [done|].
  simpl. by rewrite IH, andb_false_r.
Qed.

(** The digits after the last [".v"] are determined by the whole name. *)
Lemma suffix_digits_unique p1 : ∀ p2 d1 d2,
  all_digits d1 = true → all_digits d2 = true →
  p1 +:+ ".v" +:+ d1 = p2 +:+ ".v" +:+ d2 → d1 = d2.
Proof.
  induction p1 as [|c1 p1 IH]; intros [|c2 p2] d1 d2 H1 H2; str_cons.
  - by intros [= ->].
  - intros [= <- Heq]. destruct p2 as [|c p2]; [done|].
    revert Heq. str_cons. intros [= <- ->].
    by rewrite all_digits_dot in H1.
  - intros [= -> Heq]. destruct p1 as [|c p1]; [done|].
    revert Heq. str_cons. intros [= -> <-].
    by rewrite all_digits_dot in H2.
  - intros [= <- Heq]. by eapply IH.
Qed.

Global Instance candidate_name_inj base_name : Inj (=) (=) (candidate_name base_name).
Proof.
  intros c1 c2 Heq. unfold candidate_name, suffix_of in Heq.
  rewrite !app_String, !app_Empty in Heq.
  apply (inj pretty).
  eapply (suffix_digits_unique _ _ _ _ (pretty_N_digits c1) (pretty_N_digits c2)).
  exact Heq.
Qed.

(** The loop stops at the first counter whose candidate is free. *)
Lemma unique_name_loop_first base_name used_names n : ∀ fuel counter,
  n < fuel →
  (∀ i, i < n → candidate_name base_name (counter + N.of_nat i) ∈ used_names) →
  candidate_name base_name (counter + N.of_nat n) ∉ used_names →
  unique_name_loop fuel base_name used_names counter
  = Ok (candidate_name base_name (counter + N.of_nat n),
        {[candidate_name base_name (counter + N.of_nat n)]} ∪ used_names).
Proof.
  induction n as [|n IH]; intros [|fuel] counter Hfuel Hused Hfree; try lia.
  - simpl. rewrite N.add_0_r in Hfree |- *. by rewrite decide_True.
  - simpl. rewrite decide_False.
    2:{ intros Hc. apply Hc. specialize (Hused 0). rewrite N.add_0_r in Hused.
        apply Hused. lia. }
    replace (counter + N.of_nat (S n))%N with (counter + 1 + N.of_nat n)%N
      in * by lia.
    apply IH; [lia| |done].
    intros i Hi. specialize (Hused (S i)).
    replace (counter + 1 + N.of_nat i)%N with (counter + N.of_nat (S i))%N by lia.
    apply Hused. lia.
Qed.

(** Among [size used_names + 1] consecutive counters one is free: the
    candidates are pairwise distinct. *)
Lemma free_counter_exists base_name (used_names : gset string) (counter : N) :
  ∃ n, n ≤ size used_names ∧
    (candidate_name base_name (counter + N.of_nat n) ∉ used_names) ∧
    ∀ i, i < n → candidate_name base_name (counter + N.of_nat i) ∈ used_names.
Proof.
  set (P := λ n, candidate_name base_name (counter + N.of_nat n) ∉ used_names).
  assert (∃ n, n ≤ size used_names ∧ P n) as Hex.
  { destruct (decide (Exists P (seq 0 (S (size used_names))))) as [Hx|Hx].
    { apply Exists_exists in Hx as (n & [_ ?]%elem_of_seq & Hn).
      exists n. split; [lia|done]. }
    exfalso. apply not_Exists_Forall in Hx; [|apply _].
    rewrite Forall_forall in Hx.
    set (names := (λ n, candidate_name base_name (counter + N.of_nat n))
                    <$> seq 0 (S (size used_names))).
    assert (NoDup names) as Hnd.
    { apply NoDup_fmap_2; [|apply NoDup_seq].
      intros i j Hij. apply (inj (candidate_name _)) in Hij. lia. }
    assert ((list_to_set names : gset string) ⊆ used_names) as Hsub.
    { intros x Hx'.
      apply elem_of_list_to_set, list_elem_of_fmap in Hx' as (n & -> & Hn).
      specialize (Hx n Hn). unfold P in Hx. simpl in Hx.
      destruct (decide (candidate_name base_name (counter + N.of_nat n)
                          ∈ used_names)); [done|].
      exfalso. auto. }
    apply subseteq_size in Hsub.
    rewrite size_list_to_set in Hsub by done.
    unfold names in Hsub. rewrite length_fmap, length_seq in Hsub. lia. }
  clear -Hex. destruct Hex as (n & Hn & HP).
  induction n as [n IH] using lt_wf_ind.
  destruct (decide (Exists P (seq 0 n))) as [Hx|Hx].
  - apply Exists_exists in Hx as (m & [_ ?]%elem_of_seq & Hm).
    apply (IH m); [lia|lia|done].
  - exists n. split; [done|]. split; [done|].
    apply not_Exists_Forall in Hx; [|apply _]. rewrite Forall_forall in Hx.
    intros i Hi. specialize (Hx i). unfold P in Hx. simpl in Hx.
    destruct (decide (candidate_name base_name (counter + N.of_nat i)
                        ∈ used_names)); [done|].
    exfalso. apply Hx; [|done]. apply elem_of_seq. lia.
Qed.

(** [_make_unique_sheet_name] returns for every base name and every set of
    used names: the base name if it is free, otherwise the candidate of the
    first counter from 2 on whose candidate is free; the name is recorded
    in the set. *)
Lemma make_unique_sheet_name_first base_name (used_names : gset string) :
  ∃ name,
    _make_unique_sheet_name base_name used_names
      = Ok (name, {[name]} ∪ used_names) ∧
    (name ∉ used_names) ∧
    (((base_name ∉ used_names) ∧ name = base_name) ∨
     (base_name ∈ used_names ∧
      ∃ n, n ≤ size used_names ∧
        name = candidate_name base_name (2 + N.of_nat n) ∧
        ∀ i, i < n → candidate_name base_name (2 + N.of_nat i) ∈ used_names)).
Proof.
  unfold _make_unique_sheet_name.
  destruct (decide (base_name ∉ used_names)) as [Hb|Hb].
  { exists base_name. split; [done|]. split; [done|]. by left. }
  destruct (free_counter_exists base_name used_names 2) as (n & Hn & Hfree & Hused).
  exists (candidate_name base_name (2 + N.of_nat n)).
  split; [|split; [done|]].
  - apply unique_name_loop_first; [lia|done..].
  - right. split; [|by eauto].
    by destruct (decide (base_name ∈ used_names)).
Qed.














(** ** log_to_excel.py: loading an existing workbook *)

(** [zf.read(name)]: a name that is not in the archive raises [KeyError]. *)
Definition zf_read (zf : ZipFile) (name : string) : result Element :=
  of_option (NoSuchMember name) (zf !! name).

(** [zf.namelist()], as a set. *)
Definition namelist (zf : ZipFile) : gset string := dom zf.

(** [sep.join(l)] for [sep = ""]. *)
Definition str_join (l : list string) : string := foldr String.app "" l.

Definition _load_shared_strings (zf : ZipFile) : result (list string) :=
  if decide ("xl/sharedStrings.xml" ∉ namelist zf) then Ok []
  else
    data ←r zf_read zf "xl/sharedStrings.xml";
    root ←r fromstring data;
    Ok ((λ si,
           str_join ((λ t, default "" (text_of t))
                       <$> findall_desc (qname NS_MAIN "t") si))
        <$> findall (qname NS_MAIN "si") root).

(** The dict comprehension [{rel.attrib["Id"]: rel.attrib["Target"] for ...}]:
    a later relationship with the same [Id] replaces an earlier one. *)
Definition rel_map_of (rel_root : Element) : result (gmap string string) :=
  rfoldl (λ rel_map rel,
            id ←r attr_item "Id" rel;
            target ←r attr_item "Target" rel;
            Ok (<[id := target]> rel_map))
         ∅ (findall (qname NS_PKG_REL "Relationship") rel_root).

(** [wb_root.findall("w:sheets/w:sheet", ns)] *)
Definition sheet_nodes (wb_root : Element) : list Element :=
  findall (qname NS_MAIN "sheets") wb_root ≫= findall (qname NS_MAIN "sheet").

(** The body of [for sheet in wb_root.findall(...)]; the state is [sheets]. *)
Definition load_sheet (zf : ZipFile) (shared_strings : list string)
    (rel_map : gmap string string) (sheets : list SheetData) (sheet : Element)
    : result (list SheetData) :=
  rid ←r attr_item (qname NS_DOC_REL "id") sheet;
  name ←r attr_item "name" sheet;
  let target := rel_map !! rid in
  if negb (truthy_opt target) then Ok sheets
  else
    xml_bytes ←r zf_read zf ("xl/" +:+ default "" target);
    rows ←r _parse_sheet_rows xml_bytes shared_strings;
    Ok (sheets ++ [mkSheet name rows]).

(** The body of [with zipfile.ZipFile(output_path) as zf:]. *)
Definition load_archive (zf : ZipFile) : result (list SheetData) :=
  shared_strings ←r _load_shared_strings zf;
  wb ←r zf_read zf "xl/workbook.xml";
  wb_root ←r fromstring wb;
  rels ←r zf_read zf "xl/_rels/workbook.xml.rels";
  rel_root ←r fromstring rels;
  rel_map ←r rel_map_of rel_root;
  rfoldl (load_sheet zf shared_strings rel_map) [] (sheet_nodes wb_root).

(** [_load_existing_sheets(output_path)]: the archive at that path is
    opened and read. *)
Definition _load_existing_sheets (w : World) (output_path : string)
    : result (list SheetData) :=
  zf ←r of_option (FileNotFoundError output_path) (w_archives w !! output_path);
  load_archive zf.

(** An archive with a workbook part naming one sheet, the given
    relationships, and the given other parts. *)
Definition one_sheet_workbook : Element :=
  Elem (qname NS_MAIN "workbook") [] None
    [Elem (qname NS_MAIN "sheets") [] None
       [Elem (qname NS_MAIN "sheet")
          [("name", "host1"); ("sheetId", "1"); (qname NS_DOC_REL "id", "rId1")]
          None []]].

Definition archive_with (rels : list Element) : ZipFile :=
  {[ "xl/workbook.xml" := one_sheet_workbook;
     "xl/_rels/workbook.xml.rels" :=
       Elem (qname NS_PKG_REL "Relationships") [] None rels ]}.




(** ** log_to_excel.py: discovering the pairs of logs *)

(** [s[n:]] for [n >= 0]. *)
Fixpoint str_drop (n : nat) (s : string) : string :=
  match n, s with
  | S n', String _ s' => str_drop n' s'
  | _, _ => s
  end.

(** [s.endswith(suffix)] *)
Definition str_ends_with (suffix s : string) : bool :=
  bool_decide (str_drop (String.length s - String.length suffix) s = suffix).

(** [s.rfind(c)]: the index of the last [c] ([None] is [-1]); [i] is the
    index of the first character of [s]. *)
Fixpoint str_rfind_from (c : ascii) (s : string) (i : nat) (found : option nat)
    : option nat :=
  match s with
  | EmptyString => found
  | String c' s' =>
      str_rfind_from c s' (S i) (if decide (c' = c) then Some i else found)
  end.
Definition str_rfind (c : ascii) (s : string) : option nat :=
  str_rfind_from c s 0 None.

(** [sep in s] and [s.split(sep, 1)]: the texts before and after the first
    [sep] in [s], [None] if there is none. *)
Fixpoint str_split1 (sep s : string) : option (string * string) :=
  if String.prefix sep s then Some ("", str_drop (String.length sep) s)
  else match s with
       | EmptyString => None
       | String c s' => (λ ba : string * string, (String c ba.1, ba.2))
                          <$> str_split1 sep s'
       end.

(** [s[-1]]; [None] is [IndexError]. *)
Fixpoint str_last (s : string) : option ascii :=
  match s with
  | EmptyString => None
  | String c EmptyString => Some c
  | String _ s' => str_last s'
  end.

(** [.lower()], on the letters of ASCII. *)
Definition lower (c : ascii) : ascii :=
  let n := nat_of_ascii c in
  if bool_decide (65 ≤ n ≤ 90) then ascii_of_nat (n + 32) else c.

(** [Path.stem] of a path whose last component is [name]. *)
Definition path_stem (name : string) : string :=
  match str_rfind "." name with
  | Some i => if decide (0 < i < String.length name - 1) then str_take i name
              else name
  | None => name
  end.

(** [_extract_host_name(path)] for a path whose last component is [name]. *)
Definition _extract_host_name (name : string) : string :=
  let stem := path_stem name in
  match str_split1 "diff_" stem with
  | Some (_, rest) => rest
  | None => stem
  end.

(** [input_dir / name], as the key of the file in the world. *)
Definition child_path (input_dir name : string) : string :=
  input_dir +:+ "/" +:+ name.

(** [input_dir.glob("*.log")]: the names of the matching entries, in the
    order the directory yields them; nothing if there is no such directory. *)
Definition glob_log (w : World) (input_dir : string) : list string :=
  filter (λ name, str_ends_with ".log" name = true)
         (default [] (w_dirs w !! input_dir)).

(** The body of [for entry in input_dir.glob("*.log")]; the state is
    [(stg_files, prd_files)]. *)
Definition discover_step (input_dir : string)
    (st : gmap string (string * string) * gmap string (string * string))
    (name : string)
    : gmap string (string * string) * gmap string (string * string) :=
  let entry := child_path input_dir name in
  let host := _extract_host_name name in
  if negb (truthy host) then st
  else
    let suffix := lower <$> str_last host in
    let base := str_prefix (-1) host in
    if decide (suffix = Some "s"%char) then (<[base := (host, entry)]> st.1, st.2)
    else if decide (suffix = Some "p"%char)
         then (st.1, <[base := (host, entry)]> st.2)
         else st.

(** The dicts [(stg_files, prd_files)] after the first loop. *)
Definition discovered (w : World) (input_dir : string)
    : gmap string (string * string) * gmap string (string * string) :=
  foldl (discover_step input_dir) (∅, ∅) (glob_log w input_dir).

Definition _discover_pairs (w : World) (input_dir : string)
    : result (list LogPair) :=
  let '(stg_files, prd_files) := discovered w input_dir in
  rmapM (λ base,
           stg ←r of_option (KeyError base) (stg_files !! base);
           prd ←r of_option (KeyError base) (prd_files !! base);
           Ok (mkLogPair base stg.1 prd.1 stg.2 prd.2))
        (merge_sort String.le
           (elements ((dom stg_files : gset string) ∩ dom prd_files))).

Example discover_example :
  _discover_pairs example_world "ref" = Ok [example_pair] ∧
  _discover_pairs
    (mkWorld {[ "d" := ["zP.log"; "diff_as.log"; "x_diff_aP.log"; "s.log";
                        "p.log"; "b.s.log"; "zs.txt"; "diff_zs.log"; ".log"] ]}
             ∅ ∅) "d"
  = Ok [mkLogPair "" "s" "p" "d/s.log" "d/p.log";
        mkLogPair "a" "as" "aP" "d/diff_as.log" "d/x_diff_aP.log";
        mkLogPair "z" "zs" "zP" "d/diff_zs.log" "d/zP.log"].
Proof. split; vm_compute; reflexivity. Qed.

(** ** log_to_excel.py: generating the workbook *)

(** What the program does to archives, in the order it does it. *)
Inductive archive_op :=
  | PathExists (path : string)      (* [output_path.exists()] *)
  | ArchiveRead (path : string)     (* [zipfile.ZipFile(path)] *)
  | ArchiveWrite (path : string).   (* [zipfile.ZipFile(path, "w")] *)

(** The state a run threads: the world, and the archive operations so far. *)
Record State := mkState { st_world : World; st_ops : list archive_op }.

(** A computation that may raise; what it did before it raised stays done. *)
Definition M (A : Type) : Type := State → result A * State.

Definition mret {A} (a : A) : M A := λ s, (Ok a, s).
Definition mbind {A B} (m : M A) (f : A → M B) : M B :=
  λ s, match m s with
       | (Ok a, s') => f a s'
       | (Err e, s') => (Err e, s')
       end.
Definition m_raise {A} (e : error) : M A := λ s, (Err e, s).
Definition m_lift {A} (f : World → result A) : M A := λ s, (f (st_world s), s).
Definition m_op (o : archive_op) : M unit :=
  λ s, (Ok (), mkState (st_world s) (st_ops s ++ [o])).
Definition m_put_archive (path : string) (zf : ZipFile) : M unit :=
  λ s, let w := st_world s in
       (Ok (), mkState (mkWorld (w_dirs w) (w_logs w) (<[path := zf]> (w_archives w)))
                       (st_ops s)).

Notation "x ←m m ; k" := (mbind m (λ x, k))
  (at level 20, m at level 100, k at level 200, right associativity,
   only parsing).

(** [output_path.exists()] *)
Definition path_exists (path : string) : M bool :=
  _ ←m m_op (PathExists path);
  m_lift (λ w, Ok (bool_decide (is_Some (w_archives w !! path)))).

(** The call [_load_existing_sheets(output_path)]. *)
Definition load_existing (path : string) : M (list SheetData) :=
  _ ←m m_op (ArchiveRead path);
  m_lift (λ w, _load_existing_sheets w path).

(** The call [write_xlsx(path, sheets)]: every part is built before the
    archive is opened for writing. *)
Definition write_xlsx_at (path : string) (sheets : list SheetData) : M unit :=
  zf ←m m_lift (λ _, write_xlsx sheets);
  _ ←m m_op (ArchiveWrite path);
  m_put_archive path zf.

Global Instance LogPair_eq_dec : EqDecision LogPair.
Proof. solve_decision. Defined.

(** The body of [for pair in pairs]; the state is [(new_sheets, used_names)]. *)
Definition sheet_step (w : World) (st : list SheetData * gset string)
    (pair : LogPair) : result (list SheetData * gset string) :=
  rows ←r _build_rows_for_pair w pair;
  let base_name := str_prefix 31 (base_name pair) in
  named ←r _make_unique_sheet_name base_name st.2;
  Ok (st.1 ++ [mkSheet named.1 rows], named.2).

Definition no_pairs_message (input_dir : string) : string :=
  "No STG/PRD log pairs were discovered under '" +:+ input_dir +:+ "'.".

Definition generate_workbook (input_dir output_path : string) : M unit :=
  pairs ←m m_lift (λ w, _discover_pairs w input_dir);
  if decide (pairs = []) then m_raise (FileNotFoundError (no_pairs_message input_dir))
  else
    output_exists ←m path_exists output_path;
    existing_sheets ←m (if output_exists : bool then load_existing output_path
                        else mret []);
    let used_names : gset string := list_to_set (sheet_name <$> existing_sheets) in
    st ←m m_lift (λ w, rfoldl (sheet_step w) ([], used_names) pairs);
    write_xlsx_at output_path (existing_sheets ++ st.1).

(** C8. When [_discover_pairs] finds no pair, [generate_workbook] raises
    [FileNotFoundError] and leaves the state as it was: no archive was
    looked for, read or written, and the archives of the world, the one at
    the output path among them, are unchanged. *)
Theorem generate_workbook_no_pairs (input_dir output_path : string) (s : State) :
  _discover_pairs (st_world s) input_dir = Ok [] →
  generate_workbook input_dir output_path s
  = (Err (FileNotFoundError (no_pairs_message input_dir)), s).
Proof.
  intros Hpairs. unfold generate_workbook, mbind, m_lift.
  rewrite Hpairs. by rewrite decide_True.
Qed.

(** A directory with a staged log only, and an archive at the output path. *)
Definition lonely_world : World :=
  mkWorld {[ "ref" := ["diff_host1s.log"; "notes.txt"] ]}
          {[ "ref/diff_host1s.log" := ["a"] ]}
          {[ "out.xlsx" := archive_with [] ]}.

Lemma generate_workbook_no_pairs_witness :
  generate_workbook "ref" "out.xlsx" (mkState lonely_world [])
  = (Err (FileNotFoundError (no_pairs_message "ref")), mkState lonely_world []).
Proof.
  apply (generate_workbook_no_pairs "ref" "out.xlsx" (mkState lonely_world [])).
  vm_compute. reflexivity.
Defined.

(** * Further properties *)

(** ** The aligner *)

(** What [_align_logs] returns, row by row and side by side. *)
Lemma align_logs_spec (stg_lines prd_lines : list string) :
  ∃ aligned, _align_logs stg_lines prd_lines = Some aligned ∧
    stg_side aligned = numbered stg_lines ∧
    prd_side aligned = numbered prd_lines ∧
    Forall (λ p,
      (is_Some (stg_no p) ∨ is_Some (prd_no p)) ∧
      side_sound stg_lines (stg_line p) (stg_no p) ∧
      side_sound prd_lines (prd_line p) (prd_no p)) aligned.
Proof.
  destruct (align_logs_runs stg_lines prd_lines)
    as (ops & runs & Hops & Ht & Hm & Hruns & Halign).
  exists (concat runs). split; [done|].
  destruct (sides_of_runs _ _ _ _ _ _ _ _ Ht Hruns) as [Hs Hp].
  rewrite Hs, Hp, !Nat.sub_0_r, !numbered_from_all. do 2 (split; [done|]).
  apply Forall_concat.
  eapply Forall2_Forall_with; [exact (tiles_wf _ _ _ _ _ Ht)|exact Hruns|].
  intros op run Hwf [Hlen Hrun]. apply Forall_lookup. intros k p Hp'.
  destruct (Hrun k p Hp') as [Hs' Hpr].
  pose proof (lookup_lt_Some _ _ _ Hp') as Hk. rewrite Hlen in Hk.
  split; [|by split; eapply side_ok_sound].
  unfold side_ok in Hs', Hpr.
  destruct (decide (k < op_i2 op - op_i1 op)).
  - left. rewrite decide_True in Hs' by lia. destruct Hs' as [-> _]. eauto.
  - right. rewrite decide_True in Hpr by lia. destruct Hpr as [-> _]. eauto.
Qed.

Lemma numbered_length lines : length (numbered lines) = length lines.
Proof. unfold numbered. by rewrite length_imap. Qed.

Lemma numbered_snd lines : (numbered lines).*2 = lines.
Proof.
  unfold numbered. apply list_eq. intros i.
  rewrite list_lookup_fmap, list_lookup_imap. by destruct (lines !! i).
Qed.

Lemma sides_length (aligned : list LinePair) :
  Forall (λ p, is_Some (stg_no p) ∨ is_Some (prd_no p)) aligned →
  length (stg_side aligned) ≤ length aligned ∧
  length (prd_side aligned) ≤ length aligned ∧
  length aligned ≤ length (stg_side aligned) + length (prd_side aligned).
Proof.
  unfold stg_side, prd_side.
  induction 1 as [|p aligned Hp _ IH]; simpl; [lia|].
  destruct (stg_no p), (prd_no p); simpl;
    repeat match goal with
           | |- context [list_omap ?A ?B ?f ?l] =>
               change (list_omap A B f l) with (omap f l)
           end; try lia.
  destruct Hp as [[? [=]]|[? [=]]].
Qed.

(** X1. The alignment of any two logs has at least as many rows as the
    longer log has lines, and at most as many as both logs together. *)
Theorem align_row_count (stg_lines prd_lines : list string) :
  ∃ aligned, _align_logs stg_lines prd_lines = Some aligned ∧
    length stg_lines `max` length prd_lines ≤ length aligned
      ≤ length stg_lines + length prd_lines.
Proof.
  destruct (align_logs_spec stg_lines prd_lines)
    as (aligned & Halign & Hs & Hp & Hrows).
  exists aligned. split; [done|].
  destruct (sides_length aligned) as (H1 & H2 & H3).
  { eapply Forall_impl; [exact Hrows|]. by intros p [? _]. }
  rewrite Hs, Hp, !numbered_length in *. lia.
Qed.

(** A side with no line at all only has gaps. *)
Lemma side_sound_nil text no : side_sound [] text no → text = "" ∧ no = None.
Proof. destruct no; simpl; [by intros [_ ?]|done]. Qed.

Lemma rows_of_prd_side (aligned : list LinePair) : ∀ lines n,
  Forall (λ p, stg_line p = "" ∧ stg_no p = None ∧ is_Some (prd_no p)) aligned →
  prd_side aligned = imap (λ j y, (n + j + 1, y)) lines →
  aligned = imap (λ j y, mkLinePair "" y None (Some (n + j + 1))) lines.
Proof.
  unfold prd_side.
  induction aligned as [|p aligned IH]; intros lines n Hrows Hp.
  { destruct lines; [done|discriminate]. }
  apply Forall_cons in Hrows as [(Hs & Hn & [m Hm]) Hrows].
  destruct p as [s t sn pn]; simpl in *. subst s sn pn. simpl in Hp.
  destruct lines as [|y lines]; [discriminate|]. simpl in Hp.
  injection Hp as -> -> Hp. simpl. f_equal.
  rewrite (IH lines (S n) Hrows).
  - apply imap_ext. intros; simpl. do 2 f_equal. lia.
  - etrans; [exact Hp|]. apply imap_ext. intros; simpl. f_equal. lia.
Qed.

Lemma rows_of_stg_side (aligned : list LinePair) : ∀ lines n,
  Forall (λ p, prd_line p = "" ∧ prd_no p = None ∧ is_Some (stg_no p)) aligned →
  stg_side aligned = imap (λ i x, (n + i + 1, x)) lines →
  aligned = imap (λ i x, mkLinePair x "" (Some (n + i + 1)) None) lines.
Proof.
  unfold stg_side.
  induction aligned as [|p aligned IH]; intros lines n Hrows Hp.
  { destruct lines; [done|discriminate]. }
  apply Forall_cons in Hrows as [(Hs & Hn & [m Hm]) Hrows].
  destruct p as [s t sn pn]; simpl in *. subst t sn pn. simpl in Hp.
  destruct lines as [|y lines]; [discriminate|]. simpl in Hp.
  injection Hp as -> -> Hp. simpl. f_equal.
  rewrite (IH lines (S n) Hrows).
  - apply imap_ext. intros; simpl. do 2 f_equal. lia.
  - etrans; [exact Hp|]. apply imap_ext. intros; simpl. f_equal. lia.
Qed.

(** X2. Against an empty log every line of the other log gets a row of its
    own, in order, with its 1-based number, the empty text on the empty
    log's side and no line number there. *)
Theorem align_empty_side (lines : list string) :
  _align_logs [] lines
    = Some (imap (λ j y, mkLinePair "" y None (Some (j + 1))) lines) ∧
  _align_logs lines []
    = Some (imap (λ i x, mkLinePair x "" (Some (i + 1)) None) lines).
Proof.
  split.
  - destruct (align_logs_spec [] lines) as (aligned & -> & _ & Hp & Hrows).
    f_equal. apply (rows_of_prd_side aligned lines 0); [|done].
    eapply Forall_impl; [exact Hrows|].
    intros p (Hsome & [-> Hn]%side_sound_nil & _). rewrite Hn in *.
    repeat split. by destruct Hsome as [[? [=]]|?].
  - destruct (align_logs_spec lines []) as (aligned & -> & Hs & _ & Hrows).
    f_equal. apply (rows_of_stg_side aligned lines 0); [|done].
    eapply Forall_impl; [exact Hrows|].
    intros p (Hsome & _ & [-> Hn]%side_sound_nil). rewrite Hn in *.
    repeat split. by destruct Hsome as [?|[? [=]]].
Qed.

(** Rows whose two texts are equal, in logs without blank lines, carry a
    line of each log; so the two logs are the same list of texts. *)
Lemma equal_rows_identical (stg_lines prd_lines : list string) aligned :
  _align_logs stg_lines prd_lines = Some aligned →
  "" ∉ stg_lines → "" ∉ prd_lines →
  Forall (λ p, stg_line p = prd_line p) aligned →
  stg_lines = prd_lines.
Proof.
  intros Halign Hns Hnp Heq.
  destruct (align_logs_spec stg_lines prd_lines)
    as (aligned' & Halign' & Hs & Hp & Hrows).
  rewrite Halign in Halign'. injection Halign' as <-.
  rewrite <-(numbered_snd stg_lines), <-(numbered_snd prd_lines), <-Hs, <-Hp.
  clear Hs Hp Halign. unfold stg_side, prd_side.
  induction aligned as [|p aligned IH]; [done|].
  apply Forall_cons in Heq as [Hpq Heq].
  apply Forall_cons in Hrows as [(Hsome & Hss & Hsp) Hrows].
  specialize (IH Heq Hrows). simpl.
  destruct p as [s t sn pn]; simpl in *. subst t.
  destruct sn as [n|], pn as [m|]; simpl in *.
  - f_equal. exact IH.
  - subst s. destruct Hss as [_ Hss%list_elem_of_lookup_2]. done.
  - subst s. destruct Hsp as [_ Hsp%list_elem_of_lookup_2]. done.
  - by destruct Hsome as [[? [=]]|[? [=]]].
Qed.

(** X3. If the two logs of a pair have no blank line and every data row of
    the sheet built for the pair shows the match value ["1"], then the two
    logs are line for line the same. *)
Theorem no_difference_identical (w : World) (pair : LogPair)
    (stg_lines prd_lines : list string) (rows : list (list CellValue)) :
  w_logs w !! stg_path pair = Some stg_lines →
  w_logs w !! prd_path pair = Some prd_lines →
  "" ∉ stg_lines → "" ∉ prd_lines →
  _build_rows_for_pair w pair = Ok rows →
  Forall (λ row, value <$> row !! 2 = Some "1") (drop 7 rows) →
  stg_lines = prd_lines.
Proof.
  intros Hstg Hprd Hns Hnp Hrows Hflags.
  unfold _build_rows_for_pair, _read_log_lines in Hrows.
  rewrite Hstg, Hprd in Hrows. simpl in Hrows.
  destruct (_align_logs stg_lines prd_lines) as [aligned|] eqn:Halign; [|done].
  simpl in Hrows. injection Hrows as <-.
  rewrite (rows_step_fold aligned (_build_header_rows pair)) in Hflags.
  rewrite drop_app_length' in Hflags by done.
  apply (equal_rows_identical _ _ aligned Halign Hns Hnp).
  apply Forall_lookup. intros k p Hp.
  rewrite Forall_lookup in Hflags.
  specialize (Hflags k (data_row (8 + k) p)).
  rewrite list_lookup_imap, Hp in Hflags. specialize (Hflags eq_refl).
  simpl in Hflags. by destruct (decide (stg_line p = prd_line p)).
Qed.

Lemma no_difference_identical_witness : ["a"; "b"] = ["a"; "b"].
Proof.
  apply (no_difference_identical
           (mkWorld ∅ {[ "s.log" := ["a"; "b"]; "p.log" := ["a"; "b"] ]} ∅)
           (mkLogPair "h" "hs" "hp" "s.log" "p.log") ["a"; "b"] ["a"; "b"]
           (_build_header_rows (mkLogPair "h" "hs" "hp" "s.log" "p.log")
            ++ [data_row 8 (mkLinePair "a" "a" (Some 1) (Some 1));
                data_row 9 (mkLinePair "b" "b" (Some 2) (Some 2))])).
  - vm_compute. reflexivity.
  - vm_compute. reflexivity.
  - by intros [?|[?|?%elem_of_nil]%elem_of_cons]%elem_of_cons.
  - by intros [?|[?|?%elem_of_nil]%elem_of_cons]%elem_of_cons.
  - vm_compute. reflexivity.
  - repeat constructor.
Defined.

(** ** Column letters *)

(** X4. For every column index from 1 on and every row number,
    [_column_letter] returns letters, and [_column_index_from_ref] reads the
    index back from the cell reference made of these letters and the row
    number. *)
Theorem column_letter_round_trip (index row_index : nat) :
  1 ≤ index →
  ∃ letters, _column_letter index = Ok letters ∧ letters ≠ "" ∧
    _column_index_from_ref (letters +:+ pretty row_index) = index.
Proof.
  intros Hi. destruct (column_letter_Ok index Hi) as (l & Hl & Hup & Hval).
  eexists. split; [exact Hl|]. split.
  - destruct l as [|c l]; [simpl in Hval; lia|].
    rewrite reverse_cons. intros Hempty.
    apply (f_equal String.length) in Hempty.
    destruct (reverse l); simpl in Hempty; lia.
  - by rewrite column_index_of_ref.
Qed.

Lemma column_letter_round_trip_witness :
  ∃ letters, _column_letter 703 = Ok letters ∧ letters ≠ "" ∧
    _column_index_from_ref (letters +:+ pretty 12) = 703.
Proof. apply (column_letter_round_trip 703 12). lia. Defined.

(** ** Pair discovery *)

Lemma str_last_snoc s c : str_last (s +:+ String c "") = Some c.
Proof.
  induction s as [|c' s IH]; [done|]. str_cons. simpl. rewrite IH.
  destruct s; done.
Qed.

Lemma str_take_snoc s c : str_take (String.length s) (s +:+ String c "") = s.
Proof. induction s as [|c' s IH]; [done|]. str_cons. simpl. by rewrite IH. Qed.

Lemma str_prefix_snoc s c : str_prefix (-1) (s +:+ String c "") = s.
Proof.
  unfold str_prefix. rewrite decide_False by lia. rewrite str_length_app.
  change (Z.to_nat (- (-1))) with 1. simpl String.length.
  replace (String.length s + 1 - 1) with (String.length s) by lia.
  apply str_take_snoc.
Qed.

Lemma str_snoc_inv s : s ≠ "" → ∃ s' c, s = s' +:+ String c "".
Proof.
  induction s as [|c s IH]; [done|]. intros _.
  destruct s as [|c' s]; [by exists "", c|].
  destruct IH as (s' & c'' & Hs); [done|].
  exists (String c s'), c''. str_cons. by rewrite Hs.
Qed.

Lemma lower_inv c (l : ascii) :
  lower c = l → 97 ≤ nat_of_ascii l ≤ 122 →
  c = l ∨ c = ascii_of_nat (nat_of_ascii l - 32).
Proof.
  unfold lower. intros <- Hl. case_bool_decide as Hc; [|by left].
  right. rewrite nat_ascii_embedding by lia.
  replace (nat_of_ascii c + 32 - 32) with (nat_of_ascii c) by lia.
  by rewrite ascii_nat_embedding.
Qed.

(** What an entry of one of the two dicts says: it comes from a [*.log]
    entry of the directory whose host name is the key followed by one
    character that [lower] maps to the marker. *)
Definition entry_of (w : World) (input_dir : string) (marker : ascii)
    (base : string) (he : string * string) : Prop :=
  ∃ name ch,
    name ∈ glob_log w input_dir ∧
    he = (_extract_host_name name, child_path input_dir name) ∧
    _extract_host_name name = base +:+ String ch "" ∧ lower ch = marker.

Lemma discover_step_cases input_dir st name :
  (∃ base ch, _extract_host_name name = base +:+ String ch "" ∧
     lower ch = "s"%char ∧
     discover_step input_dir st name
     = (<[base := (_extract_host_name name, child_path input_dir name)]> st.1,
        st.2)) ∨
  (∃ base ch, _extract_host_name name = base +:+ String ch "" ∧
     lower ch = "p"%char ∧
     discover_step input_dir st name
     = (st.1,
        <[base := (_extract_host_name name, child_path input_dir name)]> st.2)) ∨
  ((∀ base ch, _extract_host_name name = base +:+ String ch "" →
      lower ch ≠ "s"%char ∧ lower ch ≠ "p"%char) ∧
   discover_step input_dir st name = st).
Proof.
  unfold discover_step. remember (_extract_host_name name) as host eqn:Hhost.
  clear Hhost.
  destruct (decide (host = "")) as [->|Hh].
  { right; right. split; [|done].
    intros base ch Heq. apply (f_equal String.length) in Heq.
    rewrite str_length_app in Heq. simpl in Heq. lia. }
  destruct (str_snoc_inv host Hh) as (base & ch & ->).
  unfold truthy. rewrite bool_decide_eq_true_2 by done.
  cbn [negb]. rewrite str_last_snoc, str_prefix_snoc. cbn [fmap option_fmap option_map].
  destruct (decide (Some (lower ch) = Some "s"%char)) as [[= Hs]|Hs].
  { left. by exists base, ch. }
  destruct (decide (Some (lower ch) = Some "p"%char)) as [[= Hp]|Hp].
  { right; left. by exists base, ch. }
  right; right. split; [|done].
  intros base' ch' Heq.
  assert (ch = ch') as <-.
  { apply (f_equal str_last) in Heq. rewrite !str_last_snoc in Heq. congruence. }
  split; congruence.
Qed.

Lemma discover_fold_spec (w : World) (input_dir : string) (l : list string) :
  l ⊆ glob_log w input_dir →
  let st := foldl (discover_step input_dir) (∅, ∅) l in
  (∀ base he, st.1 !! base = Some he → entry_of w input_dir "s" base he) ∧
  (∀ base he, st.2 !! base = Some he → entry_of w input_dir "p" base he) ∧
  (∀ name base ch, name ∈ l →
     _extract_host_name name = base +:+ String ch "" →
     (lower ch = "s"%char → is_Some (st.1 !! base)) ∧
     (lower ch = "p"%char → is_Some (st.2 !! base))).
Proof.
  induction l as [|name l IH] using rev_ind; intros Hsub.
  { simpl. split; [|split].
    - intros ?? H. by rewrite lookup_empty in H.
    - intros ?? H. by rewrite lookup_empty in H.
    - intros ??? H. by apply elem_of_nil in H. }
  rewrite foldl_app. simpl.
  destruct IH as (IHs & IHp & IHc).
  { intros x Hx. apply Hsub, elem_of_app. by left. }
  assert (name ∈ glob_log w input_dir) as Hname.
  { apply Hsub, elem_of_app. right. by apply list_elem_of_singleton. }
  set (st := foldl (discover_step input_dir) (∅, ∅) l) in *.
  destruct (discover_step_cases input_dir st name)
    as [(b & c & Hh & Hl & ->)|[(b & c & Hh & Hl & ->)|[Hno ->]]]; simpl.
  - split; [|split; [done|]].
    + intros base he [[<- <-]|[_ ?]]%lookup_insert_Some; [|by apply IHs].
      exists name, c. done.
    + intros name' base ch [Hin|Hin%list_elem_of_singleton]%elem_of_app Hh';
      [|subst name'].
      * destruct (IHc name' base ch Hin Hh') as [H1 H2]. split; [|done].
        intros Hs. apply lookup_insert_is_Some'. right. auto.
      * rewrite Hh in Hh'.
        assert (c = ch) as ->.
        { apply (f_equal str_last) in Hh'. rewrite !str_last_snoc in Hh'.
          congruence. }
        assert (b = base) as ->.
        { apply (f_equal (str_prefix (-1))) in Hh'.
          by rewrite !str_prefix_snoc in Hh'. }
        split; [intros _; by rewrite lookup_insert_eq|].
        intros Hp. rewrite Hl in Hp. discriminate.
  - split; [done|split].
    + intros base he [[<- <-]|[_ ?]]%lookup_insert_Some; [|by apply IHp].
      exists name, c. done.
    + intros name' base ch [Hin|Hin%list_elem_of_singleton]%elem_of_app Hh';
      [|subst name'].
      * destruct (IHc name' base ch Hin Hh') as [H1 H2]. split; [done|].
        intros Hs. apply lookup_insert_is_Some'. right. auto.
      * rewrite Hh in Hh'.
        assert (c = ch) as ->.
        { apply (f_equal str_last) in Hh'. rewrite !str_last_snoc in Hh'.
          congruence. }
        assert (b = base) as ->.
        { apply (f_equal (str_prefix (-1))) in Hh'.
          by rewrite !str_prefix_snoc in Hh'. }
        split; [|intros _; by rewrite lookup_insert_eq].
        intros Hp. rewrite Hl in Hp. discriminate.
  - split; [done|split; [done|]].
    intros name' base ch [Hin|Hin%list_elem_of_singleton]%elem_of_app Hh';
      [|subst name'].
    + by apply (IHc name' base ch).
    + destruct (Hno base ch Hh'). split; intros; done.
Qed.

Lemma discovered_spec (w : World) (input_dir : string) :
  let st := discovered w input_dir in
  (∀ base he, st.1 !! base = Some he → entry_of w input_dir "s" base he) ∧
  (∀ base he, st.2 !! base = Some he → entry_of w input_dir "p" base he) ∧
  (∀ name base ch, name ∈ glob_log w input_dir →
     _extract_host_name name = base +:+ String ch "" →
     (lower ch = "s"%char → is_Some (st.1 !! base)) ∧
     (lower ch = "p"%char → is_Some (st.2 !! base))).
Proof. by apply discover_fold_spec. Qed.

Lemma rmapM_Forall2 {A B} (f : A → result B) (l : list A) :
  Forall (λ x, ∃ y, f x = Ok y) l →
  ∃ ys, rmapM f l = Ok ys ∧ Forall2 (λ x y, f x = Ok y) l ys.
Proof.
  induction 1 as [|x l [y Hy] _ (ys & Hys & IH)]; simpl.
  { exists []. by split; [|constructor]. }
  rewrite Hy, Hys. simpl. exists (y :: ys). by split; [|constructor].
Qed.

(** The pairs [_discover_pairs] returns, in terms of the two dicts. *)
Lemma discover_pairs_spec (w : World) (input_dir : string) :
  ∃ pairs, _discover_pairs w input_dir = Ok pairs ∧
    StronglySorted String.le (base_name <$> pairs) ∧
    NoDup (base_name <$> pairs) ∧
    (∀ base, base ∈ base_name <$> pairs ↔
       is_Some ((discovered w input_dir).1 !! base) ∧
       is_Some ((discovered w input_dir).2 !! base)) ∧
    Forall (λ pair,
      (discovered w input_dir).1 !! base_name pair
        = Some (stg_host pair, stg_path pair) ∧
      (discovered w input_dir).2 !! base_name pair
        = Some (prd_host pair, prd_path pair)) pairs.
Proof.
  unfold _discover_pairs.
  destruct (discovered w input_dir) as [stg_files prd_files]. simpl.
  set (bases := merge_sort String.le
                  (elements ((dom stg_files : gset string) ∩ dom prd_files))).
  assert (∀ base, base ∈ bases ↔
            is_Some (stg_files !! base) ∧ is_Some (prd_files !! base)) as Hin.
  { intros base. unfold bases. rewrite merge_sort_Permutation.
    by rewrite elem_of_elements, elem_of_intersection, !elem_of_dom. }
  match goal with
  | |- ∃ pairs, rmapM ?f bases = _ ∧ _ =>
      destruct (rmapM_Forall2 f bases) as (pairs & -> & Hpairs)
  end.
  { apply Forall_forall. intros base [[stg ->] [prd ->]]%Hin. simpl. eauto. }
  exists pairs. split; [done|].
  assert (base_name <$> pairs = bases) as Hnames.
  { clear Hin. induction Hpairs as [|base pair l k Hp _ IH]; [done|].
    rewrite fmap_cons, IH. f_equal.
    destruct (stg_files !! base); [|done]. destruct (prd_files !! base); [|done].
    simpl in Hp. by injection Hp as <-. }
  rewrite Hnames. split; [|split; [|split; [done|]]].
  - apply (StronglySorted_merge_sort _).
  - unfold bases. rewrite merge_sort_Permutation. apply NoDup_elements.
  - clear Hin Hnames. induction Hpairs as [|base pair l k Hp _ IH]; constructor;
      [|done].
    destruct (stg_files !! base) as [[??]|] eqn:Hs; [|done].
    destruct (prd_files !! base) as [[??]|] eqn:Hp'; [|done].
    simpl in Hp. injection Hp as <-. simpl. by rewrite Hs, Hp'.
Qed.

(** X5. [_discover_pairs] returns for every directory listing; the pairs
    come in the order of their base names, and no base name comes twice. *)
Theorem discover_pairs_sorted (w : World) (input_dir : string) :
  ∃ pairs, _discover_pairs w input_dir = Ok pairs ∧
    StronglySorted String.le (base_name <$> pairs) ∧
    NoDup (base_name <$> pairs).
Proof.
  destruct (discover_pairs_spec w input_dir) as (pairs & ? & ? & ? & _).
  by exists pairs.
Qed.

(** X6. A base name has a pair exactly when the directory has a [*.log]
    entry whose host name is the base name followed by a character that
    lower-cases to [s], and one whose host name is the base name followed by
    a character that lower-cases to [p]. *)
Theorem discover_pairs_bases (w : World) (input_dir : string) :
  ∃ pairs, _discover_pairs w input_dir = Ok pairs ∧
    ∀ base, base ∈ base_name <$> pairs ↔
      ∃ stg_name prd_name cs cp,
        stg_name ∈ glob_log w input_dir ∧ prd_name ∈ glob_log w input_dir ∧
        _extract_host_name stg_name = base +:+ String cs "" ∧
        lower cs = "s"%char ∧
        _extract_host_name prd_name = base +:+ String cp "" ∧
        lower cp = "p"%char.
Proof.
  destruct (discover_pairs_spec w input_dir) as (pairs & Hpairs & _ & _ & Hin & _).
  destruct (discovered_spec w input_dir) as (Hs & Hp & Hc).
  exists pairs. split; [done|]. intros base. rewrite Hin. split.
  - intros [[hs Hhs] [hp Hhp]].
    destruct (Hs _ _ Hhs) as (ns & cs & ? & _ & ? & ?).
    destruct (Hp _ _ Hhp) as (np & cp & ? & _ & ? & ?).
    by exists ns, np, cs, cp.
  - intros (ns & np & cs & cp & Hns & Hnp & Hhs & Hls & Hhp & Hlp).
    split.
    + by apply (Hc ns base cs Hns Hhs).
    + by apply (Hc np base cp Hnp Hhp).
Qed.

(** X7. Every pair [_discover_pairs] returns is made of two [*.log] entries
    of the directory: the staged host name is the base name followed by [s]
    or [S], the production host name is the base name followed by [p] or
    [P], each is the host name of its entry, and the paths are the paths of
    the two entries. *)
Theorem discover_pairs_sound (w : World) (input_dir : string) :
  ∃ pairs, _discover_pairs w input_dir = Ok pairs ∧
    Forall (λ pair,
      ∃ stg_name prd_name cs cp,
        stg_name ∈ default [] (w_dirs w !! input_dir) ∧
        prd_name ∈ default [] (w_dirs w !! input_dir) ∧
        str_ends_with ".log" stg_name = true ∧
        str_ends_with ".log" prd_name = true ∧
        stg_path pair = child_path input_dir stg_name ∧
        prd_path pair = child_path input_dir prd_name ∧
        stg_host pair = _extract_host_name stg_name ∧
        prd_host pair = _extract_host_name prd_name ∧
        stg_host pair = base_name pair +:+ String cs "" ∧
        prd_host pair = base_name pair +:+ String cp "" ∧
        (cs = "s"%char ∨ cs = "S"%char) ∧ (cp = "p"%char ∨ cp = "P"%char)) pairs.
Proof.
  destruct (discover_pairs_spec w input_dir) as (pairs & Hpairs & _ & _ & _ & Hall).
  destruct (discovered_spec w input_dir) as (Hs & Hp & _).
  exists pairs. split; [done|].
  eapply Forall_impl; [exact Hall|]. intros pair [Hps Hpp]. simpl in *.
  destruct (Hs _ _ Hps) as (ns & cs & [Hns Hes]%list_elem_of_filter & [= Hh1 Hp1] & Hb1 & Hl1).
  destruct (Hp _ _ Hpp) as (np & cp & [Hnp Hep]%list_elem_of_filter & [= Hh2 Hp2] & Hb2 & Hl2).
  exists ns, np, cs, cp. rewrite Hh1, Hh2.
  repeat split; try done.
  - by destruct (lower_inv cs _ Hl1) as [->| ->]; [vm_compute; lia|left|right].
  - by destruct (lower_inv cp _ Hl2) as [->| ->]; [vm_compute; lia|left|right].
Qed.

(** *** Host names *)

Lemma str_rfind_dot_log s : ∀ i found,
  str_rfind_from "." (s +:+ ".log") i found = Some (i + String.length s).
Proof.
  induction s as [|c s IH]; intros i found.
  - simpl. by rewrite Nat.add_0_r.
  - rewrite app_String. cbn [str_rfind_from]. rewrite IH. simpl. f_equal. lia.
Qed.

Lemma str_take_app s t : str_take (String.length s) (s +:+ t) = s.
Proof.
  induction s as [|c s IH]; [by destruct t|]. rewrite app_String. simpl.
  by rewrite IH.
Qed.

Lemma path_stem_log s : s ≠ "" → path_stem (s +:+ ".log") = s.
Proof.
  intros Hs. unfold path_stem, str_rfind. rewrite str_rfind_dot_log. simpl.
  rewrite decide_True; [apply str_take_app|].
  rewrite str_length_app. simpl. destruct s; [done|]. simpl. lia.
Qed.

Lemma str_split1_prefix sep s :
  str_split1 sep (sep +:+ s) = Some ("", str_drop (String.length sep) (sep +:+ s)).
Proof.
  assert (String.prefix sep (sep +:+ s) = true) as Hpre.
  { induction sep as [|c sep IH]; [by destruct s|].
    rewrite app_String. simpl. destruct (Ascii.ascii_dec c c); done. }
  destruct (sep +:+ s); cbn [str_split1]; by rewrite Hpre.
Qed.

(** X8. The host name of an entry called [diff_<host>.log] is [<host>],
    whatever [<host>] is. *)
Theorem extract_host_name_diff (host : string) :
  _extract_host_name ("diff_" +:+ host +:+ ".log") = host.
Proof.
  unfold _extract_host_name. rewrite <-str_app_assoc.
  rewrite path_stem_log by (by str_cons). by rewrite str_split1_prefix.
Qed.

(** ** Generating the workbook *)

Lemma build_rows_for_pair_cases (w : World) (pair : LogPair) :
  (∃ rows, _build_rows_for_pair w pair = Ok rows) ∨
  (∃ path, (path = stg_path pair ∨ path = prd_path pair) ∧
     w_logs w !! path = None ∧
     _build_rows_for_pair w pair = Err (FileNotFoundError path)).
Proof.
  unfold _build_rows_for_pair, _read_log_lines.
  destruct (w_logs w !! stg_path pair) as [stg_lines|] eqn:Hs; simpl;
    [|right; exists (stg_path pair); auto].
  destruct (w_logs w !! prd_path pair) as [prd_lines|] eqn:Hp; simpl;
    [|right; exists (prd_path pair); auto].
  destruct (align_logs_runs stg_lines prd_lines)
    as (ops & runs & _ & _ & _ & _ & ->).
  simpl. left. by eexists.
Qed.

(** The sheet of a pair: its rows are those built for the pair, and its name
    is the base name cut to 31 characters or one of its candidates. *)
Definition sheet_for (w : World) (pair : LogPair) (sheet : SheetData) : Prop :=
  _build_rows_for_pair w pair = Ok (sheet_rows sheet) ∧
  (sheet_name sheet = str_prefix 31 (base_name pair) ∨
   ∃ counter, (2 ≤ counter)%N ∧
     sheet_name sheet = candidate_name (str_prefix 31 (base_name pair)) counter).

(** The loop over the pairs: what it returns when it returns, and the only
    way it raises. *)
Lemma sheet_steps_spec (w : World) (pairs : list LogPair) :
  ∀ (sheets : list SheetData) (used : gset string),
    (∃ new used',
       rfoldl (sheet_step w) (sheets, used) pairs = Ok (sheets ++ new, used') ∧
       used' = list_to_set (sheet_name <$> new) ∪ used ∧
       NoDup (sheet_name <$> new) ∧
       (∀ name, name ∈ sheet_name <$> new → name ∉ used) ∧
       Forall2 (sheet_for w) pairs new) ∨
    (∃ pair path,
       pair ∈ pairs ∧ (path = stg_path pair ∨ path = prd_path pair) ∧
       w_logs w !! path = None ∧
       rfoldl (sheet_step w) (sheets, used) pairs
       = Err (FileNotFoundError path)).
Proof.
  induction pairs as [|pair pairs IH]; intros sheets used.
  { left. exists [], used. rewrite app_nil_r. simpl.
    split; [done|]. split; [by rewrite (left_id_L ∅ (∪))|]. split; [constructor|].
    split; [|constructor]. intros name H. by apply elem_of_nil in H. }
  assert (rfoldl (sheet_step w) (sheets, used) (pair :: pairs)
          = rbind (sheet_step w (sheets, used) pair)
                  (λ st, rfoldl (sheet_step w) st pairs)) as -> by done.
  destruct (build_rows_for_pair_cases w pair)
    as [[rows Hrows]|(path & Hpath & Hnone & Herr)].
  2:{ right. exists pair, path. unfold sheet_step. rewrite Herr.
      split; [by left|]. done. }
  destruct (make_unique_sheet_name_first (str_prefix 31 (base_name pair)) used)
    as (name & Hname & Hfree & Hwhich).
  assert (sheet_step w (sheets, used) pair
          = Ok (sheets ++ [mkSheet name rows], {[name]} ∪ used)) as ->.
  { unfold sheet_step. rewrite Hrows. cbn [rbind fst snd]. by rewrite Hname. }
  cbn [rbind].
  destruct (IH (sheets ++ [mkSheet name rows]) ({[name]} ∪ used))
    as [(new & used' & -> & -> & Hnd & Hfresh & Hall)|
        (pair' & path & Hin & Hpath & Hnone & ->)].
  - left. exists (mkSheet name rows :: new),
             (list_to_set (sheet_name <$> new) ∪ ({[name]} ∪ used)).
    rewrite <-app_assoc. cbn [app]. split; [done|]. split.
    { rewrite fmap_cons, list_to_set_cons. cbn [sheet_name].
      by rewrite (assoc_L (∪)), (comm_L (∪) (list_to_set _) {[name]}). }
    split; [|split].
    + rewrite fmap_cons. constructor; [|done]. intros Hin. apply Hfresh in Hin.
      apply Hin, elem_of_union. left. by apply elem_of_singleton.
    + rewrite fmap_cons. intros name' [->|Hin]%elem_of_cons; [done|].
      apply Hfresh in Hin. intros Hu. apply Hin, elem_of_union. by right.
    + constructor; [|done]. split; [done|]. simpl.
      destruct Hwhich as [[_ ->]|(_ & n & _ & -> & _)]; [by left|].
      right. exists (2 + N.of_nat n)%N. split; [lia|done].
  - right. exists pair', path. split; [by right|]. done.
Qed.

Lemma write_xlsx_Ok (sheets : list SheetData) :
  sheets ≠ [] → ∃ zf, write_xlsx sheets = Ok zf.
Proof.
  intros Hne. unfold write_xlsx. rewrite decide_False by done.
  destruct (rmapM_Ok _build_sheet_xml sheets) as [els ->]; [|by eexists].
  apply Forall_forall. intros s _. apply build_sheet_xml_Ok.
Qed.

(** The archive operations of a run that gets past pair discovery. *)
Definition run_ops (output_path : string) (output_exists written : bool)
    : list archive_op :=
  PathExists output_path ::
  (if output_exists then [ArchiveRead output_path] else []) ++
  (if written then [ArchiveWrite output_path] else []).

(** The sheets of the archive at the output path, if there is one. *)
Definition existing_sheets_of (w : World) (output_path : string)
    : result (list SheetData) :=
  if bool_decide (is_Some (w_archives w !! output_path))
  then _load_existing_sheets w output_path else Ok [].

(** [generate_workbook], step by step. *)
Lemma generate_workbook_unfold (input_dir output_path : string) (s : State) :
  let w := st_world s in
  let output_exists := bool_decide (is_Some (w_archives w !! output_path)) in
  let s1 := mkState w (st_ops s ++ run_ops output_path output_exists false) in
  generate_workbook input_dir output_path s =
  match _discover_pairs w input_dir with
  | Err e => (Err e, s)
  | Ok pairs =>
      if decide (pairs = [])
      then (Err (FileNotFoundError (no_pairs_message input_dir)), s)
      else
        match existing_sheets_of w output_path with
        | Err e => (Err e, s1)
        | Ok existing =>
            match rfoldl (sheet_step w)
                    ([], list_to_set (sheet_name <$> existing)) pairs with
            | Err e => (Err e, s1)
            | Ok st =>
                match write_xlsx (existing ++ st.1) with
                | Err e => (Err e, s1)
                | Ok zf =>
                    (Ok (),
                     mkState (mkWorld (w_dirs w) (w_logs w)
                                (<[output_path := zf]> (w_archives w)))
                             (st_ops s ++ run_ops output_path output_exists true))
                end
            end
        end
  end.
Proof.
  intros w output_exists s1. subst s1.
  unfold generate_workbook, existing_sheets_of, run_ops.
  unfold mbind at 1. unfold m_lift at 1. fold w.
  destruct (_discover_pairs w input_dir) as [pairs|e]; [|done].
  destruct (decide (pairs = [])); [done|].
  unfold path_exists, load_existing, write_xlsx_at, mbind, m_op, m_lift,
    m_put_archive, mret.
  cbn [st_world st_ops]. fold w output_exists.
  destruct output_exists; cbn [st_world st_ops].
  - destruct (_load_existing_sheets w output_path) as [existing|e];
      [|by rewrite app_nil_r, <-app_assoc].
    destruct (rfoldl _ _ pairs) as [st|e]; [|by rewrite app_nil_r, <-app_assoc].
    destruct (write_xlsx _) as [zf|e]; [|by rewrite app_nil_r, <-app_assoc].
    by rewrite <-!app_assoc.
  - destruct (rfoldl _ _ pairs) as [st|e]; [|by rewrite app_nil_r].
    destruct (write_xlsx _) as [zf|e]; [|by rewrite app_nil_r].
    by rewrite <-!app_assoc.
Qed.

(** Every run of [generate_workbook], case by case. *)
Lemma generate_workbook_cases (input_dir output_path : string) (s : State) :
  let w := st_world s in
  let output_exists := bool_decide (is_Some (w_archives w !! output_path)) in
  ∃ pairs, _discover_pairs w input_dir = Ok pairs ∧
    ((pairs = [] ∧
      generate_workbook input_dir output_path s
      = (Err (FileNotFoundError (no_pairs_message input_dir)), s)) ∨
     (pairs ≠ [] ∧ ∃ e,
        existing_sheets_of w output_path = Err e ∧
        generate_workbook input_dir output_path s
        = (Err e, mkState w (st_ops s ++ run_ops output_path output_exists false))) ∨
     (pairs ≠ [] ∧ ∃ existing pair path,
        existing_sheets_of w output_path = Ok existing ∧
        pair ∈ pairs ∧ (path = stg_path pair ∨ path = prd_path pair) ∧
        w_logs w !! path = None ∧
        generate_workbook input_dir output_path s
        = (Err (FileNotFoundError path),
           mkState w (st_ops s ++ run_ops output_path output_exists false))) ∨
     (pairs ≠ [] ∧ ∃ existing new zf,
        existing_sheets_of w output_path = Ok existing ∧
        Forall2 (sheet_for w) pairs new ∧
        NoDup (sheet_name <$> new) ∧
        (∀ name, name ∈ sheet_name <$> new → name ∉ sheet_name <$> existing) ∧
        write_xlsx (existing ++ new) = Ok zf ∧
        generate_workbook input_dir output_path s
        = (Ok (),
           mkState (mkWorld (w_dirs w) (w_logs w)
                      (<[output_path := zf]> (w_archives w)))
                   (st_ops s ++ run_ops output_path output_exists true)))).
Proof.
  intros w output_exists.
  destruct (discover_pairs_spec w input_dir) as (pairs & Hpairs & _).
  exists pairs. split; [done|].
  rewrite generate_workbook_unfold. fold w output_exists. rewrite Hpairs.
  destruct (decide (pairs = [])) as [Hnil|Hne]; [by left|]. right.
  destruct (existing_sheets_of w output_path) as [existing|e];
    [|left; split; [done|]; by exists e].
  right.
  destruct (sheet_steps_spec w pairs []
              (list_to_set (sheet_name <$> existing)))
    as [(new & used' & -> & _ & Hnd & Hfresh & Hall)|
        (pair & path & Hin & Hpath & Hnone & ->)].
  2:{ left. split; [done|]. by exists existing, pair, path. }
  right. split; [done|]. cbn [app fst].
  destruct (write_xlsx_Ok (existing ++ new)) as [zf Hzf].
  { intros [_ ->]%app_eq_nil. apply Forall2_nil_inv_r in Hall. done. }
  exists existing, new, zf. rewrite Hzf. split; [done|]. split; [done|].
  split; [done|]. split; [|done].
  intros name Hin. apply Hfresh in Hin. by rewrite elem_of_list_to_set in Hin.
Qed.

(** X9. A run of [generate_workbook] that raises leaves the world as it
    was, the archive at the output path included, and has opened no archive
    for writing. *)
Theorem generate_workbook_failure_keeps_world (input_dir output_path : string)
    (s s' : State) (e : error) :
  generate_workbook input_dir output_path s = (Err e, s') →
  st_world s' = st_world s ∧
  ∃ ops, st_ops s' = st_ops s ++ ops ∧ ∀ path, ArchiveWrite path ∉ ops.
Proof.
  intros Hrun.
  assert (∀ b path, ArchiveWrite path ∉ run_ops output_path b false) as Hops.
  { intros b path. unfold run_ops.
    destruct b; cbn [app]; intros H;
      repeat (apply elem_of_cons in H as [H|H]; [done|]);
      by apply elem_of_nil in H. }
  destruct (generate_workbook_cases input_dir output_path s)
    as (pairs & _ & [[_ H]|[(_ & e' & _ & H)|[(_ & ? & ? & ? & _ & _ & _ & _ & H)|
        (_ & ? & ? & ? & _ & _ & _ & _ & _ & H)]]]);
    rewrite H in Hrun; [injection Hrun as <- <-..|done].
  - split; [done|]. exists []. rewrite app_nil_r. split; [done|].
    intros path Hin. by apply elem_of_nil in Hin.
  - split; [done|]. eexists. split; [done|]. apply Hops.
  - split; [done|]. eexists. split; [done|]. apply Hops.
Qed.

(** The logs of the end-to-end scenario, with the production log missing. *)
Definition unreadable_world : World :=
  mkWorld {[ "ref" := ["diff_host1s.log"; "diff_host1p.log"] ]}
          {[ "ref/diff_host1s.log" := ["a"; "b"] ]}
          {[ "out.xlsx" := archive_with [] ]}.

Lemma generate_workbook_failure_keeps_world_witness :
  st_world (generate_workbook "ref" "out.xlsx" (mkState unreadable_world [])).2
  = unreadable_world ∧
  ∃ ops,
    st_ops (generate_workbook "ref" "out.xlsx" (mkState unreadable_world [])).2
    = [] ++ ops ∧ ∀ path, ArchiveWrite path ∉ ops.
Proof.
  apply (generate_workbook_failure_keeps_world "ref" "out.xlsx"
           (mkState unreadable_world []) _
           (FileNotFoundError "ref/diff_host1p.log")).
  vm_compute. reflexivity.
Defined.

(** X10. [generate_workbook] raises in three cases only: no pair was
    discovered; the archive at the output path exists and loading it raises
    (that error is passed on); or a log of a discovered pair cannot be read
    (a [FileNotFoundError] for its path). *)
Theorem generate_workbook_errors (input_dir output_path : string)
    (s s' : State) (e : error) :
  generate_workbook input_dir output_path s = (Err e, s') →
  ∃ pairs, _discover_pairs (st_world s) input_dir = Ok pairs ∧
    ((pairs = [] ∧ e = FileNotFoundError (no_pairs_message input_dir)) ∨
     (pairs ≠ [] ∧ is_Some (w_archives (st_world s) !! output_path) ∧
      _load_existing_sheets (st_world s) output_path = Err e) ∨
     (pairs ≠ [] ∧ ∃ pair path,
        pair ∈ pairs ∧ (path = stg_path pair ∨ path = prd_path pair) ∧
        w_logs (st_world s) !! path = None ∧ e = FileNotFoundError path)).
Proof.
  intros Hrun.
  destruct (generate_workbook_cases input_dir output_path s)
    as (pairs & Hpairs & [[? H]|[(? & e' & He & H)|
        [(? & ? & pair & path & _ & ? & ? & ? & H)|
         (_ & ? & ? & ? & _ & _ & _ & _ & _ & H)]]]);
    rewrite H in Hrun; [injection Hrun as <- <-..|done];
    exists pairs; (split; [done|]).
  - by left.
  - right; left. split; [done|]. unfold existing_sheets_of in He.
    case_bool_decide; [done|discriminate].
  - right; right. split; [done|]. by exists pair, path.
Qed.

Lemma generate_workbook_errors_witness :
  ∃ pairs, _discover_pairs unreadable_world "ref" = Ok pairs ∧
    ((pairs = [] ∧
      FileNotFoundError "ref/diff_host1p.log"
      = FileNotFoundError (no_pairs_message "ref")) ∨
     (pairs ≠ [] ∧ is_Some (w_archives unreadable_world !! "out.xlsx") ∧
      _load_existing_sheets unreadable_world "out.xlsx"
      = Err (FileNotFoundError "ref/diff_host1p.log")) ∨
     (pairs ≠ [] ∧ ∃ pair path,
        pair ∈ pairs ∧ (path = stg_path pair ∨ path = prd_path pair) ∧
        w_logs unreadable_world !! path = None ∧
        FileNotFoundError "ref/diff_host1p.log" = FileNotFoundError path)).
Proof.
  apply (generate_workbook_errors "ref" "out.xlsx"
           (mkState unreadable_world [])
           (generate_workbook "ref" "out.xlsx" (mkState unreadable_world [])).2).
  vm_compute. reflexivity.
Defined.

(** X11. A run of [generate_workbook] that returns has replaced the archive
    at the output path, and nothing else in the world, by the workbook of
    the sheets loaded from the archive that was there (none if there was
    none) followed by one sheet per discovered pair, in the order of the
    pairs, each with the rows built for its pair; it has looked for the
    archive, read it if it was there, and written it once. *)
Theorem generate_workbook_success (input_dir output_path : string)
    (s s' : State) :
  generate_workbook input_dir output_path s = (Ok (), s') →
  ∃ pairs existing new zf,
    _discover_pairs (st_world s) input_dir = Ok pairs ∧
    existing_sheets_of (st_world s) output_path = Ok existing ∧
    Forall2 (λ pair sheet,
       _build_rows_for_pair (st_world s) pair = Ok (sheet_rows sheet)) pairs new ∧
    write_xlsx (existing ++ new) = Ok zf ∧
    w_dirs (st_world s') = w_dirs (st_world s) ∧
    w_logs (st_world s') = w_logs (st_world s) ∧
    w_archives (st_world s') = <[output_path := zf]> (w_archives (st_world s)) ∧
    st_ops s' = st_ops s ++
      run_ops output_path
        (bool_decide (is_Some (w_archives (st_world s) !! output_path))) true.
Proof.
  intros Hrun.
  destruct (generate_workbook_cases input_dir output_path s)
    as (pairs & Hpairs & [[? H]|[(? & e' & He & H)|
        [(? & ? & pair & path & _ & ? & ? & ? & H)|
         (_ & existing & new & zf & ? & Hall & _ & _ & ? & H)]]]);
    rewrite H in Hrun; [done..|injection Hrun as <-].
  exists pairs, existing, new, zf. repeat split; try done.
  eapply Forall2_impl; [exact Hall|]. by intros pair sheet [? _].
Qed.

Lemma generate_workbook_success_witness :
  ∃ pairs existing new zf,
    _discover_pairs example_world "ref" = Ok pairs ∧
    existing_sheets_of example_world "out.xlsx" = Ok existing ∧
    Forall2 (λ pair sheet,
       _build_rows_for_pair example_world pair = Ok (sheet_rows sheet)) pairs new ∧
    write_xlsx (existing ++ new) = Ok zf ∧
    w_dirs (st_world
              (generate_workbook "ref" "out.xlsx" (mkState example_world [])).2)
      = w_dirs example_world ∧
    w_logs (st_world
              (generate_workbook "ref" "out.xlsx" (mkState example_world [])).2)
      = w_logs example_world ∧
    w_archives (st_world
              (generate_workbook "ref" "out.xlsx" (mkState example_world [])).2)
      = <[ "out.xlsx" := zf ]> (w_archives example_world) ∧
    st_ops (generate_workbook "ref" "out.xlsx" (mkState example_world [])).2
      = [] ++ run_ops "out.xlsx"
                (bool_decide (is_Some (w_archives example_world !! "out.xlsx")))
                true.
Proof.
  apply (generate_workbook_success "ref" "out.xlsx" (mkState example_world [])).
  vm_compute. reflexivity.
Defined.

(** X12. The sheets a run of [generate_workbook] adds have names that
    differ from one another and from the names of the sheets loaded from the
    existing archive; each is the base name of its pair cut to 31
    characters, or a candidate made from it with a counter from 2 on. *)
Theorem generate_workbook_fresh_names (input_dir output_path : string)
    (s s' : State) :
  generate_workbook input_dir output_path s = (Ok (), s') →
  ∃ pairs existing new zf,
    _discover_pairs (st_world s) input_dir = Ok pairs ∧
    existing_sheets_of (st_world s) output_path = Ok existing ∧
    w_archives (st_world s') !! output_path = Some zf ∧
    write_xlsx (existing ++ new) = Ok zf ∧
    NoDup (sheet_name <$> new) ∧
    (∀ name, name ∈ sheet_name <$> new → name ∉ sheet_name <$> existing) ∧
    Forall2 (λ pair sheet,
       sheet_name sheet = str_prefix 31 (base_name pair) ∨
       ∃ counter, (2 ≤ counter)%N ∧
         sheet_name sheet
         = candidate_name (str_prefix 31 (base_name pair)) counter) pairs new.
Proof.
  intros Hrun.
  destruct (generate_workbook_cases input_dir output_path s)
    as (pairs & Hpairs & [[? H]|[(? & e' & He & H)|
        [(? & ? & pair & path & _ & ? & ? & ? & H)|
         (_ & existing & new & zf & ? & Hall & ? & ? & ? & H)]]]);
    rewrite H in Hrun; [done..|injection Hrun as <-].
  exists pairs, existing, new, zf. repeat split; try done.
  - simpl. by rewrite lookup_insert_eq.
  - eapply Forall2_impl; [exact Hall|]. by intros pair sheet [_ ?].
Qed.

(** The world after a first run on the end-to-end scenario. *)
Definition second_run_world : World :=
  st_world (generate_workbook "ref" "out.xlsx" (mkState example_world [])).2.

Example second_run_names :
  match w_archives
          (st_world (generate_workbook "ref" "out.xlsx"
                       (mkState second_run_world [])).2) !! "out.xlsx" with
  | Some zf => match load_archive zf with
               | Ok sheets => sheet_name <$> sheets
               | Err _ => []
               end
  | None => []
  end = ["host1"; "host1.v2"].
Proof. vm_compute. reflexivity. Qed.

Lemma generate_workbook_fresh_names_witness :
  ∃ pairs existing new zf,
    _discover_pairs second_run_world "ref" = Ok pairs ∧
    existing_sheets_of second_run_world "out.xlsx" = Ok existing ∧
    w_archives
      (st_world (generate_workbook "ref" "out.xlsx"
                   (mkState second_run_world [])).2) !! "out.xlsx" = Some zf ∧
    write_xlsx (existing ++ new) = Ok zf ∧
    NoDup (sheet_name <$> new) ∧
    (∀ name, name ∈ sheet_name <$> new → name ∉ sheet_name <$> existing) ∧
    Forall2 (λ pair sheet,
       sheet_name sheet = str_prefix 31 (base_name pair) ∨
       ∃ counter, (2 ≤ counter)%N ∧
         sheet_name sheet
         = candidate_name (str_prefix 31 (base_name pair)) counter) pairs new.
Proof.
  apply (generate_workbook_fresh_names "ref" "out.xlsx"
           (mkState second_run_world [])).
  vm_compute. reflexivity.
Defined.

(** ** A workbook, written and loaded again *)

(** The characters of a sheet name that the [name] attribute carries: no
    double quote (it is written unescaped) and no control character. *)
Definition name_char (c : ascii) : bool :=
  bool_decide (32 ≤ nat_of_ascii c ∧ c ≠ QUOTE).
Definition name_plain (s : string) : bool :=
  forallb name_char (String.list_ascii_of_string s).

Lemma attvalue_escape s : name_plain s = true → xml_attvalue (escape s) = Some s.
Proof.
  unfold xml_attvalue, name_plain. induction s as [|c s IH]; [done|].
  simpl. intros [Hc Hs]%andb_true_iff. specialize (IH Hs).
  rewrite escape_String. unfold escaped_char.
  apply bool_decide_eq_true in Hc as [Hge Hq].
  destruct (decide (c = "&"%char)) as [->|?].
  { str_cons. simpl. by rewrite IH. }
  destruct (decide (c = ">"%char)) as [->|?].
  { str_cons. simpl. by rewrite IH. }
  destruct (decide (c = "<"%char)) as [->|?].
  { str_cons. simpl. by rewrite IH. }
  cbn [andb]. str_cons. cbn [xml_decode].
  assert (c ≠ CR ∧ c ≠ LF ∧ c ≠ TAB) as (? & ? & ?).
  { repeat split; intros ->; vm_compute in Hge; lia. }
  rewrite !decide_False by done.
  rewrite (bool_decide_eq_false_2 (c = QUOTE)) by done. cbn [andb].
  rewrite bool_decide_eq_false_2 by (by intros [?|?]).
  assert (xml_char c = true) as ->.
  { unfold xml_char. apply bool_decide_eq_true. lia. }
  by rewrite IH.
Qed.

Lemma mapM_fmap_Some {A B C} (f : B → option C) (g : A → B) (h : A → C) l :
  (∀ x, x ∈ l → f (g x) = Some (h x)) → mapM f (g <$> l) = Some (h <$> l).
Proof.
  induction l as [|x l IH]; intros Hf; [done|].
  rewrite !fmap_cons. cbn [mapM]. rewrite Hf by (by left).
  rewrite IH by (intros; apply Hf; by right). done.
Qed.

(** Inserting a list of entries with distinct keys. *)
Lemma foldl_insert_notin {V} (kvs : list (string * V)) : ∀ (m : gmap string V) k,
  k ∉ kvs.*1 →
  foldl (λ m kv, <[kv.1 := kv.2]> m) m kvs !! k = m !! k.
Proof.
  induction kvs as [|[k' v'] kvs IH]; intros m k Hk; [done|].
  rewrite fmap_cons in Hk. apply not_elem_of_cons in Hk as [Hne Hk].
  cbn [foldl]. rewrite IH by done. by rewrite lookup_insert_ne.
Qed.

Lemma foldl_insert_in {V} (kvs : list (string * V)) : ∀ (m : gmap string V) k v,
  NoDup kvs.*1 → (k, v) ∈ kvs →
  foldl (λ m kv, <[kv.1 := kv.2]> m) m kvs !! k = Some v.
Proof.
  induction kvs as [|[k' v'] kvs IH]; intros m k v Hnd Hin.
  { by apply elem_of_nil in Hin. }
  rewrite fmap_cons in Hnd. apply NoDup_cons in Hnd as [Hk' Hnd].
  cbn [foldl]. apply elem_of_cons in Hin as [[= -> ->]|Hin].
  - rewrite foldl_insert_notin by done. apply lookup_insert_eq.
  - by apply IH.
Qed.

(** The names of the worksheet parts and of their relationships. *)
Definition sheet_part (index : nat) : string :=
  "xl/worksheets/sheet" +:+ pretty index +:+ ".xml".
Definition sheet_target (index : nat) : string :=
  "worksheets/sheet" +:+ pretty index +:+ ".xml".
Definition sheet_rid (index : nat) : string := "rId" +:+ pretty index.

Lemma str_app_inv_l (p s t : string) : p +:+ s = p +:+ t → s = t.
Proof. induction p as [|c p IH]; [done|]. rewrite !app_String. intros [=]. auto. Qed.

Lemma str_app_inv_r (s t u : string) : s +:+ u = t +:+ u → s = t.
Proof.
  revert t. induction s as [|c s IH]; intros [|c' t] Heq; [done|..].
  - apply (f_equal String.length) in Heq.
    rewrite ?app_String, ?app_Empty in Heq. simpl in Heq.
    rewrite ?str_length_app in Heq. lia.
  - apply (f_equal String.length) in Heq.
    rewrite ?app_String, ?app_Empty in Heq. simpl in Heq.
    rewrite ?str_length_app in Heq. lia.
  - rewrite !app_String in Heq. injection Heq as -> Heq. f_equal. by apply IH.
Qed.

Global Instance sheet_part_inj : Inj (=) (=) sheet_part.
Proof.
  intros i j Heq. unfold sheet_part in Heq.
  apply str_app_inv_l, str_app_inv_r in Heq. by apply (inj pretty) in Heq.
Qed.

Global Instance sheet_rid_inj : Inj (=) (=) sheet_rid.
Proof.
  intros i j Heq. unfold sheet_rid in Heq.
  apply str_app_inv_l in Heq. by apply (inj pretty) in Heq.
Qed.

Lemma enumerate1_lookup {A} (l : list A) i x :
  (i, x) ∈ enumerate1 l ↔ 1 ≤ i ∧ l !! (i - 1) = Some x.
Proof.
  unfold enumerate1. rewrite list_elem_of_lookup. split.
  - intros (k & Hk). rewrite list_lookup_imap in Hk.
    destruct (l !! k) eqn:Hl; [|done]. injection Hk as <- <-.
    split; [lia|]. by replace (k + 1 - 1) with k by lia.
  - intros [Hi Hx]. exists (i - 1). rewrite list_lookup_imap, Hx. simpl.
    do 2 f_equal. lia.
Qed.

Lemma enumerate1_NoDup {A B} `{EqDecision B} (f : nat → B) `{!Inj (=) (=) f}
    (l : list A) :
  NoDup ((λ ix : nat * A, f ix.1) <$> enumerate1 l).
Proof.
  induction l as [|x l IH] using rev_ind; [constructor|].
  rewrite enumerate1_snoc, fmap_app. apply NoDup_app. split; [done|]. split.
  - intros y (ix & -> & Hin)%list_elem_of_fmap [Heq|H]%elem_of_cons;
      [|by apply elem_of_nil in H].
    destruct ix as [i x']. apply enumerate1_lookup in Hin as [? Hl].
    apply lookup_lt_Some in Hl. simpl in Heq. apply (inj f) in Heq. lia.
  - apply NoDup_singleton.
Qed.

Lemma enumerate1_fmap {A B} (f : A → B) (l : list A) :
  enumerate1 (f <$> l) = (λ ix, (ix.1, f ix.2)) <$> enumerate1 l.
Proof.
  unfold enumerate1. apply list_eq. intros i.
  rewrite list_lookup_fmap, !list_lookup_imap, list_lookup_fmap.
  by destruct (l !! i).
Qed.

(** The parts of the archive [write_xlsx] writes. *)
Lemma write_xlsx_parts (sheets : list SheetData) (xmls : list Element) :
  sheets ≠ [] → rmapM _build_sheet_xml sheets = Ok xmls →
  ∃ zf, write_xlsx sheets = Ok zf ∧
    zf !! "xl/sharedStrings.xml" = None ∧
    zf !! "xl/workbook.xml" = Some (_build_workbook_xml (sheet_name <$> sheets)) ∧
    zf !! "xl/_rels/workbook.xml.rels"
      = Some (_build_workbook_rels_xml (length sheets)) ∧
    ∀ i xml, 1 ≤ i → xmls !! (i - 1) = Some xml → zf !! sheet_part i = Some xml.
Proof.
  intros Hne Hxmls. unfold write_xlsx. rewrite decide_False by done.
  rewrite Hxmls. cbn [rbind]. eexists. split; [done|].
  unfold writestr.
  rewrite <-(foldl_fmap (λ (m : ZipFile) (kv : string * Element), <[kv.1 := kv.2]> m)
               _ (enumerate1 xmls) (λ id : nat * Element, (sheet_part id.1, id.2))).
  assert (∀ name, (∀ i, name ≠ sheet_part i) →
            name ∉ ((λ id : nat * Element, (sheet_part id.1, id.2))
                      <$> enumerate1 xmls).*1) as Hfixed.
  { intros name Hname (kv & -> & (id & -> & _)%list_elem_of_fmap)%list_elem_of_fmap.
    by apply (Hname id.1). }
  split; [|split; [|split]].
  - rewrite foldl_insert_notin.
    2:{ apply Hfixed. intros i. unfold sheet_part. str_cons. done. }
    by rewrite !lookup_insert_ne, lookup_empty by done.
  - rewrite foldl_insert_notin.
    2:{ apply Hfixed. intros i. unfold sheet_part. str_cons. done. }
    rewrite !lookup_insert_ne by done. apply lookup_insert_eq.
  - rewrite foldl_insert_notin.
    2:{ apply Hfixed. intros i. unfold sheet_part. str_cons. done. }
    rewrite lookup_insert_ne by done. apply lookup_insert_eq.
  - intros i xml Hi Hxml. apply foldl_insert_in.
    + rewrite <-list_fmap_compose. apply (enumerate1_NoDup sheet_part).
    + apply list_elem_of_fmap. exists (i, xml). split; [done|].
      by apply enumerate1_lookup.
Qed.

(** The [<sheet>] element of sheet [index] called [name], as read. *)
Definition sheet_node (index : nat) (name : string) : Element :=
  Elem (qname NS_MAIN "sheet")
    [("name", name); ("sheetId", pretty index);
     (qname NS_DOC_REL "id", sheet_rid index)] None [].

Lemma attvalue_pretty (n : nat) : xml_attvalue (pretty n) = Some (pretty n).
Proof. apply attvalue_plain, all_digits_attr_plain, pretty_nat_digits. Qed.

Lemma attvalue_app s t :
  attr_plain s = true → attr_plain t = true → xml_attvalue (s +:+ t) = Some (s +:+ t).
Proof. intros. by apply attvalue_plain, attr_plain_app. Qed.

(** The workbook part, as read. *)
Lemma workbook_xml_decode (names : list string) :
  Forall (λ name, name_plain name = true) names →
  fromstring (_build_workbook_xml names)
  = Ok (Elem (qname NS_MAIN "workbook") [] None
          [Elem (qname NS_MAIN "sheets") [] None
             ((λ ix : nat * string, sheet_node ix.1 ix.2) <$> enumerate1 names)]).
Proof.
  intros Hnames. unfold fromstring, _build_workbook_xml.
  rewrite decode_element_unfold. cbn [mapM mbind option_bind mret option_ret].
  rewrite decode_element_unfold. cbn [mapM mbind option_bind mret option_ret].
  rewrite (mapM_fmap_Some decode_element _
             (λ ix : nat * string, sheet_node ix.1 ix.2)); [done|].
  intros [i name] [_ Hin%list_elem_of_lookup_2]%enumerate1_lookup.
  rewrite Forall_forall in Hnames. specialize (Hnames _ Hin).
  rewrite decode_element_unfold. cbn [mapM mbind option_bind mret option_ret fst snd].
  rewrite attvalue_escape by done. cbn [mbind option_bind].
  rewrite attvalue_pretty. cbn [mbind option_bind].
  rewrite attvalue_app;
    [done|done|apply all_digits_attr_plain, pretty_nat_digits].
Qed.

(** The [<Relationship>] of worksheet [index]. *)
Definition sheet_relationship (index : nat) : Element :=
  relationship (sheet_rid index) (NS_DOC_REL +:+ "/worksheet") (sheet_target index).

Lemma relationship_decode id type target :
  attr_plain id = true → attr_plain type = true → attr_plain target = true →
  decode_element (relationship id type target) = Some (relationship id type target).
Proof.
  intros Hid Hty Htg. unfold relationship. rewrite decode_element_unfold.
  cbn [mapM mbind option_bind mret option_ret fst snd].
  by rewrite !attvalue_plain by done.
Qed.

Lemma sheet_rid_plain index : attr_plain (sheet_rid index) = true.
Proof.
  apply attr_plain_app; [done|apply all_digits_attr_plain, pretty_nat_digits].
Qed.

Lemma sheet_target_plain index : attr_plain (sheet_target index) = true.
Proof.
  unfold sheet_target.
  apply attr_plain_app; [done|].
  apply attr_plain_app; [apply all_digits_attr_plain, pretty_nat_digits|done].
Qed.

Lemma mapM_fixed {A} (f : A → option A) (l : list A) :
  Forall (λ x, f x = Some x) l → mapM f l = Some l.
Proof.
  induction 1 as [|x l Hx _ IH]; [done|]. cbn [mapM]. by rewrite Hx, IH.
Qed.

(** The relationships part reads back as written. *)
Lemma workbook_rels_decode (sheet_count : nat) :
  fromstring (_build_workbook_rels_xml sheet_count)
  = Ok (_build_workbook_rels_xml sheet_count).
Proof.
  unfold fromstring, _build_workbook_rels_xml.
  rewrite decode_element_unfold. cbn [mapM mbind option_bind mret option_ret].
  rewrite mapM_fixed; [done|].
  apply Forall_app. split.
  - apply Forall_fmap, Forall_forall. intros index _.
    apply relationship_decode;
      [apply sheet_rid_plain|done|apply sheet_target_plain].
  - apply Forall_singleton.
    apply relationship_decode; [apply sheet_rid_plain|done..].
Qed.

Lemma filter_all {A} (P : A → Prop) `{∀ x, Decision (P x)} (l : list A) :
  Forall P l → filter P l = l.
Proof.
  induction 1 as [|x l Hx _ IH]; [done|]. by rewrite filter_cons_True, IH.
Qed.

Lemma relationship_attrs id type target :
  attr_item "Id" (relationship id type target) = Ok id ∧
  attr_item "Target" (relationship id type target) = Ok target.
Proof. split; reflexivity. Qed.

(** The relationship map of the relationships part. *)
Lemma rel_map_of_workbook_rels (sheet_count : nat) :
  ∃ rel_map, rel_map_of (_build_workbook_rels_xml sheet_count) = Ok rel_map ∧
    ∀ index, 1 ≤ index ≤ sheet_count →
      rel_map !! sheet_rid index = Some (sheet_target index).
Proof.
  unfold rel_map_of.
  pose (rels := ((λ index, sheet_relationship index) <$> seq 1 sheet_count) ++
                [relationship (sheet_rid (sheet_count + 1))
                   (NS_DOC_REL +:+ "/styles") "styles.xml"]).
  change (_build_workbook_rels_xml sheet_count)
    with (Elem (qname NS_PKG_REL "Relationships") [] None rels).
  assert (findall (qname NS_PKG_REL "Relationship")
            (Elem (qname NS_PKG_REL "Relationships") [] None rels) = rels) as ->.
  { unfold findall. cbn [children_of]. apply filter_all.
    apply Forall_app. split; [|by apply Forall_singleton].
    by apply Forall_fmap, Forall_forall. }
  set (kvs := ((λ index, (sheet_rid index, sheet_target index)) <$> seq 1 sheet_count)
              ++ [(sheet_rid (sheet_count + 1), "styles.xml")]).
  assert (∀ m : gmap string string,
            rfoldl (λ rel_map rel,
                      id ←r attr_item "Id" rel;
                      target ←r attr_item "Target" rel;
                      Ok (<[id := target]> rel_map)) m rels
            = Ok (foldl (λ m kv, <[kv.1 := kv.2]> m) m kvs)) as ->.
  { unfold rels, kvs. generalize (seq 1 sheet_count). intros l m.
    induction l as [|index l IH] in m |- *; [done|].
    rewrite !fmap_cons, <-!app_comm_cons. cbn [rfoldl foldl].
    unfold sheet_relationship at 1 2.
    destruct (relationship_attrs (sheet_rid index) (NS_DOC_REL +:+ "/worksheet")
                (sheet_target index)) as [-> ->].
    cbn [rbind]. apply IH. }
  eexists. split; [done|]. intros index Hi.
  apply foldl_insert_in.
  - unfold kvs. rewrite fmap_app, <-list_fmap_compose. apply NoDup_app.
    split; [|split; [|apply NoDup_singleton]].
    + apply (NoDup_fmap_2 sheet_rid), NoDup_seq.
    + intros k (j & -> & [Hj1 Hj2]%elem_of_seq)%list_elem_of_fmap
        [Heq|Hnil]%elem_of_cons; [|by apply elem_of_nil in Hnil].
      simpl in Heq. apply (inj sheet_rid) in Heq. lia.
  - unfold kvs. apply elem_of_app. left. apply list_elem_of_fmap.
    exists index. split; [done|]. apply elem_of_seq. lia.
Qed.

Lemma sheet_node_attrs index name :
  attr_item (qname NS_DOC_REL "id") (sheet_node index name) = Ok (sheet_rid index) ∧
  attr_item "name" (sheet_node index name) = Ok name.
Proof. split; reflexivity. Qed.

Lemma rfoldl_snoc_each {A B C} (f : list C → B → result (list C))
    (h : A → B) (g : A → C) (l : list A) :
  (∀ acc x, x ∈ l → f acc (h x) = Ok (acc ++ [g x])) →
  ∀ acc, rfoldl f acc (h <$> l) = Ok (acc ++ (g <$> l)).
Proof.
  induction l as [|x l IH]; intros Hf acc.
  { by rewrite app_nil_r. }
  rewrite !fmap_cons. cbn [rfoldl]. rewrite Hf by (by left). cbn [rbind].
  rewrite IH by (intros; apply Hf; by right).
  by rewrite <-app_assoc.
Qed.

(** What a sheet reads back as: its name, and its rows as the sheet parser
    returns them. *)
Definition sheet_image (sheet : SheetData) : SheetData :=
  mkSheet (sheet_name sheet) (row_image <$> sheet_rows sheet).

(** Sheets whose names and cell texts the XML layer carries. *)
Definition workbook_ok (sheets : list SheetData) : bool :=
  forallb (λ sheet, name_plain (sheet_name sheet) && sheet_ok sheet) sheets.

Lemma write_load (sheets : list SheetData) :
  sheets ≠ [] → workbook_ok sheets = true →
  ∃ zf, write_xlsx sheets = Ok zf ∧
    load_archive zf = Ok (sheet_image <$> sheets).
Proof.
  intros Hne Hok. unfold workbook_ok in Hok. rewrite forallb_forall in Hok.
  assert (∀ sheet, sheet ∈ sheets →
            name_plain (sheet_name sheet) = true ∧ sheet_ok sheet = true) as Hsheets.
  { intros sheet Hin%list_elem_of_In%Hok. by apply andb_true_iff in Hin. }
  clear Hok.
  destruct (rmapM_Forall2 _build_sheet_xml sheets) as (xmls & Hxmls & Hall).
  { apply Forall_forall. intros sheet _. apply build_sheet_xml_Ok. }
  destruct (write_xlsx_parts sheets xmls Hne Hxmls)
    as (zf & Hzf & Hss & Hwb & Hrels & Hparts).
  exists zf. split; [done|]. unfold load_archive.
  assert (_load_shared_strings zf = Ok []) as ->.
  { unfold _load_shared_strings, namelist. rewrite decide_True; [done|].
    by apply not_elem_of_dom. }
  cbn [rbind]. unfold zf_read at 1. rewrite Hwb. cbn [of_option rbind].
  rewrite workbook_xml_decode.
  2:{ apply Forall_fmap, Forall_forall. intros sheet Hin. by apply Hsheets. }
  cbn [rbind]. unfold zf_read at 1. rewrite Hrels. cbn [of_option rbind].
  rewrite workbook_rels_decode. cbn [rbind].
  destruct (rel_map_of_workbook_rels (length sheets)) as (rel_map & -> & Hmap).
  cbn [rbind].
  assert (∀ l, sheet_nodes (Elem (qname NS_MAIN "workbook") [] None
                 [Elem (qname NS_MAIN "sheets") [] None
                    ((λ ix : nat * string, sheet_node ix.1 ix.2) <$> l)])
               = (λ ix : nat * string, sheet_node ix.1 ix.2) <$> l) as ->.
  { intros l. unfold sheet_nodes, findall. cbn [children_of].
    rewrite filter_cons_True by done. rewrite filter_nil.
    rewrite bind_singleton. cbn [children_of]. apply filter_all.
    by apply Forall_fmap, Forall_forall. }
  rewrite enumerate1_fmap, <-list_fmap_compose.
  rewrite (rfoldl_snoc_each _ _ (λ ix : nat * SheetData, sheet_image ix.2)).
  { cbn [app]. f_equal.
    trans (sheet_image <$> ((λ ix : nat * SheetData, ix.2) <$> enumerate1 sheets));
      [by rewrite <-list_fmap_compose|by rewrite enumerate1_snd]. }
  intros acc [i sheet] [Hi Hsheet]%enumerate1_lookup. cbn [compose fst snd].
  unfold load_sheet.
  destruct (sheet_node_attrs i (sheet_name sheet)) as [-> ->]. cbn [rbind].
  pose proof (lookup_lt_Some _ _ _ Hsheet) as Hlt.
  rewrite Hmap by lia.
  assert (truthy_opt (Some (sheet_target i)) = true) as ->.
  { apply bool_decide_eq_true. unfold sheet_target. by str_cons. }
  cbn [negb default id]. change ("xl/" +:+ sheet_target i) with (sheet_part i).
  destruct (Forall2_lookup_l _ _ _ _ _ Hall Hsheet) as (xml & Hxml & Hbuild).
  unfold zf_read. rewrite (Hparts i xml Hi Hxml). cbn [of_option rbind].
  destruct (build_sheet_parse sheet) as (xml' & Hbuild' & Hparse).
  { apply Hsheets. by eapply list_elem_of_lookup_2. }
  rewrite Hbuild in Hbuild'. injection Hbuild' as <-.
  by rewrite Hparse.
Qed.

(** X13. A workbook with at least one sheet, whose sheet names have no
    double quote or control character and whose cell texts the XML layer
    carries, loads again from the archive [write_xlsx] writes: the same
    sheets in the same order, with the same names, and rows as the sheet
    parser returns them. *)
Theorem write_load_round_trip (w : World) (output_path : string)
    (sheets : list SheetData) (zf : ZipFile) :
  workbook_ok sheets = true →
  write_xlsx sheets = Ok zf →
  w_archives w !! output_path = Some zf →
  _load_existing_sheets w output_path = Ok (sheet_image <$> sheets).
Proof.
  intros Hok Hzf Hw. unfold _load_existing_sheets. rewrite Hw. cbn [of_option rbind].
  destruct (decide (sheets = [])) as [->|Hne]; [done|].
  destruct (write_load sheets Hne Hok) as (zf' & Hzf' & Hload).
  rewrite Hzf in Hzf'. by injection Hzf' as <-.
Qed.

(** A workbook of one sheet with a text to escape and a formula cell. *)
Definition round_trip_sheets : list SheetData :=
  [mkSheet "host1 & co"
     [[empty_cell; mkCell "a<b" None None;
       mkCell "0" (Some "B1=D1") (Some "b"); mkCell "a>b" None None];
      []]].

Definition round_trip_archive : ZipFile :=
  match write_xlsx round_trip_sheets with Ok zf => zf | Err _ => ∅ end.

Lemma write_load_round_trip_witness :
  _load_existing_sheets (mkWorld ∅ ∅ {[ "out.xlsx" := round_trip_archive ]})
    "out.xlsx"
  = Ok (sheet_image <$> round_trip_sheets).
Proof.
  apply (write_load_round_trip _ "out.xlsx" round_trip_sheets round_trip_archive).
  - vm_compute. reflexivity.
  - vm_compute. reflexivity.
  - vm_compute. reflexivity.
Defined.
